(** * The composite data provider of ontodia

    A shallow embedding of [src/ontodia/data/composite/composite.ts]: the
    class [CompositeDataProvider] presents several data providers as one,
    either by asking all of them and merging ([fetchAll]) or by asking them
    one after the other with a request that shrinks ([sequentialFetching]).

    Conventions of the embedding.
    - A promise is represented by the way it settles ([Resolved] or
      [Rejected]); the order in which the promises of one [Promise.all]
      settle is modelled separately, in [Promise_all_timed].
    - A method of a provider returns a promise; it does not throw before
      returning it.  A merge function returns a value.
    - [undefined] is [None].
    - A [Dictionary<T>] is a finite map from strings to [T], the own members
      of a plain object; its members are objects, hence truthy.  Reading
      [d[id]] also finds what the object inherits from [Object.prototype]
      ([truthyMember]).
    - Every method returns, next to its promise, the list of calls it made
      on the registered providers, in the order they were made.
    - The parameters of a method are values; [Objects], further down, has
      them as objects with an identity.

    After the composite provider come functions of the code around it:
    [DiagramModel] has the choice of a localized label
    ([src/ontodia/diagram/model.ts]), [Sparql] the pieces of queries and
    the RDF nodes of the SPARQL data provider, [SerializedDiagram] the
    conversion of layout data ([src/ontodia/editor/serializedDiagram.ts]). *)

From stdpp Require Import gmap strings list fin_maps pretty.
From Stdlib Require Import ZArith.
From Stdlib Require QArith_base.

Set Default Proof Using "Type".

(** ** Promises *)

Section Promises.
Context {Error : Type}.

Inductive Promise (A : Type) : Type :=
| Resolved (value : A)
| Rejected (error : Error).
Global Arguments Resolved {A} value.
Global Arguments Rejected {A} error.

(** [p.then(f)] for a handler [f] that returns a plain value. *)
Definition then_ {A B : Type} (p : Promise A) (f : A → B) : Promise B :=
  match p with
  | Resolved v => Resolved (f v)
  | Rejected e => Rejected e
  end.

(** [p.catch(g)] for a handler [g] that returns a plain value. *)
Definition catch_ {A : Type} (p : Promise A) (g : Error → A) : Promise A :=
  match p with
  | Resolved v => Resolved v
  | Rejected e => Resolved (g e)
  end.

(** [Promise.all(ps)], without regard to time: the values in the order of
    [ps] when every promise resolves, a rejection otherwise (the one that
    comes first in [ps]; [Promise_all_timed] below has the one that comes
    first in time). *)
Fixpoint Promise_all {A : Type} (ps : list (Promise A)) : Promise (list A) :=
  match ps with
  | [] => Resolved []
  | Resolved v :: ps' =>
      match Promise_all ps' with
      | Resolved vs => Resolved (v :: vs)
      | Rejected e => Rejected e
      end
  | Rejected e :: _ => Rejected e
  end.

(** The state of one [Promise.all] while its input promises settle:
    the array of values, the number of promises still pending, and the
    settlement of the combined promise once it has happened. *)
Record AllState (A : Type) : Type := mkAllState {
  values : list (option A);
  remaining : nat;
  combined : option (Promise (list A));
}.
Global Arguments mkAllState {A} values remaining combined.
Global Arguments values {A} _.
Global Arguments remaining {A} _.
Global Arguments combined {A} _.

(** The input promise at [index] settles.  A resolution stores its value
    at [index] of the array (once: a second resolution of the same index
    is ignored) and resolves the combined promise with the array when it
    was the last one; a rejection rejects the combined promise.  A promise
    settles only once, so a settlement of an already settled combined
    promise changes nothing. *)
Definition settle {A : Type} (ps : list (Promise A)) (st : AllState A)
    (index : nat) : AllState A :=
  match ps !! index with
  | None => st
  | Some (Resolved v) =>
      match values st !! index with
      | Some None =>
          let values' := <[index := Some v]> (values st) in
          let remaining' := pred (remaining st) in
          mkAllState values' remaining'
            (match combined st with
             | Some c => Some c
             | None =>
                 if decide (remaining' = 0)
                 then Some (Resolved (omap id values'))
                 else None
             end)
      | _ => st
      end
  | Some (Rejected e) =>
      mkAllState (values st) (remaining st)
        (match combined st with
         | Some c => Some c
         | None => Some (Rejected e)
         end)
  end.

(** [Promise.all(ps)] when the input promises settle in the order given by
    [completion] (a list of indices into [ps]).  An empty input resolves
    at once. *)
Definition Promise_all_timed {A : Type} (ps : list (Promise A))
    (completion : list nat) : option (Promise (list A)) :=
  let start :=
    mkAllState (replicate (length ps) None) (length ps)
      (if decide (length ps = 0) then Some (Resolved []) else None) in
  combined (foldl (settle ps) start completion).
End Promises.

Global Arguments Promise : clear implicits.

(** ** The data model and the provider interface

    The records of [../model] and the parameters of [filter] in
    [../provider] are not part of the composite provider: they are taken as
    they come, together with the three fields the composite provider reads
    ([cm.id] of a class, [lt.id] of a link type, [linkModel.sourceId]). *)

Class Model : Type := {
  Error : Type;
  ClassModel : Type;
  LinkType : Type;
  ElementModel : Type;
  LinkModel : Type;
  LinkCount : Type;
  PropertyModel : Type;
  FilterParams : Type;
  ClassModel_id : ClassModel → string;
  LinkType_id : LinkType → string;
  LinkModel_sourceId : LinkModel → string;
}.

Abbreviation Dictionary := (gmap string).

Inductive Direction : Type := dir_in | dir_out.

(** The parameters of [linkElements]. *)
Record LinkElementsParams : Type := {
  elementId : string;
  linkId : string;
  limit : Z;
  offset : Z;
  direction : option Direction;
}.

Section Providers.
Context `{Model}.

(** A method name of the interface [DataProvider] with the parameters of
    one call: what [dp.dataProvider[functionName].call(dp.dataProvider,
    params)] and [dp.dataProvider.propertyInfo({propertyIds: ...})] are
    given. *)
Inductive Request : Type :=
| classTreeRequest
| propertyInfoRequest (propertyIds : list string)
| classInfoRequest (classIds : list string)
| linkTypesInfoRequest (linkTypeIds : list string)
| linkTypesRequest
| elementInfoRequest (elementIds : list string)
| linksInfoRequest (elementIds linkTypeIds : list string)
| linkTypesOfRequest (elementId : string)
| linkElementsRequest (params : LinkElementsParams)
| filterRequest (params : FilterParams).

(** The type of the value the promise of each method resolves with. *)
Definition Response (req : Request) : Type :=
  match req with
  | classTreeRequest => list ClassModel
  | propertyInfoRequest _ => Dictionary PropertyModel
  | classInfoRequest _ => list ClassModel
  | linkTypesInfoRequest _ => list LinkType
  | linkTypesRequest => list LinkType
  | elementInfoRequest _ => Dictionary ElementModel
  | linksInfoRequest _ _ => list LinkModel
  | linkTypesOfRequest _ => list LinkCount
  | linkElementsRequest _ => Dictionary ElementModel
  | filterRequest _ => Dictionary ElementModel
  end.

(** The interface [DataProvider], with the signatures the composite
    provider implements it with. *)
Record DataProvider : Type := {
  provider_classTree : Promise Error (list ClassModel);
  provider_propertyInfo : list string → Promise Error (Dictionary PropertyModel);
  provider_classInfo : list string → Promise Error (list ClassModel);
  provider_linkTypesInfo : list string → Promise Error (list LinkType);
  provider_linkTypes : Promise Error (list LinkType);
  provider_elementInfo : list string → Promise Error (Dictionary ElementModel);
  provider_linksInfo : list string → list string → Promise Error (list LinkModel);
  provider_linkTypesOf : string → Promise Error (list LinkCount);
  provider_linkElements : LinkElementsParams → Promise Error (Dictionary ElementModel);
  provider_filter : FilterParams → Promise Error (Dictionary ElementModel);
}.

(** The call of one method of a provider. *)
Definition perform (p : DataProvider) (req : Request) : Promise Error (Response req) :=
  match req with
  | classTreeRequest => provider_classTree p
  | propertyInfoRequest propertyIds => provider_propertyInfo p propertyIds
  | classInfoRequest classIds => provider_classInfo p classIds
  | linkTypesInfoRequest linkTypeIds => provider_linkTypesInfo p linkTypeIds
  | linkTypesRequest => provider_linkTypes p
  | elementInfoRequest elementIds => provider_elementInfo p elementIds
  | linksInfoRequest elementIds linkTypeIds => provider_linksInfo p elementIds linkTypeIds
  | linkTypesOfRequest elementId => provider_linkTypesOf p elementId
  | linkElementsRequest params => provider_linkElements p params
  | filterRequest params => provider_filter p params
  end.

Record DPDefinition : Type := {
  name : string;
  dataProvider : DataProvider;
}.

(** What the constructor accepts in its list: a provider or a definition.
    [isDefenition] tells them apart by the presence of the fields [name]
    and [dataProvider]. *)
Inductive ProviderOrDefinition : Type :=
| bareProvider (dp : DataProvider)
| definition (dp : DPDefinition).

Definition isDefenition (dp : ProviderOrDefinition) : bool :=
  match dp with
  | definition _ => true
  | bareProvider _ => false
  end.

(** One call made on a registered provider. *)
Record Invocation : Type := {
  calledProvider : DPDefinition;
  calledWith : Request;
}.

(** [CompositeResponse<Type>] of [./mergeUtils], as the composite provider
    builds it: the provider's name and its response, or [undefined]. *)
Record CompositeResponse (T : Type) : Type := {
  dataSourceName : string;
  response : option T;
}.
Global Arguments Build_CompositeResponse {T} _ _.
Global Arguments dataSourceName {T} _.
Global Arguments response {T} _.

(** The merge functions of [./mergeUtils], one per method. *)
Class MergeUtils : Type := {
  mergeClassTree : list (CompositeResponse (list ClassModel)) → list ClassModel;
  mergePropertyInfo :
    list (CompositeResponse (Dictionary PropertyModel)) → Dictionary PropertyModel;
  mergeClassInfo : list (CompositeResponse (list ClassModel)) → list ClassModel;
  mergeLinkTypesInfo : list (CompositeResponse (list LinkType)) → list LinkType;
  mergeLinkTypes : list (CompositeResponse (list LinkType)) → list LinkType;
  mergeElementInfo :
    list (CompositeResponse (Dictionary ElementModel)) → Dictionary ElementModel;
  mergeLinksInfo : list (CompositeResponse (list LinkModel)) → list LinkModel;
  mergeLinkTypesOf : list (CompositeResponse (list LinkCount)) → list LinkCount;
  mergeLinkElements :
    list (CompositeResponse (Dictionary ElementModel)) → Dictionary ElementModel;
  mergeFilter :
    list (CompositeResponse (Dictionary ElementModel)) → Dictionary ElementModel;
}.

(** ** The class [CompositeDataProvider] *)

Record CompositeDataProvider : Type := {
  dataProviders : list DPDefinition;
  mergeMode : string;
}.

(** How a constructor call ends. *)
Inductive Completion (A : Type) : Type :=
| Normal (value : A)
| Throw (error : Error).
Global Arguments Normal {A} value.
Global Arguments Throw {A} error.

(** The callback of [dataProviders.map] in the constructor, with the
    counter [dpCounter] it increments for each provider it names. *)
Fixpoint nameProviders (dpCounter : nat) (dataProviders : list ProviderOrDefinition)
    : list DPDefinition :=
  match dataProviders with
  | [] => []
  | dp :: rest =>
      match dp with
      | definition d => d :: nameProviders dpCounter rest
      | bareProvider p =>
          {| name := "dataProvider_" +:+ pretty dpCounter; dataProvider := p |}
          :: nameProviders (S dpCounter) rest
      end
  end.

(** [new CompositeDataProvider(dataProviders, params)].  The second
    argument may be missing, and so may its field [mergeMode]; a merge mode
    is a string at run time, and the empty string is falsy. *)
Definition new_CompositeDataProvider (dataProviders : list ProviderOrDefinition)
    (params : option (option string)) : Completion CompositeDataProvider :=
  let dpCounter := 1 in
  let providers := nameProviders dpCounter dataProviders in
  let mergeMode :=
    match params with
    | Some (Some mode) => if decide (mode = "") then "fetchAll" else mode
    | _ => "fetchAll"
    end in
  Normal {| dataProviders := providers; mergeMode := mergeMode |}.

(** [processResults]: a response is tagged with the provider's name, a
    rejection is logged and becomes a tagged [undefined]. *)
Definition processResults {ResponseType : Type}
    (responsePromise : Promise Error ResponseType) (dpName : string)
    : Promise Error (CompositeResponse ResponseType) :=
  catch_
    (then_ responsePromise
       (λ response, {| dataSourceName := dpName; response := Some response |}))
    (λ error, {| dataSourceName := dpName; response := None |}).

(** The calls [dataProviders.map] makes for one request, in the order of
    the array. *)
Definition callAll (dps : list DPDefinition) (req : Request) : list Invocation :=
  (λ dp, {| calledProvider := dp; calledWith := req |}) <$> dps.

(** [fetchSequentially(functionName, mergeFunction, params)]; the method
    name and the parameters are the request. *)
Definition fetchSequentially {U : Type} (this : CompositeDataProvider)
    (req : Request) (mergeFunction : list (CompositeResponse (Response req)) → U)
    : Promise Error U * list Invocation :=
  let resultPromises :=
    (λ dp, processResults (perform (dataProvider dp) req) (name dp))
      <$> dataProviders this in
  (then_ (Promise_all resultPromises) mergeFunction,
   callAll (dataProviders this) req).
End Providers.

(** ** [queueProcessResults] *)

Section Queue.
Context `{Model} {ResponseType S : Type}.

(** The variables the closures of one [queueProcessResults] call share:
    [responseList], the variable the callback captured from the method
    that made it ([closure]: the ids still asked for), and the calls made
    so far.  The variable [counter] is the position in [dataProviders];
    [recursiveCall] below takes the providers from there on instead. *)
Record Queue : Type := {
  responseList : list (CompositeResponse ResponseType);
  closure : S;
  calls : list Invocation;
}.

(** A callback gets the previous result and a provider; it may update its
    captured variable, it returns [undefined] or the promise of the call it
    made, and the call is recorded. *)
Definition CallBack : Type :=
  option ResponseType → DPDefinition → S →
  S * option (Promise Error ResponseType) * list Invocation.

Variable callBack : CallBack.

(** [recursiveCall(result)] with [rest] the providers from [counter] on.
    The handler of [then] pushes the tagged response and goes on with the
    new result; the handler of [catch] goes on with the old one.  (The
    promise [recursiveCall] returns never rejects, see
    [recursiveCall_resolves], so [catch] only ever sees the rejection of
    [callBackResult].) *)
Fixpoint recursiveCall (rest : list DPDefinition) (result : option ResponseType)
    (q : Queue) : Promise Error (list (CompositeResponse ResponseType)) * Queue :=
  match rest with
  | dp :: rest' =>
      let '(s, callBackResult, made) := callBack result dp (closure q) in
      let q :=
        {| responseList := responseList q; closure := s; calls := calls q ++ made |} in
      match callBackResult with
      | None => (Resolved (responseList q), q)
      | Some (Resolved newResult) =>
          recursiveCall rest' (Some newResult)
            {| responseList :=
                 responseList q
                 ++ [{| dataSourceName := name dp; response := Some newResult |}];
               closure := closure q;
               calls := calls q |}
      | Some (Rejected error) => recursiveCall rest' result q
      end
  | [] => (Resolved (responseList q), q)
  end.

Definition queueProcessResults (this : CompositeDataProvider) (captured : S)
    : Promise Error (list (CompositeResponse ResponseType)) * list Invocation :=
  let '(promise, q) :=
    recursiveCall (dataProviders this) None
      {| responseList := []; closure := captured; calls := [] |} in
  (promise, calls q).
End Queue.

Global Arguments Queue {_} ResponseType S.
Global Arguments CallBack {_} ResponseType S.

(** ** The methods of [CompositeDataProvider] *)

Section Methods.
Context `{Model} `{!MergeUtils}.

(** Truthiness of an own member of a dictionary. *)
Definition truthy {A : Type} (member : option A) : bool :=
  match member with Some _ => true | None => false end.

(** The names of the members a plain object inherits from
    [Object.prototype]; each of them is a function or an object, hence
    truthy. *)
Definition objectPrototype : list string :=
  ["constructor"; "__defineGetter__"; "__defineSetter__"; "hasOwnProperty";
   "__lookupGetter__"; "__lookupSetter__"; "isPrototypeOf"; "propertyIsEnumerable";
   "toString"; "valueOf"; "__proto__"; "toLocaleString"].

(** Truthiness of [d[id]] for a dictionary [d]: an own member, or one that
    is inherited. *)
Definition truthyMember {A : Type} (d : Dictionary A) (id : string) : bool :=
  truthy (d !! id) || bool_decide (id ∈ objectPrototype).

(** [l.indexOf(x)] *)
Fixpoint indexOf_from (l : list string) (x : string) (i : Z) : Z :=
  match l with
  | [] => (-1)%Z
  | y :: l' => if String.eqb y x then i else indexOf_from l' x (i + 1)%Z
  end.

Definition indexOf (l : list string) (x : string) : Z := indexOf_from l x 0%Z.

(** The call [dp.dataProvider.method(params)] inside a callback. *)
Definition invoke (dp : DPDefinition) (req : Request)
    : Promise Error (Response req) * list Invocation :=
  (perform (dataProvider dp) req, [{| calledProvider := dp; calledWith := req |}]).

Definition classTree (this : CompositeDataProvider)
    : Promise Error (list ClassModel) * list Invocation :=
  fetchSequentially this classTreeRequest mergeClassTree.

Definition propertyInfo_callBack : CallBack (Dictionary PropertyModel) (list string) :=
  λ previousResult dp propertyIds,
    let propertyIds :=
      List.filter
        (λ id, match previousResult with
               | None => true
               | Some previous => negb (truthyMember previous id)
               end)
        propertyIds in
    if (0 <? length propertyIds)%nat
    then let '(promise, made) := invoke dp (propertyInfoRequest propertyIds) in
         (propertyIds, Some promise, made)
    else (propertyIds, None, []).

Definition propertyInfo (this : CompositeDataProvider) (propertyIds : list string)
    : Promise Error (Dictionary PropertyModel) * list Invocation :=
  if decide (mergeMode this = "fetchAll")
  then fetchSequentially this (propertyInfoRequest propertyIds) mergePropertyInfo
  else
    let '(promise, made) := queueProcessResults propertyInfo_callBack this propertyIds in
    (then_ promise mergePropertyInfo, made).

Definition classInfo_callBack : CallBack (list ClassModel) (list string) :=
  λ previousResult dp classIds,
    let classIds :=
      List.filter
        (λ id, match previousResult with
               | None => true
               | Some previous =>
                   Z.eqb (indexOf (List.map ClassModel_id previous) id) (-1)
               end)
        classIds in
    if (0 <? length classIds)%nat
    then let '(promise, made) := invoke dp (classInfoRequest classIds) in
         (classIds, Some promise, made)
    else (classIds, None, []).

Definition classInfo (this : CompositeDataProvider) (classIds : list string)
    : Promise Error (list ClassModel) * list Invocation :=
  if decide (mergeMode this = "fetchAll")
  then fetchSequentially this (classInfoRequest classIds) mergeClassInfo
  else
    let '(promise, made) := queueProcessResults classInfo_callBack this classIds in
    (then_ promise mergeClassInfo, made).

Definition linkTypesInfo_callBack : CallBack (list LinkType) (list string) :=
  λ previousResult dp linkTypeIds,
    let linkTypeIds :=
      List.filter
        (λ id, match previousResult with
               | None => true
               | Some previous =>
                   Z.eqb (indexOf (List.map LinkType_id previous) id) (-1)
               end)
        linkTypeIds in
    if (0 <? length linkTypeIds)%nat
    then let '(promise, made) := invoke dp (linkTypesInfoRequest linkTypeIds) in
         (linkTypeIds, Some promise, made)
    else (linkTypeIds, None, []).

Definition linkTypesInfo (this : CompositeDataProvider) (linkTypeIds : list string)
    : Promise Error (list LinkType) * list Invocation :=
  if decide (mergeMode this = "fetchAll")
  then fetchSequentially this (linkTypesInfoRequest linkTypeIds) mergeLinkTypesInfo
  else
    let '(promise, made) := queueProcessResults linkTypesInfo_callBack this linkTypeIds in
    (then_ promise mergeLinkTypesInfo, made).

Definition linkTypes (this : CompositeDataProvider)
    : Promise Error (list LinkType) * list Invocation :=
  fetchSequentially this linkTypesRequest mergeLinkTypes.

Definition elementInfo_callBack : CallBack (Dictionary ElementModel) (list string) :=
  λ previousResult dp elementIds,
    let elementIds :=
      List.filter
        (λ id, match previousResult with
               | None => true
               | Some previous => negb (truthyMember previous id)
               end)
        elementIds in
    if (0 <? length elementIds)%nat
    then let '(promise, made) := invoke dp (elementInfoRequest elementIds) in
         (elementIds, Some promise, made)
    else (elementIds, None, []).

Definition elementInfo (this : CompositeDataProvider) (elementIds : list string)
    : Promise Error (Dictionary ElementModel) * list Invocation :=
  if decide (mergeMode this = "fetchAll")
  then fetchSequentially this (elementInfoRequest elementIds) mergeElementInfo
  else
    let '(promise, made) := queueProcessResults elementInfo_callBack this elementIds in
    (then_ promise mergeElementInfo, made).

(** The callback of [linksInfo] captures [params] too, for its
    [linkTypeIds]. *)
Definition linksInfo_callBack (linkTypeIds : list string)
    : CallBack (list LinkModel) (list string) :=
  λ previousResult dp elementIds,
    let elementIds :=
      List.filter
        (λ id, match previousResult with
               | Some previous =>
                   negb (existsb (λ linkModel, String.eqb (LinkModel_sourceId linkModel) id)
                           previous)
               | None => true
               end)
        elementIds in
    if (0 <? length elementIds)%nat
    then let '(promise, made) := invoke dp (linksInfoRequest elementIds linkTypeIds) in
         (elementIds, Some promise, made)
    else (elementIds, None, []).

Definition linksInfo (this : CompositeDataProvider) (elementIds linkTypeIds : list string)
    : Promise Error (list LinkModel) * list Invocation :=
  if decide (mergeMode this = "fetchAll")
  then fetchSequentially this (linksInfoRequest elementIds linkTypeIds) mergeLinksInfo
  else
    let '(promise, made) :=
      queueProcessResults (linksInfo_callBack linkTypeIds) this elementIds in
    (then_ promise mergeLinksInfo, made).

Definition linkTypesOf_callBack (elementId : string) : CallBack (list LinkCount) unit :=
  λ previousResult dp captured,
    if match previousResult with
       | None => true
       | Some previous => (length previous =? 0)%nat
       end
    then let '(promise, made) := invoke dp (linkTypesOfRequest elementId) in
         (captured, Some promise, made)
    else (captured, None, []).

Definition linkTypesOf (this : CompositeDataProvider) (elementId : string)
    : Promise Error (list LinkCount) * list Invocation :=
  if decide (mergeMode this = "fetchAll")
  then fetchSequentially this (linkTypesOfRequest elementId) mergeLinkTypesOf
  else
    let '(promise, made) := queueProcessResults (linkTypesOf_callBack elementId) this () in
    (then_ promise mergeLinkTypesOf, made).

(** [Object.keys(d).length] *)
Definition keys_length {A : Type} (d : Dictionary A) : nat := length (map_to_list d).

Definition linkElements_callBack (params : LinkElementsParams)
    : CallBack (Dictionary ElementModel) unit :=
  λ previousResult dp captured,
    if match previousResult with
       | None => true
       | Some previous => (keys_length previous =? 0)%nat
       end
    then let '(promise, made) := invoke dp (linkElementsRequest params) in
         (captured, Some promise, made)
    else (captured, None, []).

Definition linkElements (this : CompositeDataProvider) (params : LinkElementsParams)
    : Promise Error (Dictionary ElementModel) * list Invocation :=
  if decide (mergeMode this = "fetchAll")
  then fetchSequentially this (linkElementsRequest params) mergeLinkElements
  else
    let '(promise, made) := queueProcessResults (linkElements_callBack params) this () in
    (then_ promise mergeLinkElements, made).

Definition filter_callBack (params : FilterParams)
    : CallBack (Dictionary ElementModel) unit :=
  λ previousResult dp captured,
    if match previousResult with
       | None => true
       | Some previous => (keys_length previous =? 0)%nat
       end
    then let '(promise, made) := invoke dp (filterRequest params) in
         (captured, Some promise, made)
    else (captured, None, []).

Definition filter (this : CompositeDataProvider) (params : FilterParams)
    : Promise Error (Dictionary ElementModel) * list Invocation :=
  if decide (mergeMode this = "fetchAll")
  then fetchSequentially this (filterRequest params) mergeFilter
  else
    let '(promise, made) := queueProcessResults (filter_callBack params) this () in
    (then_ promise mergeFilter, made).
End Methods.

(** ** Vocabulary for the statements *)

Section Vocabulary.
Context `{Model}.

(** The response a settled promise carries, [undefined] for a rejection. *)
Definition responseOf {A : Type} (p : Promise Error A) : option A :=
  match p with Resolved v => Some v | Rejected _ => None end.

(** The tagged result of provider [dp] for [req] when every provider is
    asked: its response, or [undefined] when its call rejects. *)
Definition tagged (req : Request) (dp : DPDefinition) : CompositeResponse (Response req) :=
  {| dataSourceName := name dp;
     response := responseOf (perform (dataProvider dp) req) |}.

(** [fetchSequentially] with the order in which the calls complete made
    explicit: [completion] lists the positions of the providers in the
    order their promises settle. *)
Definition fetchSequentially_timed {U : Type} (this : CompositeDataProvider)
    (req : Request) (mergeFunction : list (CompositeResponse (Response req)) → U)
    (completion : list nat) : option (Promise Error U) :=
  let resultPromises :=
    (λ dp, processResults (perform (dataProvider dp) req) (name dp))
      <$> dataProviders this in
  (λ all, then_ all mergeFunction) <$> Promise_all_timed resultPromises completion.

(** The common shape of the eight callbacks given to
    [queueProcessResults]: update the captured variable ([step]), decide
    whether to ask the provider ([go]), and ask it ([request]).  [answer]
    is the identity in every instance; it only records that the response
    type of the request is the response type of the callback. *)
Definition shapedCallBack {R S : Type}
    (step : option R → S → S) (go : option R → S → bool) (request : S → Request)
    (answer : ∀ s, Promise Error (Response (request s)) → Promise Error R)
    : CallBack R S :=
  λ previousResult dp s,
    let s := step previousResult s in
    if go previousResult s
    then let '(promise, made) := invoke dp (request s) in
         (s, Some (answer s promise), made)
    else (s, None, []).

(** The calls a run of [queueProcessResults] with a callback of that shape
    makes, each with the value of the captured variable it was made with;
    [rest], [result] and [s] are as in [recursiveCall]. *)
Fixpoint callsMade {R S : Type}
    (step : option R → S → S) (go : option R → S → bool) (request : S → Request)
    (answer : ∀ s, Promise Error (Response (request s)) → Promise Error R)
    (rest : list DPDefinition) (result : option R) (s : S) : list (DPDefinition * S) :=
  match rest with
  | [] => []
  | dp :: rest' =>
      let s := step result s in
      if go result s
      then (dp, s) ::
           match answer s (perform (dataProvider dp) (request s)) with
           | Resolved newResult =>
               callsMade step go request answer rest' (Some newResult) s
           | Rejected _ => callsMade step go request answer rest' result s
           end
      else []
  end.

(** The ids a callback of a narrowing method keeps, given the test [keep]
    it applies to the previous result. *)
Definition narrowStep {R : Type} (keep : R → string → bool)
    (previousResult : option R) (ids : list string) : list string :=
  List.filter
    (λ id, match previousResult with
           | None => true
           | Some previous => keep previous id
           end)
    ids.

Definition narrowGo {R : Type} (previousResult : option R) (ids : list string) : bool :=
  (0 <? length ids)%nat.

(** The test of the callback of a found-or-empty method. *)
Definition binaryGo {R : Type} (isEmpty : R → bool)
    (previousResult : option R) (captured : unit) : bool :=
  match previousResult with
  | None => true
  | Some previous => isEmpty previous
  end.

(** The requested ids no tagged result of [earlier] resolves. *)
Definition remainingAfter {R : Type} (keep : R → string → bool)
    (requested : list string) (earlier : list (CompositeResponse R)) : list string :=
  List.filter
    (λ id, forallb (λ entry, match response entry with
                             | Some r => keep r id
                             | None => true
                             end) earlier)
    requested.

(** Every tagged result of [earlier] is empty. *)
Definition allEmpty {R : Type} (isEmpty : R → bool)
    (earlier : list (CompositeResponse R)) : bool :=
  forallb (λ entry, match response entry with
                    | Some r => isEmpty r
                    | None => true
                    end) earlier.

(** What one more provider [dp], registered last, adds to the outcome
    [earlier] of [queueProcessResults] when it is asked [req]: one call,
    and one tagged result when the call resolves. *)
Definition asked {R : Type} (dp : DPDefinition) (req : Request)
    (answer : Promise Error (Response req) → Promise Error R)
    (responses : list (CompositeResponse R)) (made : list Invocation)
    : Promise Error (list (CompositeResponse R)) * list Invocation :=
  match answer (perform (dataProvider dp) req) with
  | Resolved r =>
      (Resolved (responses ++ [{| dataSourceName := name dp; response := Some r |}]),
       made ++ [{| calledProvider := dp; calledWith := req |}])
  | Rejected _ =>
      (Resolved responses, made ++ [{| calledProvider := dp; calledWith := req |}])
  end.

(** A narrowing callback asks the provider registered last for exactly
    the requested ids that the results of the providers before it do not
    resolve, and does not ask it when there is none. *)
Definition NarrowsRequests {R : Type} (callBack : CallBack R (list string))
    (keep : R → string → bool) (request : list string → Request)
    (answer : ∀ ids, Promise Error (Response (request ids)) → Promise Error R) : Prop :=
  ∀ (dps : list DPDefinition) (dp : DPDefinition) (mode : string)
    (requested : list string),
    ∃ responses made,
      queueProcessResults callBack {| dataProviders := dps; mergeMode := mode |} requested
      = (Resolved responses, made) ∧
      queueProcessResults callBack
        {| dataProviders := dps ++ [dp]; mergeMode := mode |} requested
      = let remaining := remainingAfter keep requested responses in
        if decide (remaining = [])
        then (Resolved responses, made)
        else asked dp (request remaining) (answer remaining) responses made.

(** A found-or-empty callback asks the provider registered last exactly
    when every result of the providers before it is empty. *)
Definition AsksWhileEmpty {R : Type} (callBack : CallBack R unit)
    (isEmpty : R → bool) (req : Request)
    (answer : Promise Error (Response req) → Promise Error R) : Prop :=
  ∀ (dps : list DPDefinition) (dp : DPDefinition) (mode : string),
    ∃ responses made,
      queueProcessResults callBack {| dataProviders := dps; mergeMode := mode |} ()
      = (Resolved responses, made) ∧
      queueProcessResults callBack {| dataProviders := dps ++ [dp]; mergeMode := mode |} ()
      = if allEmpty isEmpty responses
        then asked dp req answer responses made
        else (Resolved responses, made).

(** Once a provider has resolved with a result that is not empty, the
    providers registered after it change nothing: they are not asked. *)
Definition FirstFoundWins {R : Type} (callBack : CallBack R unit)
    (isEmpty : R → bool) (req : Request)
    (answer : Promise Error (Response req) → Promise Error R) : Prop :=
  ∀ (dps : list DPDefinition) (dp : DPDefinition) (later later' : list DPDefinition)
    (mode : string) (r : R),
    answer (perform (dataProvider dp) req) = Resolved r →
    isEmpty r = false →
    queueProcessResults callBack
      {| dataProviders := dps ++ dp :: later; mergeMode := mode |} ()
    = queueProcessResults callBack
        {| dataProviders := dps ++ dp :: later'; mergeMode := mode |} ().

(** The tagged result of one call a callback made, when it resolved. *)
Definition entryOf {R S : Type} (request : S → Request)
    (answer : ∀ s, Promise Error (Response (request s)) → Promise Error R)
    (call : DPDefinition * S) : option (CompositeResponse R) :=
  match answer call.2 (perform (dataProvider call.1) (request call.2)) with
  | Resolved r => Some {| dataSourceName := name call.1; response := Some r |}
  | Rejected _ => None
  end.

(** With a merge mode other than ['fetchAll'] the method [op] is
    [queueProcessResults] with [callBack], followed by its merge function. *)
Definition SequentialMethod {R S U : Type}
    (op : CompositeDataProvider → S → Promise Error U * list Invocation)
    (mergeFunction : list (CompositeResponse R) → U) (callBack : CallBack R S) : Prop :=
  ∀ (this : CompositeDataProvider) (captured : S),
    mergeMode this ≠ "fetchAll" →
    op this captured
    = let '(promise, made) := queueProcessResults callBack this captured in
      (then_ promise mergeFunction, made).

(** Under [sequentialFetching] the list the method [op] gives to its
    merge function has one entry for each call that was made and resolved,
    each with the response of that call, in the order of the calls, which
    is the order of registration; nothing else is in it. *)
Definition OneEntryPerResolvedCall {R S U : Type}
    (op : CompositeDataProvider → S → Promise Error U * list Invocation)
    (mergeFunction : list (CompositeResponse R) → U) (request : S → Request)
    (answer : ∀ s, Promise Error (Response (request s)) → Promise Error R) : Prop :=
  ∀ (this : CompositeDataProvider) (captured : S),
    mergeMode this ≠ "fetchAll" →
    ∃ callsMade : list (DPDefinition * S),
      sublist (fst <$> callsMade) (dataProviders this) ∧
      Forall (λ entry, is_Some (response entry))
        (omap (entryOf request answer) callsMade) ∧
      op this captured
      = (Resolved (mergeFunction (omap (entryOf request answer) callsMade)),
         (λ call, {| calledProvider := call.1; calledWith := request call.2 |})
           <$> callsMade).

(** A provider whose calls reject leaves no trace in the list given to the
    merge function: the list is the one of the registry without it, and
    the other providers are asked the same. *)
Definition RejectingIsAbsent {R S : Type} (callBack : CallBack R S)
    (request : S → Request)
    (answer : ∀ s, Promise Error (Response (request s)) → Promise Error R) : Prop :=
  ∀ (before : list DPDefinition) (dp : DPDefinition) (after : list DPDefinition)
    (mode : string) (captured : S),
    (∀ s, responseOf (answer s (perform (dataProvider dp) (request s))) = None) →
    ∃ responses made1 made made2,
      queueProcessResults callBack
        {| dataProviders := before ++ dp :: after; mergeMode := mode |} captured
      = (Resolved responses, made1 ++ made ++ made2) ∧
      queueProcessResults callBack
        {| dataProviders := before ++ after; mergeMode := mode |} captured
      = (Resolved responses, made1 ++ made2) ∧
      (made = [] ∨ ∃ s, made = [{| calledProvider := dp; calledWith := request s |}]).
End Vocabulary.

(** ** The composite provider as a provider, and a sequence of calls *)

Section Dispatch.
Context `{Model} `{!MergeUtils}.

(** The merge function of each method. *)
Definition mergeFor (req : Request)
    : list (CompositeResponse (Response req)) → Response req :=
  match req with
  | classTreeRequest => mergeClassTree
  | propertyInfoRequest _ => mergePropertyInfo
  | classInfoRequest _ => mergeClassInfo
  | linkTypesInfoRequest _ => mergeLinkTypesInfo
  | linkTypesRequest => mergeLinkTypes
  | elementInfoRequest _ => mergeElementInfo
  | linksInfoRequest _ _ => mergeLinksInfo
  | linkTypesOfRequest _ => mergeLinkTypesOf
  | linkElementsRequest _ => mergeLinkElements
  | filterRequest _ => mergeFilter
  end.

(** [CompositeDataProvider implements DataProvider]: the call of one of
    its methods. *)
Definition callMethod (this : CompositeDataProvider) (req : Request)
    : Promise Error (Response req) * list Invocation :=
  match req with
  | classTreeRequest => classTree this
  | propertyInfoRequest propertyIds => propertyInfo this propertyIds
  | classInfoRequest classIds => classInfo this classIds
  | linkTypesInfoRequest linkTypeIds => linkTypesInfo this linkTypeIds
  | linkTypesRequest => linkTypes this
  | elementInfoRequest elementIds => elementInfo this elementIds
  | linksInfoRequest elementIds linkTypeIds => linksInfo this elementIds linkTypeIds
  | linkTypesOfRequest elementId => linkTypesOf this elementId
  | linkElementsRequest params => linkElements this params
  | filterRequest params => filter this params
  end.

(** The eight methods that look at the merge mode, each with its merge
    function and its callback. *)
Definition MethodsAreQueues : Prop :=
  SequentialMethod propertyInfo mergePropertyInfo propertyInfo_callBack
  ∧ SequentialMethod classInfo mergeClassInfo classInfo_callBack
  ∧ SequentialMethod linkTypesInfo mergeLinkTypesInfo linkTypesInfo_callBack
  ∧ SequentialMethod elementInfo mergeElementInfo elementInfo_callBack
  ∧ (∀ linkTypeIds,
       SequentialMethod (λ this elementIds, linksInfo this elementIds linkTypeIds)
         mergeLinksInfo (linksInfo_callBack linkTypeIds))
  ∧ (∀ elementId,
       SequentialMethod (λ this (_ : unit), linkTypesOf this elementId)
         mergeLinkTypesOf (linkTypesOf_callBack elementId))
  ∧ (∀ params,
       SequentialMethod (λ this (_ : unit), linkElements this params)
         mergeLinkElements (linkElements_callBack params))
  ∧ (∀ params,
       SequentialMethod (λ this (_ : unit), filter this params)
         mergeFilter (filter_callBack params)).

(** The number of bare providers among the first [i] arguments of the
    constructor. *)
Definition bareBefore (dataProviders : list ProviderOrDefinition) (i : nat) : nat :=
  length (List.filter (λ dp, negb (isDefenition dp)) (take i dataProviders)).

(** ** Ids resolved by a previous result *)

Definition resolvedByDictionary {A : Type} (previous : Dictionary A) (id : string) : bool :=
  bool_decide (id ∈ dom previous).

Definition resolvedByClasses (previous : list ClassModel) (id : string) : bool :=
  bool_decide (id ∈ ClassModel_id <$> previous).

Definition resolvedByLinkTypes (previous : list LinkType) (id : string) : bool :=
  bool_decide (id ∈ LinkType_id <$> previous).

Definition resolvedByLinks (previous : list LinkModel) (id : string) : bool :=
  bool_decide (id ∈ LinkModel_sourceId <$> previous).
End Dispatch.

(** ** Merging dictionaries *)

(** Modelled from the spec: the merge functions of [./mergeUtils] for
    dictionary-shaped results ([mergePropertyInfo], [mergeElementInfo],
    [mergeLinkElements], [mergeFilter]), whose file is not at hand.  The
    tagged results are taken in their order; an absent payload contributes
    nothing; a key that an earlier payload already produced keeps its
    earlier member ([merged ∪ payload] keeps the member of [merged] where
    both have one). *)
Definition mergeDictionaries {T : Type}
    (responses : list (CompositeResponse (Dictionary T))) : Dictionary T :=
  foldl (λ merged entry,
           match response entry with
           | Some payload => merged ∪ payload
           | None => merged
           end)
        ∅ responses.

(** The first-registered provider wins for [op], a method with a dictionary
    as its result, when every provider is asked: the member of the merged
    dictionary for [key] is the one of the first provider, in the order of
    registration, whose payload ([produced]) has [key]. *)
Definition FirstRegisteredWins `{Model} {T : Type}
    (op : CompositeDataProvider → Promise Error (Dictionary T) * list Invocation)
    (produced : DPDefinition → option (Dictionary T)) : Prop :=
  ∀ (dps : list DPDefinition) (i : nat) (dp : DPDefinition) (payload : Dictionary T)
    (key : string) (value : T),
    dps !! i = Some dp →
    produced dp = Some payload →
    payload !! key = Some value →
    (∀ j earlier p, j < i → dps !! j = Some earlier →
                    produced earlier = Some p → p !! key = None) →
    ∃ merged,
      (op {| dataProviders := dps; mergeMode := "fetchAll" |}).1 = Resolved merged ∧
      merged !! key = Some value.

(** ** Example providers *)

Section Examples.
(** Records reduced to what the composite provider reads: a class, a link
    type, a link count and a property are their ids, an element is its
    label, a link is its source and its target, the parameters of
    [filter] are the text searched for. *)
Definition exampleModel : Model := {|
  Error := string;
  ClassModel := string;
  LinkType := string;
  ElementModel := string;
  LinkModel := string * string;
  LinkCount := string;
  PropertyModel := string;
  FilterParams := string;
  ClassModel_id := λ cm, cm;
  LinkType_id := λ lt, lt;
  LinkModel_sourceId := fst;
|}.

Local Existing Instance exampleModel.

(** A provider that cannot be reached: every call rejects. *)
Definition unreachable : DataProvider := {|
  provider_classTree := Rejected "unreachable";
  provider_propertyInfo := λ _, Rejected "unreachable";
  provider_classInfo := λ _, Rejected "unreachable";
  provider_linkTypesInfo := λ _, Rejected "unreachable";
  provider_linkTypes := Rejected "unreachable";
  provider_elementInfo := λ _, Rejected "unreachable";
  provider_linksInfo := λ _ _, Rejected "unreachable";
  provider_linkTypesOf := λ _, Rejected "unreachable";
  provider_linkElements := λ _, Rejected "unreachable";
  provider_filter := λ _, Rejected "unreachable";
|}.

(** A provider that knows the members of [known] and answers a request
    for ids with those it knows, the other requests with all it knows. *)
Definition knowing (known : list (string * string)) : DataProvider :=
  let answerFor (ids : list string) : Dictionary string :=
    list_to_map (List.filter (λ member, bool_decide (member.1 ∈ ids)) known) in
  {|
    provider_classTree := Resolved known.*1;
    provider_propertyInfo := λ ids, Resolved (answerFor ids);
    provider_classInfo :=
      λ ids, Resolved (List.filter (λ id, bool_decide (id ∈ ids)) known.*1);
    provider_linkTypesInfo :=
      λ ids, Resolved (List.filter (λ id, bool_decide (id ∈ ids)) known.*1);
    provider_linkTypes := Resolved known.*1;
    provider_elementInfo := λ ids, Resolved (answerFor ids);
    provider_linksInfo :=
      λ ids _, Resolved (List.filter (λ link, bool_decide (link.1 ∈ ids)) known);
    provider_linkTypesOf := λ _, Resolved known.*1;
    provider_linkElements := λ _, Resolved (list_to_map known);
    provider_filter := λ _, Resolved (list_to_map known);
  |}.

(** Merge functions for the examples: dictionaries by [mergeDictionaries],
    lists by concatenation of the payloads that are present. *)
Definition concatenate {T : Type} (responses : list (CompositeResponse (list T)))
    : list T :=
  mjoin (omap response responses).

Definition exampleMerge : MergeUtils := {|
  mergeClassTree := concatenate;
  mergePropertyInfo := mergeDictionaries;
  mergeClassInfo := concatenate;
  mergeLinkTypesInfo := concatenate;
  mergeLinkTypes := concatenate;
  mergeElementInfo := mergeDictionaries;
  mergeLinksInfo := concatenate;
  mergeLinkTypesOf := concatenate;
  mergeLinkElements := mergeDictionaries;
  mergeFilter := mergeDictionaries;
|}.

Definition providerA : DPDefinition :=
  {| name := "A"; dataProvider := knowing [("1", "one of A"); ("2", "two of A")] |}.
Definition providerB : DPDefinition :=
  {| name := "B"; dataProvider := knowing [("2", "two of B"); ("3", "three of B")] |}.
Definition providerAll : DPDefinition :=
  {| name := "A"; dataProvider :=
       knowing [("1", "one of A"); ("2", "two of A"); ("3", "three of A")] |}.
Definition providerDown : DPDefinition :=
  {| name := "down"; dataProvider := unreachable |}.
Definition providerNone : DPDefinition :=
  {| name := "none"; dataProvider := knowing [] |}.

Definition sequential (dps : list DPDefinition) : CompositeDataProvider :=
  {| dataProviders := dps; mergeMode := "sequentialFetching" |}.
Definition fetchingAll (dps : list DPDefinition) : CompositeDataProvider :=
  {| dataProviders := dps; mergeMode := "fetchAll" |}.
End Examples.

(** ** Parameter objects and their identity

    The methods above take their parameters as values.  Here the parameter
    objects are cells of a heap, so that it can be told which object a
    provider is handed and what a provider that writes to its parameters
    changes.  A provider is reduced to the one method that is called;
    responses stay values. *)

Module Objects.

Inductive Value : Type :=
| undefined
| number (n : Z)
| text (s : string)
| reference (address : nat).

(** A cell of the heap: an array of strings, or an object with fields. *)
Inductive Cell : Type :=
| array (elements : list string)
| object (fields : gmap string Value).

(** What a provider can do to the cells it reaches: change the elements of
    an array or assign a field of an object. *)
Inductive Write : Type :=
| setElements (address : nat) (elements : list string)
| setField (address : nat) (field : string) (value : Value).

Definition target (w : Write) : nat :=
  match w with
  | setElements address _ => address
  | setField address _ _ => address
  end.

Definition write1 (heap : list Cell) (w : Write) : list Cell :=
  match w with
  | setElements address elements =>
      match heap !! address with
      | Some (array _) => <[address := array elements]> heap
      | _ => heap
      end
  | setField address field value =>
      match heap !! address with
      | Some (object fields) => <[address := object (<[field := value]> fields)]> heap
      | _ => heap
      end
  end.

Definition write (heap : list Cell) (writes : list Write) : list Cell :=
  foldl write1 heap writes.

(** The elements of the array at [address], the fields of the object at
    [address]. *)
Definition elementsAt (heap : list Cell) (address : nat) : list string :=
  match heap !! address with
  | Some (array elements) => elements
  | _ => []
  end.

Definition fieldsAt (heap : list Cell) (address : nat) : gmap string Value :=
  match heap !! address with
  | Some (object fields) => fields
  | _ => ∅
  end.

Section Methods.
Context `{Model} {R : Type}.

(** The method of a provider that a method of the composite provider calls:
    given the address of its parameter object and the heap, the writes it
    makes and the promise it returns. *)
Record Provider : Type := {
  providerName : string;
  method : nat → list Cell → list Write * Promise Error R;
}.

(** One call: the provider, the address of the object it was handed, and
    the writes it made. *)
Record Call : Type := {
  calledProvider : string;
  passed : nat;
  wrote : list Write;
}.

(** The call [dp.dataProvider.method(params)]. *)
Definition invoke (dp : Provider) (params : nat) (heap : list Cell)
    : list Cell * Promise Error R * Call :=
  let '(writes, promise) := method dp params heap in
  (write heap writes, promise,
   {| calledProvider := providerName dp; passed := params; wrote := writes |}).

(** [this.dataProviders.map(dp => this.processResults(
    dp.dataProvider[functionName].call(dp.dataProvider, params), dp.name))]:
    the calls are made one after the other, in the order of the array, all
    with the same [params]. *)
Fixpoint mapProviders (dps : list Provider) (params : nat) (heap : list Cell)
    : list Cell * list (Promise Error (CompositeResponse R)) * list Call :=
  match dps with
  | [] => (heap, [], [])
  | dp :: rest =>
      let '(heap, promise, call) := invoke dp params heap in
      let '(heap, resultPromises, calls) := mapProviders rest params heap in
      (heap, processResults promise (providerName dp) :: resultPromises, call :: calls)
  end.

Definition fetchSequentially {U : Type} (dps : list Provider)
    (mergeFunction : list (CompositeResponse R) → U) (params : nat) (heap : list Cell)
    : list Cell * Promise Error U * list Call :=
  let '(heap, resultPromises, calls) := mapProviders dps params heap in
  (heap, then_ (Promise_all resultPromises) mergeFunction, calls).

(** The variables of one [queueProcessResults] call, with the heap. *)
Record Queue (S : Type) : Type := {
  responseList : list (CompositeResponse R);
  closure : S;
  cells : list Cell;
  calls : list Call;
}.
Global Arguments responseList {S} _.
Global Arguments closure {S} _.
Global Arguments cells {S} _.
Global Arguments calls {S} _.

Definition CallBack (S : Type) : Type :=
  option R → Provider → S → list Cell → S * list Cell * option (Promise Error R * Call).

Fixpoint recursiveCall {S : Type} (callBack : CallBack S) (rest : list Provider)
    (result : option R) (q : Queue S)
    : Promise Error (list (CompositeResponse R)) * Queue S :=
  match rest with
  | dp :: rest' =>
      let '(s, heap, callBackResult) := callBack result dp (closure q) (cells q) in
      match callBackResult with
      | None =>
          (Resolved (responseList q),
           {| responseList := responseList q; closure := s; cells := heap;
              calls := calls q |})
      | Some (Resolved newResult, call) =>
          recursiveCall callBack rest' (Some newResult)
            {| responseList :=
                 responseList q
                 ++ [{| dataSourceName := providerName dp; response := Some newResult |}];
               closure := s; cells := heap; calls := calls q ++ [call] |}
      | Some (Rejected error, call) =>
          recursiveCall callBack rest' result
            {| responseList := responseList q; closure := s; cells := heap;
               calls := calls q ++ [call] |}
      end
  | [] => (Resolved (responseList q), q)
  end.

Definition queueProcessResults {S : Type} (callBack : CallBack S) (dps : list Provider)
    (captured : S) (heap : list Cell)
    : list Cell * Promise Error (list (CompositeResponse R)) * list Call :=
  let '(promise, q) :=
    recursiveCall callBack dps None
      {| responseList := []; closure := captured; cells := heap; calls := [] |} in
  (cells q, promise, calls q).

(** The callback of a narrowing method.  [ids] is the variable it captured
    ([propertyIds], [classIds], ...): the address of an array.
    [ids.filter(...)] makes a new array, [{field: ids, ...}] a new object;
    [others] are the fields whose value is taken from [params] as it is
    ([linkTypeIds] for [linksInfo]). *)
Definition narrowing_callBack (field : string) (others : list string)
    (keep : R → string → bool) (params : nat) : CallBack nat :=
  λ previousResult dp ids heap,
    let filtered :=
      List.filter
        (λ id, match previousResult with
               | None => true
               | Some previous => keep previous id
               end)
        (elementsAt heap ids) in
    let ids := length heap in
    let heap := heap ++ [array filtered] in
    if (0 <? length filtered)%nat
    then
      let request := length heap in
      let fields :=
        foldr (λ other fields,
                 <[other := default undefined (fieldsAt heap params !! other)]> fields)
              {[field := reference ids]} others in
      let heap := heap ++ [object fields] in
      let '(heap, promise, call) := invoke dp request heap in
      (ids, heap, Some (promise, call))
    else (ids, heap, None).

(** A narrowing method: [fetchSequentially] with the caller's object for the
    merge mode ['fetchAll'], [queueProcessResults] otherwise.  [None] when
    [params] is not an object whose [field] is an array (the first
    [ids.filter] then throws before any provider is called). *)
Definition narrowingMethod {U : Type} (field : string) (others : list string)
    (keep : R → string → bool) (mergeFunction : list (CompositeResponse R) → U)
    (mergeMode : string) (dps : list Provider) (params : nat) (heap : list Cell)
    : option (list Cell * Promise Error U * list Call) :=
  if decide (mergeMode = "fetchAll")
  then Some (fetchSequentially dps mergeFunction params heap)
  else
    match fieldsAt heap params !! field with
    | Some (reference ids) =>
        match heap !! ids with
        | Some (array _) =>
            let '(heap, promise, calls) :=
              queueProcessResults (narrowing_callBack field others keep params)
                dps ids heap in
            Some (heap, then_ promise mergeFunction, calls)
        | _ => None
        end
    | _ => None
    end.

(** The callback of a found-or-empty method hands [params] itself on. *)
Definition binary_callBack (isEmpty : R → bool) (params : nat) : CallBack unit :=
  λ previousResult dp captured heap,
    if match previousResult with
       | None => true
       | Some previous => isEmpty previous
       end
    then let '(heap, promise, call) := invoke dp params heap in
         (captured, heap, Some (promise, call))
    else (captured, heap, None).

Definition binaryMethod {U : Type} (isEmpty : R → bool)
    (mergeFunction : list (CompositeResponse R) → U)
    (mergeMode : string) (dps : list Provider) (params : nat) (heap : list Cell)
    : list Cell * Promise Error U * list Call :=
  if decide (mergeMode = "fetchAll")
  then fetchSequentially dps mergeFunction params heap
  else
    let '(heap, promise, calls) :=
      queueProcessResults (binary_callBack isEmpty params) dps () heap in
    (heap, then_ promise mergeFunction, calls).

(** A cell that no call wrote to is as it was. *)
Definition untouched (before after : list Cell) (calls : list Call) : Prop :=
  ∀ address cell,
    before !! address = Some cell →
    (∀ call, call ∈ calls → address ∉ target <$> wrote call) →
    after !! address = Some cell.

(** What a callback may do: the heap only grows, and a cell is changed only
    by the call made; [handed] says which address a call may be handed,
    given the size of the heap before and after the callback. *)
Definition behaved {S : Type} (handed : nat → nat → nat → Prop)
    (callBack : CallBack S) : Prop :=
  ∀ previousResult dp s heap s' heap' callBackResult,
    callBack previousResult dp s heap = (s', heap', callBackResult) →
    length heap ≤ length heap'
    ∧ match callBackResult with
      | Some (_, call) =>
          handed (length heap) (length heap') (passed call)
          ∧ untouched heap heap' [call]
      | None => untouched heap heap' []
      end.
End Methods.

(** *** Two providers for [filter] *)

(** The part of [SparqlDataProvider.filter] that touches its parameters:
    [if (params.limit === 0) { params.limit = 100; }].  What the query then
    answers is left out: the promise resolves with the limit used. *)
Definition sparqlFilter (params : nat) (heap : list Cell)
    : list Write * Promise (@Error exampleModel) (option Value) :=
  match fieldsAt heap params !! "limit" with
  | Some (number 0) => ([setField params "limit" (number 100)], Resolved (Some (number 100)))
  | limit => ([], Resolved limit)
  end.

(** A provider that writes nothing and resolves with the limit it is given. *)
Definition readingFilter (params : nat) (heap : list Cell)
    : list Write * Promise (@Error exampleModel) (option Value) :=
  ([], Resolved (fieldsAt heap params !! "limit")).

Definition sparqlProvider : Provider (H := exampleModel) :=
  {| providerName := "SPARQL"; method := sparqlFilter |}.
Definition rdfProvider : Provider (H := exampleModel) :=
  {| providerName := "RDF"; method := readingFilter |}.

(** The parameters [{limit: 0, offset: 0}] of a call of [filter], at
    address 0. *)
Definition filterHeap : list Cell :=
  [object {["limit" := number 0; "offset" := number 0]}].

(** A provider for [propertyInfo] that writes nothing and resolves with the
    ids it knows among those asked for. *)
Definition knowingIds (known : list string) : Provider (H := exampleModel) :=
  {| providerName := "knowing";
     method := λ params heap,
       ([], Resolved
              (List.filter (λ id, bool_decide (id ∈ known))
                 (match fieldsAt heap params !! "propertyIds" with
                  | Some (reference ids) => elementsAt heap ids
                  | _ => []
                  end))) |}.

(** The parameters [{propertyIds: ["p1", "p2"]}] of a call of
    [propertyInfo], at address 0. *)
Definition propertyHeap : list Cell :=
  [object {["propertyIds" := reference 1]}; array ["p1"; "p2"]].

(** [mergeFilter] for the example: the payloads that are present, in the
    order of the tagged results. *)
Definition limitsSeen (responses : list (CompositeResponse (option Value)))
    : list (string * option Value) :=
  omap (λ entry, (λ seen, (dataSourceName entry, seen)) <$> response entry) responses.

End Objects.

(** ** More vocabulary: what the methods do under [sequentialFetching] *)

Section MoreVocabulary.
Context `{Model}.

(** The call recorded for a call [(dp, s)] of a callback. *)
Definition invocationOf {S : Type} (request : S → Request) (call : DPDefinition * S)
    : Invocation :=
  {| calledProvider := call.1; calledWith := request call.2 |}.

(** The providers are asked one after the other from the first one on,
    none is left out before the last one asked. *)
Definition AsksAPrefix {S U : Type}
    (op : CompositeDataProvider → S → Promise Error U * list Invocation) : Prop :=
  ∀ (this : CompositeDataProvider) (captured : S),
    mergeMode this ≠ "fetchAll" →
    calledProvider <$> (op this captured).2
    = take (length (op this captured).2) (dataProviders this).

(** Every call of a narrowing method asks for ids that were requested, in
    the order they were requested, and for at least one; a later call asks
    for no id that an earlier call did not ask for. *)
Definition RequestsShrink {U : Type}
    (op : CompositeDataProvider → list string → Promise Error U * list Invocation)
    (request : list string → Request) : Prop :=
  ∀ (this : CompositeDataProvider) (requested : list string),
    mergeMode this ≠ "fetchAll" →
    ∃ callsMade : list (DPDefinition * list string),
      (op this requested).2 = invocationOf request <$> callsMade
      ∧ Forall (λ call, call.2 ≠ [] ∧ sublist call.2 requested) callsMade
      ∧ (∀ i j a b, i < j → callsMade !! i = Some a → callsMade !! j = Some b →
                    sublist b.2 a.2).

(** A narrowing method asked for no id asks no provider. *)
Definition NothingRequested {R U : Type}
    (op : CompositeDataProvider → list string → Promise Error U * list Invocation)
    (mergeFunction : list (CompositeResponse R) → U) : Prop :=
  ∀ (this : CompositeDataProvider),
    mergeMode this ≠ "fetchAll" →
    op this [] = (Resolved (mergeFunction []), []).

(** When the calls of every provider reject, every provider is asked, each
    for all that was requested, and the merge function is given no result.
    [nonempty] says whether something is requested at all. *)
Definition AllRejecting {R S U : Type}
    (op : CompositeDataProvider → S → Promise Error U * list Invocation)
    (mergeFunction : list (CompositeResponse R) → U) (request : S → Request)
    (answer : ∀ s, Promise Error (Response (request s)) → Promise Error R)
    (nonempty : S → Prop) : Prop :=
  ∀ (this : CompositeDataProvider) (captured : S),
    mergeMode this ≠ "fetchAll" →
    nonempty captured →
    (∀ dp s, dp ∈ dataProviders this →
             responseOf (answer s (perform (dataProvider dp) (request s))) = None) →
    op this captured
    = (Resolved (mergeFunction []), callAll (dataProviders this) (request captured)).

(** The list a found-or-empty method gives to its merge function has at
    most one result that is not empty, and it is the last one. *)
Definition OneFound {R U : Type}
    (op : CompositeDataProvider → unit → Promise Error U * list Invocation)
    (mergeFunction : list (CompositeResponse R) → U) (callBack : CallBack R unit)
    (isEmpty : R → bool) : Prop :=
  ∀ (this : CompositeDataProvider),
    mergeMode this ≠ "fetchAll" →
    ∃ responses made,
      queueProcessResults callBack this () = (Resolved responses, made)
      ∧ op this () = (Resolved (mergeFunction responses), made)
      ∧ (∀ i entry, S i < length responses → responses !! i = Some entry →
                    ∃ r, response entry = Some r ∧ isEmpty r = true).

(** The names the constructor gave to two different bare providers of its
    list are different. *)
Definition GeneratedNamesDiffer (providers : list ProviderOrDefinition)
    (this : CompositeDataProvider) : Prop :=
  ∀ i j p q dp dq,
    i ≠ j →
    providers !! i = Some (bareProvider p) →
    providers !! j = Some (bareProvider q) →
    dataProviders this !! i = Some dp →
    dataProviders this !! j = Some dq →
    name dp ≠ name dq.
End MoreVocabulary.

(** * Localized labels

    [chooseLocalizedText] and [formatLocalizedLabel] of
    [src/ontodia/diagram/model.ts]. *)

Module DiagramModel.
Record LocalizedString : Type := {
  text : string;
  lang : string;
}.

(** The loop of [chooseLocalizedText] over the texts that are left, with
    the variables [defaultValue] and [englishValue]: the text the loop
    returns, or the two variables when the loop ends. *)
Fixpoint chooseLoop (language : string) (texts : list LocalizedString)
    (defaultValue englishValue : option LocalizedString)
    : LocalizedString + option LocalizedString * option LocalizedString :=
  match texts with
  | [] => inr (defaultValue, englishValue)
  | text :: rest =>
      if decide (lang text = language) then inl text
      else if decide (lang text = "") then chooseLoop language rest (Some text) englishValue
      else if decide (lang text = "en") then chooseLoop language rest defaultValue (Some text)
      else chooseLoop language rest defaultValue englishValue
  end.

Definition chooseLocalizedText (texts : list LocalizedString) (language : string)
    : option LocalizedString :=
  if (length texts =? 0)%nat then None
  else
    match chooseLoop language texts None None with
    | inl text => Some text
    | inr (defaultValue, englishValue) =>
        match defaultValue with
        | Some text => Some text
        | None =>
            match englishValue with
            | Some text => Some text
            | None => texts !! 0
            end
        end
    end.

(** Reading [.text] of [undefined] is a [TypeError]. *)
Inductive Completion (A : Type) : Type :=
| Normal (value : A)
| TypeError.
Global Arguments Normal {A} value.
Global Arguments TypeError {A}.

(** [uri2name] is a function of [../data/utils]; it is a parameter here. *)
Definition formatLocalizedLabel (uri2name : string → string) (fallbackIri : string)
    (labels : list LocalizedString) (language : string) : Completion string :=
  if (0 <? length labels)%nat
  then match chooseLocalizedText labels language with
       | Some chosen => Normal (text chosen)
       | None => TypeError
       end
  else Normal (uri2name fallbackIri).

(** The last text in the language [language]. *)
Definition lastIn (language : string) (texts : list LocalizedString)
    : option LocalizedString :=
  last (List.filter (λ text, bool_decide (lang text = language)) texts).
End DiagramModel.

(** * Pieces of SPARQL queries

    [toRdfNode], [escapeIri] and [createRefQueryPart] of the SPARQL data
    provider.  A string is the list of its code units. *)

Module Sparql.
Inductive RdfNode : Type :=
| literal (value xml_lang : string)
| uri (value : string).

(** The double quote, the character of code 34. *)
Definition quote : Ascii.ascii := Ascii.ascii_of_nat 34.

Definition toRdfNode (entity : string) : RdfNode :=
  if (2 <=? String.length entity)%nat
     && bool_decide (String.get 0 entity = Some quote)
     && bool_decide (String.get (String.length entity - 1) entity = Some quote)
  then literal (String.substring 1 (String.length entity - 2) entity) ""
  else uri entity.

Definition escapeIri (iri : string) : string := "<" +:+ iri +:+ ">".

(** The parameters of [createRefQueryPart]; [filter] passes the fields of
    its own parameters, and any of them may be [undefined]. *)
Record RefParams : Type := {
  elementId : option string;
  linkId : option string;
  direction : option Direction;
}.

(** A string or [undefined] in a template. *)
Definition interpolated (value : option string) : string :=
  default "undefined" value.

(** Truthiness of a string or [undefined]. *)
Definition truthy (value : option string) : bool :=
  match value with
  | Some s => negb (String.eqb s "")
  | None => false
  end.

Definition createRefQueryPart (params : RefParams) : string :=
  let refQueryPart := "" in
  let refElementIRI := escapeIri (interpolated (elementId params)) in
  let refElementLinkIRI :=
    if truthy (linkId params)
    then Some (escapeIri (interpolated (linkId params)))
    else None in
  let noDirection := match direction params with None => true | Some _ => false end in
  let out := match direction params with Some dir_out => true | _ => false end in
  let in_ := match direction params with Some dir_in => true | _ => false end in
  let refQueryPart :=
    if truthy (elementId params) && truthy (linkId params)
    then
      let refQueryPart :=
        refQueryPart
        +:+ (if noDirection || out
             then "{ " +:+ refElementIRI +:+ " " +:+ interpolated refElementLinkIRI
                  +:+ " ?inst }"
             else "") in
      let refQueryPart := refQueryPart +:+ (if noDirection then " UNION " else "") in
      refQueryPart
      +:+ (if noDirection || in_
           then "{  ?inst " +:+ interpolated refElementLinkIRI +:+ " " +:+ refElementIRI
                +:+ " }"
           else "")
    else refQueryPart in
  let refQueryPart :=
    if truthy (elementId params) && negb (truthy (linkId params))
    then
      let refQueryPart :=
        refQueryPart
        +:+ (if noDirection || out
             then "{ " +:+ refElementIRI +:+ " ?link ?inst }"
             else "") in
      let refQueryPart := refQueryPart +:+ (if noDirection then " UNION " else "") in
      refQueryPart
      +:+ (if noDirection || in_
           then "{  ?inst ?link " +:+ refElementIRI +:+ " }"
           else "")
    else refQueryPart in
  refQueryPart.
End Sparql.

(** * Diagrams in the serialized form

    [convertToSerializedDiagram] of [src/ontodia/editor/serializedDiagram.ts]
    turns the layout data of the older format, a list of cells, into a
    serialized diagram.  The cells are values of any kind, as [JSON.parse]
    gives them: no object is part of two values.  The module is in strict
    mode, where creating a property of a primitive value is a [TypeError].

    [pick], of lodash, makes a new object of the properties of a cell but
    does not copy their values, so that the function changes the objects
    that are the source and the target of a link cell: the function returns,
    next to the diagram, the cells as they are after the call. *)

Module SerializedDiagram.
(** A number is a rational, as every number of a JSON text is. *)
#[warnings="-register-all"] Inductive Value : Type :=
| undefined
| null
| boolean (b : bool)
| number (q : QArith_base.Q)
| text (s : string)
| object (fields : gmap string Value)
| array (items : list Value) (fields : gmap string Value).

Inductive Completion (A : Type) : Type :=
| Normal (value : A)
| TypeError.
Global Arguments Normal {A} value.
Global Arguments TypeError {A}.

Record LayoutData : Type := {
  layout_type : string;
  elements : list (gmap string Value);
  links : list (gmap string Value);
}.

Record SerializedDiagram : Type := {
  context : string;
  diagram_type : string;
  layoutData : LayoutData;
  linkTypeOptions : Value;
}.

Definition serializedCellProperties : list string :=
  ["id"; "type";
   "size"; "angle"; "isExpanded"; "position"; "iri"; "group";
   "typeId"; "source"; "target"; "vertices"].

Definition diagramContextV1AsUrl : string := "https://ontodia.org/context/v1.json".

Definition emptyLayoutData : LayoutData :=
  {| layout_type := "Layout"; elements := []; links := [] |}.

Definition emptyDiagram : SerializedDiagram :=
  {| context := diagramContextV1AsUrl;
     diagram_type := "Diagram";
     layoutData := emptyLayoutData;
     linkTypeOptions := array [] ∅ |}.

(** [object[key]] for the properties [fields] of an object. *)
Definition get (key : string) (fields : gmap string Value) : Value :=
  default undefined (fields !! key).

(** The named properties of an object or of an array; a primitive value
    has none of its own. *)
Definition fieldsOf (value : Value) : option (gmap string Value) :=
  match value with
  | object fields => Some fields
  | array _ fields => Some fields
  | _ => None
  end.

(** [value.key] where it is read without an error: [undefined] for a
    property that is missing. *)
Definition property (key : string) (value : Value) : Value :=
  match fieldsOf value with
  | Some fields => get key fields
  | None => undefined
  end.

(** [pick(object, paths)]: a new object with the properties among [paths]
    that [object] has; a value that is no object has none of them. *)
Definition pick (object : Value) (paths : list string) : gmap string Value :=
  match fieldsOf object with
  | Some fields =>
      foldl (λ result path,
               match fields !! path with
               | Some value => <[path := value]> result
               | None => result
               end) ∅ paths
  | None => ∅
  end.

(** [value === s] for a string [s]. *)
Definition isText (value : Value) (s : string) : bool :=
  match value with
  | text s' => String.eqb s' s
  | _ => false
  end.

Definition truthy (value : Value) : bool :=
  match value with
  | undefined | null => false
  | boolean b => b
  | number q => negb (QArith_base.Qnum q =? 0)%Z
  | text s => negb (String.eqb s "")
  | object _ | array _ _ => true
  end.

(** [end['@id'] = end.id; delete end.id] for the value [end] of the source
    or of the target of a link; [None] is the [TypeError] of a value that is
    no object. *)
Definition renameId (value : Value) : option Value :=
  let renamed fields := delete "id" (<["@id" := get "id" fields]> fields) in
  match value with
  | object fields => Some (object (renamed fields))
  | array items fields => Some (array items (renamed fields))
  | _ => None
  end.

(** [cell[key] = value] for a cell that is an object. *)
Definition setProperty (key : string) (value : Value) (cell : Value) : Value :=
  match cell with
  | object fields => object (<[key := value]> fields)
  | array items fields => array items (<[key := value]> fields)
  | _ => cell
  end.

(** The variables of the loop, and the cells gone through as they are now. *)
Record Loop : Type := {
  loop_elements : list (gmap string Value);
  loop_links : list (gmap string Value);
  loop_cells : list Value;
}.

(** The steps of the body of the loop up to the [switch], each for the new
    cell as it is at that step: the two that normalize the type, *)
Definition normalizeType (newCell : gmap string Value) : gmap string Value :=
  let newCell :=
    if isText (get "type" newCell) "Ontodia.Element" || isText (get "type" newCell) "element"
    then <["type" := text "Element"]> newCell
    else newCell in
  if isText (get "type" newCell) "link"
  then <["type" := text "Link"]> newCell
  else newCell.

(** the one that gives a cell without an IRI its id as the IRI, *)
Definition defaultIri (newCell : gmap string Value) : gmap string Value :=
  if negb (truthy (get "iri" newCell))
  then <["iri" := get "id" newCell]> newCell
  else newCell.

(** and the two that rename [id] and [type] to match JSON-LD. *)
Definition renameToJsonLd (newCell : gmap string Value) : gmap string Value :=
  let newCell := delete "id" (<["@id" := get "id" newCell]> newCell) in
  delete "type" (<["@type" := get "type" newCell]> newCell).

(** The new cell made of a cell, as it is at the [switch]. *)
Definition newCellOf (cell : Value) : gmap string Value :=
  renameToJsonLd (defaultIri (normalizeType (pick cell serializedCellProperties))).

(** The body of the loop for one cell. *)
Definition convertCell (state : Loop) (cell : Value) : Completion Loop :=
  let newCell := newCellOf cell in
  if isText (get "@type" newCell) "Element" then
    Normal {| loop_elements := loop_elements state ++ [newCell];
              loop_links := loop_links state;
              loop_cells := loop_cells state ++ [cell] |}
  else if isText (get "@type" newCell) "Link" then
    match renameId (get "source" newCell) with
    | None => TypeError
    | Some source =>
        let newCell := <["source" := source]> newCell in
        let cell := setProperty "source" source cell in
        match renameId (get "target" newCell) with
        | None => TypeError
        | Some target =>
            let newCell := <["target" := target]> newCell in
            let cell := setProperty "target" target cell in
            let newCell :=
              delete "typeId" (<["property" := get "typeId" newCell]> newCell) in
            Normal {| loop_elements := loop_elements state;
                      loop_links := loop_links state ++ [newCell];
                      loop_cells := loop_cells state ++ [cell] |}
        end
    end
  else
    Normal {| loop_elements := loop_elements state;
              loop_links := loop_links state;
              loop_cells := loop_cells state ++ [cell] |}.

Fixpoint convertCells (state : Loop) (cells : list Value) : Completion Loop :=
  match cells with
  | [] => Normal state
  | cell :: rest =>
      match convertCell state cell with
      | Normal state' => convertCells state' rest
      | TypeError => TypeError
      end
  end.

(** [convertToSerializedDiagram({layoutData: {cells}, linkTypeOptions})]:
    the diagram, and the cells after the call. *)
Definition convertToSerializedDiagram (cells : list Value) (linkTypeOptions : Value)
    : Completion (SerializedDiagram * list Value) :=
  match convertCells {| loop_elements := []; loop_links := []; loop_cells := [] |} cells with
  | TypeError => TypeError
  | Normal state =>
      Normal ({| context := context emptyDiagram;
                 diagram_type := diagram_type emptyDiagram;
                 layoutData := {| layout_type := "Layout";
                                  elements := loop_elements state;
                                  links := loop_links state |};
                 linkTypeOptions := linkTypeOptions |},
              loop_cells state)
  end.

(** ** The cells by their type *)

Definition isElementCell (cell : Value) : bool :=
  isText (property "type" cell) "Ontodia.Element"
  || isText (property "type" cell) "element"
  || isText (property "type" cell) "Element".

Definition isLinkCell (cell : Value) : bool :=
  isText (property "type" cell) "link" || isText (property "type" cell) "Link".

Definition isObject (value : Value) : bool :=
  match fieldsOf value with Some _ => true | None => false end.

(** ** Examples *)

(** Layout data of the older format: two elements, a link between them, a
    cell of another type and a value that is no object. *)
Definition legacyCells : list Value :=
  [ object (list_to_map
      [("id", text "e1"); ("type", text "Ontodia.Element");
       ("iri", text "http://example.com/alice");
       ("position", object (list_to_map
                      [("x", number (QArith_base.Qmake 10 1));
                       ("y", number (QArith_base.Qmake 45 2))]));
       ("attrs", object ∅)]);
    object (list_to_map [("id", text "e2"); ("type", text "element")]);
    object (list_to_map
      [("id", text "l1"); ("type", text "link");
       ("typeId", text "http://example.com/knows");
       ("source", object (list_to_map [("id", text "e1")]));
       ("target", object (list_to_map [("id", text "e2")]));
       ("labels", array [] ∅)]);
    object (list_to_map [("id", text "r1"); ("type", text "basic.Rect")]);
    text "stray" ].

(** The diagram made of [legacyCells], and the cells after the call. *)
Definition convertedCells : SerializedDiagram * list Value :=
  match convertToSerializedDiagram legacyCells (array [] ∅) with
  | Normal result => result
  | TypeError => (emptyDiagram, [])
  end.
End SerializedDiagram.

(** * Calls that throw, parameters that are written to

    [Objects] has the parameter objects as cells of a heap.  Here, besides,
    the call of a provider may throw before it returns a promise, as
    [SparqlDataProvider.filter] does when it is given a link without an
    element, and the function [recursiveCall] of [queueProcessResults] is
    taken with its two handlers as they are written: the handler of [catch]
    sees the rejection of the promise of the provider, and also whatever
    the call of [recursiveCall] in the handler of [then] throws or rejects
    with.  [counter] is the list of the providers that are left; it is
    shared by all the calls of [recursiveCall] of one method call. *)

Module Throwing.
Section Methods.
Context `{Model} {R : Type}.

(** How a call ends: it returns a value, or it throws. *)
Inductive Completion (A : Type) : Type :=
| Returns (value : A)
| Throws (error : Error).
Global Arguments Returns {A} value.
Global Arguments Throws {A} error.

(** The method of a provider that a method of the composite provider calls:
    given the address of its parameter object and the heap, the writes it
    makes, and the promise it returns or the error it throws. *)
Record Provider : Type := {
  providerName : string;
  method : nat → list Objects.Cell → list Objects.Write * Completion (Promise Error R);
}.

Record Call : Type := {
  calledProvider : string;
  passed : nat;
  wrote : list Objects.Write;
}.

(** The call [dp.dataProvider.method(params)]. *)
Definition invoke (dp : Provider) (params : nat) (heap : list Objects.Cell)
    : list Objects.Cell * Completion (Promise Error R) * Call :=
  let '(writes, answer) := method dp params heap in
  (Objects.write heap writes, answer,
   {| calledProvider := providerName dp; passed := params; wrote := writes |}).

(** [p.then(f)] where the promise may not have come about. *)
Definition andThen {A B : Type} (outcome : Completion (Promise Error A)) (f : A → B)
    : Completion (Promise Error B) :=
  match outcome with
  | Returns promise => Returns (then_ promise f)
  | Throws error => Throws error
  end.

(** [this.dataProviders.map(...)] of [fetchSequentially]: the first call
    that throws ends the loop. *)
Fixpoint mapProviders (dps : list Provider) (params : nat) (heap : list Objects.Cell)
    : list Objects.Cell * Completion (list (Promise Error (CompositeResponse R)))
      * list Call :=
  match dps with
  | [] => (heap, Returns [], [])
  | dp :: rest =>
      let '(heap, answer, call) := invoke dp params heap in
      match answer with
      | Throws error => (heap, Throws error, [call])
      | Returns promise =>
          let '(heap, resultPromises, calls) := mapProviders rest params heap in
          (heap,
           match resultPromises with
           | Returns promises =>
               Returns (processResults promise (providerName dp) :: promises)
           | Throws error => Throws error
           end,
           call :: calls)
      end
  end.

Definition fetchSequentially {U : Type} (dps : list Provider)
    (mergeFunction : list (CompositeResponse R) → U) (params : nat)
    (heap : list Objects.Cell)
    : list Objects.Cell * Completion (Promise Error U) * list Call :=
  let '(heap, resultPromises, calls) := mapProviders dps params heap in
  (heap,
   match resultPromises with
   | Returns promises => Returns (then_ (Promise_all promises) mergeFunction)
   | Throws error => Throws error
   end,
   calls).

(** The variables of one [queueProcessResults] call, with the heap:
    [rest] are the providers from [counter] on. *)
Record Queue (V : Type) : Type := {
  responseList : list (CompositeResponse R);
  closure : V;
  cells : list Objects.Cell;
  calls : list Call;
  rest : list Provider;
}.
Global Arguments responseList {V} _.
Global Arguments closure {V} _.
Global Arguments cells {V} _.
Global Arguments calls {V} _.
Global Arguments rest {V} _.

(** A callback returns [undefined] or a promise, or throws; [made] are the
    calls of providers it made. *)
Definition CallBack (V : Type) : Type :=
  option R → Provider → V → list Objects.Cell →
  V * list Objects.Cell * Completion (option (Promise Error R)) * list Call.

(** [recursiveCall(result)].  Every call takes one provider from [rest]
    before it calls itself, so that [fuel] above the number of providers
    left is enough ([recursiveCall_fuel]). *)
Fixpoint recursiveCall {V : Type} (fuel : nat) (callBack : CallBack V)
    (result : option R) (q : Queue V)
    : option (Completion (Promise Error (list (CompositeResponse R))) * Queue V) :=
  match fuel with
  | 0 => None
  | S fuel =>
      match rest q with
      | [] => Some (Returns (Resolved (responseList q)), q)
      | dp :: rest' =>
          let '(s, heap, callBackResult, made) :=
            callBack result dp (closure q) (cells q) in
          let q :=
            {| responseList := responseList q; closure := s; cells := heap;
               calls := calls q ++ made; rest := rest' |} in
          (* [.catch(error => recursiveCall(result))] *)
          let handler q :=
            match recursiveCall fuel callBack result q with
            | Some (Throws error, q) => Some (Returns (Rejected error), q)
            | outcome => outcome
            end in
          match callBackResult with
          | Throws error => Some (Throws error, q)
          | Returns None => Some (Returns (Resolved (responseList q)), q)
          | Returns (Some (Resolved newResult)) =>
              (* [.then(newResult => ... recursiveCall(newResult))] *)
              match
                recursiveCall fuel callBack (Some newResult)
                  {| responseList :=
                       responseList q
                       ++ [{| dataSourceName := providerName dp;
                              response := Some newResult |}];
                     closure := closure q; cells := cells q; calls := calls q;
                     rest := rest q |}
              with
              | None => None
              | Some (Returns (Resolved responses), q) =>
                  Some (Returns (Resolved responses), q)
              | Some (_, q) => handler q
              end
          | Returns (Some (Rejected error)) => handler q
          end
      end
  end.

Definition queueProcessResults {V : Type} (callBack : CallBack V) (dps : list Provider)
    (captured : V) (heap : list Objects.Cell)
    : option (list Objects.Cell
              * Completion (Promise Error (list (CompositeResponse R))) * list Call) :=
  match
    recursiveCall (S (length dps)) callBack None
      {| responseList := []; closure := captured; cells := heap; calls := [];
         rest := dps |}
  with
  | Some (outcome, q) => Some (cells q, outcome, calls q)
  | None => None
  end.

(** The callback of a found-or-empty method hands [params] itself on. *)
Definition binary_callBack (isEmpty : R → bool) (params : nat) : CallBack unit :=
  λ previousResult dp captured heap,
    if match previousResult with
       | None => true
       | Some previous => isEmpty previous
       end
    then let '(heap, answer, call) := invoke dp params heap in
         (captured, heap,
          match answer with
          | Returns promise => Returns (Some promise)
          | Throws error => Throws error
          end,
          [call])
    else (captured, heap, Returns None, []).

(** A found-or-empty method: [fetchSequentially] for the merge mode
    ['fetchAll'], [queueProcessResults] otherwise. *)
Definition binaryMethod {U : Type} (isEmpty : R → bool)
    (mergeFunction : list (CompositeResponse R) → U)
    (mergeMode : string) (dps : list Provider) (params : nat) (heap : list Objects.Cell)
    : option (list Objects.Cell * Completion (Promise Error U) * list Call) :=
  if decide (mergeMode = "fetchAll")
  then Some (fetchSequentially dps mergeFunction params heap)
  else
    match queueProcessResults (binary_callBack isEmpty params) dps () heap with
    | Some (heap, outcome, calls) => Some (heap, andThen outcome mergeFunction, calls)
    | None => None
    end.

(** The callback of a narrowing method, as in [Objects]: a new array of
    the ids that are left, a new object for the call. *)
Definition narrowing_callBack (field : string) (others : list string)
    (keep : R → string → bool) (params : nat) : CallBack nat :=
  λ previousResult dp ids heap,
    let filtered :=
      List.filter
        (λ id, match previousResult with
               | None => true
               | Some previous => keep previous id
               end)
        (Objects.elementsAt heap ids) in
    let ids := length heap in
    let heap := heap ++ [Objects.array filtered] in
    if (0 <? length filtered)%nat
    then
      let request := length heap in
      let fields :=
        foldr (λ other fields,
                 <[other := default Objects.undefined
                              (Objects.fieldsAt heap params !! other)]> fields)
              {[field := Objects.reference ids]} others in
      let heap := heap ++ [Objects.object fields] in
      let '(heap, answer, call) := invoke dp request heap in
      (ids, heap,
       match answer with
       | Returns promise => Returns (Some promise)
       | Throws error => Throws error
       end,
       [call])
    else (ids, heap, Returns None, []).

(** ** When no call throws *)

(** A provider none of whose calls throws. *)
Definition returnsPromises (dp : Provider) : Prop :=
  ∀ params heap, ∃ promise, (method dp params heap).2 = Returns promise.

(** What [recursiveCall] comes to when the callback does not throw, where
    the handler of [catch] only sees the rejection of the promise of a
    provider: the tagged results that are pushed, the heap at the end and
    the calls that are made, from the providers that are left, the
    previous result, the captured variable and the heap. *)
Fixpoint settle {V : Type} (callBack : CallBack V) (providers : list Provider)
    (result : option R) (s : V) (heap : list Objects.Cell)
    : list (CompositeResponse R) * list Objects.Cell * list Call :=
  match providers with
  | [] => ([], heap, [])
  | dp :: providers =>
      let '(s, heap, callBackResult, made) := callBack result dp s heap in
      match callBackResult with
      | Returns (Some (Resolved newResult)) =>
          let '(responses, heap, calls) :=
            settle callBack providers (Some newResult) s heap in
          ({| dataSourceName := providerName dp; response := Some newResult |} :: responses,
           heap, made ++ calls)
      | Returns (Some (Rejected _)) =>
          let '(responses, heap, calls) := settle callBack providers result s heap in
          (responses, heap, made ++ calls)
      | _ => ([], heap, made)
      end
  end.

(** A provider whose calls write nothing and return a promise that
    rejects. *)
Definition rejectsSilently (dp : Provider) : Prop :=
  ∀ params heap, ∃ error, method dp params heap = ([], Returns (Rejected error)).

(** A callback that does not throw when it is given one of [providers]. *)
Definition doesNotThrow {V : Type} (callBack : CallBack V) (providers : list Provider)
    : Prop :=
  ∀ result dp s heap,
    dp ∈ providers →
    ∃ answer, (callBack result dp s heap).1.2 = Returns answer.

(** Every tagged result is empty. *)
Definition allEmpty (isEmpty : R → bool) (responses : list (CompositeResponse R)) : bool :=
  forallb (λ entry, match response entry with
                    | Some r => isEmpty r
                    | None => true
                    end) responses.

(** ** Vocabulary for the found-or-empty methods *)

(** With a merge mode other than ['fetchAll'] the method [op] is
    [queueProcessResults] with [callBack], followed by its merge function. *)
Definition SequentialMethod {U : Type}
    (op : string → list Provider → nat → list Objects.Cell →
          option (list Objects.Cell * Completion (Promise Error U) * list Call))
    (callBack : nat → CallBack unit) (mergeFunction : list (CompositeResponse R) → U)
    : Prop :=
  ∀ mergeMode dps params heap,
    mergeMode ≠ "fetchAll" →
    op mergeMode dps params heap
    = match queueProcessResults (callBack params) dps () heap with
      | Some (heap, outcome, calls) => Some (heap, andThen outcome mergeFunction, calls)
      | None => None
      end.

(** Among providers whose calls return promises, the one registered last
    is asked exactly when every result of the providers before it is
    empty; it is handed the object of the caller, as every provider before
    it, in the state they left it in; when its promise rejects it adds
    nothing but its call. *)
Definition AsksWhileEmpty (callBack : nat → CallBack unit) (empty : R → bool) : Prop :=
  ∀ dps dp params heap,
    Forall returnsPromises (dps ++ [dp]) →
    ∃ responses heap1 made,
      queueProcessResults (callBack params) dps () heap
      = Some (heap1, Returns (Resolved responses), made)
      ∧ Forall (λ call, passed call = params) made
      ∧ queueProcessResults (callBack params) (dps ++ [dp]) () heap
        = if allEmpty empty responses
          then
            let '(heap2, answer, call) := invoke dp params heap1 in
            Some (heap2,
                  Returns (Resolved
                             match answer with
                             | Returns (Resolved r) =>
                                 responses
                                 ++ [{| dataSourceName := providerName dp;
                                        response := Some r |}]
                             | _ => responses
                             end),
                  made ++ [call])
          else Some (heap1, Returns (Resolved responses), made).

(** Once a provider has resolved with a result that is not empty, the
    providers registered after it are not asked. *)
Definition FirstFoundWins (callBack : nat → CallBack unit) (empty : R → bool) : Prop :=
  ∀ dps later params heap heap1 responses made,
    Forall returnsPromises (dps ++ later) →
    queueProcessResults (callBack params) dps () heap
    = Some (heap1, Returns (Resolved responses), made) →
    allEmpty empty responses = false →
    queueProcessResults (callBack params) (dps ++ later) () heap
    = Some (heap1, Returns (Resolved responses), made).


(** A provider whose calls reject without a write leaves no trace: the
    results and the heap are those of the registry without it, and the
    other providers are asked the same. *)
Definition RejectingIsAbsent (callBack : nat → CallBack unit) : Prop :=
  ∀ before dp after params heap,
    Forall returnsPromises (before ++ after) →
    rejectsSilently dp →
    ∃ responses heap' made1 made made2,
      queueProcessResults (callBack params) (before ++ dp :: after) () heap
      = Some (heap', Returns (Resolved responses), made1 ++ made ++ made2)
      ∧ queueProcessResults (callBack params) (before ++ after) () heap
        = Some (heap', Returns (Resolved responses), made1 ++ made2)
      ∧ (made = []
         ∨ made = [{| calledProvider := providerName dp; passed := params; wrote := [] |}]).

(** ** The same call again *)

(** A field as the provider that is handed the object finds it: a number,
    a string, the elements of an array whatever its address, or another
    object. *)
Inductive Seen : Type :=
| seenUndefined
| seenNumber (n : Z)
| seenText (s : string)
| seenArray (elements : list string)
| seenObject.

Definition see (heap : list Objects.Cell) (value : Objects.Value) : Seen :=
  match value with
  | Objects.undefined => seenUndefined
  | Objects.number n => seenNumber n
  | Objects.text s => seenText s
  | Objects.reference address =>
      match heap !! address with
      | Some (Objects.array elements) => seenArray elements
      | _ => seenObject
      end
  end.

(** The values that the object at [address] holds; [None] when there is
    no object ([undefined] is handed on). *)
Definition view (heap : list Objects.Cell) (address : nat) : option (gmap string Seen) :=
  match heap !! address with
  | Some (Objects.object fields) => Some (see heap <$> fields)
  | _ => None
  end.

(** The addresses in the fields of the object at [address] are addresses
    of the heap. *)
Definition closed (heap : list Objects.Cell) (address : nat) : Prop :=
  ∀ field b,
    Objects.fieldsAt heap address !! field = Some (Objects.reference b) → b < length heap.

(** The assignments [params.field = value]. *)
Definition assignments (params : nat) (assigned : list (string * Objects.Value))
    : list Objects.Write :=
  (λ a, Objects.setField params a.1 a.2) <$> assigned.

(** A provider whose answers do not change: what it assigns to the fields
    of the object it is handed (numbers and strings, as the limit of
    [SparqlDataProvider.filter]), and the promise it returns or the error
    it throws, are a function of the values that the object holds. *)
Definition answersByValue (dp : Provider) : Prop :=
  ∃ act : option (gmap string Seen)
          → list (string * Objects.Value) * Completion (Promise Error R),
    ∀ params heap,
      Forall (λ a, ∀ b, a.2 ≠ Objects.reference b) (act (view heap params)).1
      ∧ method dp params heap
        = (assignments params (act (view heap params)).1, (act (view heap params)).2).

(** A narrowing method: [fetchSequentially] with the object of the caller
    for the merge mode ['fetchAll'], [queueProcessResults] otherwise.  When
    [params.field] is not an array, [ids.filter] in the first call of the
    callback throws [typeError]; without a provider the callback is not
    called. *)
Definition narrowingMethod {U : Type} (typeError : Error) (field : string)
    (others : list string) (keep : R → string → bool)
    (mergeFunction : list (CompositeResponse R) → U)
    (mergeMode : string) (dps : list Provider) (params : nat) (heap : list Objects.Cell)
    : option (list Objects.Cell * Completion (Promise Error U) * list Call) :=
  if decide (mergeMode = "fetchAll")
  then Some (fetchSequentially dps mergeFunction params heap)
  else
    match see heap (default Objects.undefined (Objects.fieldsAt heap params !! field)),
          Objects.fieldsAt heap params !! field with
    | seenArray _, Some (Objects.reference ids) =>
        match queueProcessResults (narrowing_callBack field others keep params)
                dps ids heap with
        | Some (heap, outcome, calls) => Some (heap, andThen outcome mergeFunction, calls)
        | None => None
        end
    | _, _ =>
        match dps with
        | [] => Some (heap, Returns (Resolved (mergeFunction [])), [])
        | _ :: _ => Some (heap, Throws typeError, [])
        end
    end.


(** ** A method whose promise resolves *)

(** [params.field] is an array, as the type of the parameters of a
    narrowing method says. *)
Definition holdsArray (field : string) (heap : list Objects.Cell) (params : nat) : Prop :=
  ∃ ids elements,
    Objects.fieldsAt heap params !! field = Some (Objects.reference ids)
    ∧ heap !! ids = Some (Objects.array elements).

(** The method returns a promise, and the promise resolves. *)
Definition Resolves {U : Type}
    (op : nat → list Objects.Cell →
          option (list Objects.Cell * Completion (Promise Error U) * list Call))
    (ready : list Objects.Cell → nat → Prop) : Prop :=
  ∀ params heap,
    ready heap params →
    ∃ heap' merged made, op params heap = Some (heap', Returns (Resolved merged), made).

(** ** A provider that rejects, object by object *)

(** With [fetchSequentially], a provider whose calls reject without a
    write has a tagged result without a response, at its place among the
    tagged results of the other providers, which are those of the
    registry without it. *)
Definition RejectingIsTagged : Prop :=
  ∀ (U : Type) (mergeFunction : list (CompositeResponse R) → U) before dp after params heap,
    Forall returnsPromises (before ++ after) →
    rejectsSilently dp →
    ∃ heap' responses1 responses2 made1 made2,
      fetchSequentially (before ++ after) mergeFunction params heap
      = (heap', Returns (Resolved (mergeFunction (responses1 ++ responses2))),
         made1 ++ made2)
      ∧ fetchSequentially (before ++ dp :: after) mergeFunction params heap
        = (heap',
           Returns (Resolved
                      (mergeFunction
                         (responses1
                          ++ {| dataSourceName := providerName dp; response := None |}
                          :: responses2))),
           made1
           ++ {| calledProvider := providerName dp; passed := params; wrote := [] |}
           :: made2)
      ∧ length responses1 = length before
      ∧ length made1 = length before.

(** With the callback of a narrowing method, a provider whose calls reject
    without a write has no tagged result: the tagged results are those of
    the registry without it, the other providers are asked in the same
    order, and the object of the caller holds the same values at the end.
    The objects made for the calls have other addresses in the two runs,
    so the answers of the other providers are taken to be a function of
    the values they are handed. *)
Definition RejectingIsLeftOut (field : string) (others : list string)
    (keep : R → string → bool) : Prop :=
  ∀ before dp after params ids heap,
    Forall returnsPromises (before ++ after) →
    Forall answersByValue (before ++ after) →
    rejectsSilently dp →
    params < length heap →
    closed heap params →
    ∃ responses heap1 heap2 made1 made made2 made2',
      queueProcessResults (narrowing_callBack field others keep params)
        (before ++ dp :: after) ids heap
      = Some (heap1, Returns (Resolved responses), made1 ++ made ++ made2)
      ∧ queueProcessResults (narrowing_callBack field others keep params)
          (before ++ after) ids heap
        = Some (heap2, Returns (Resolved responses), made1 ++ made2')
      ∧ calledProvider <$> made2 = calledProvider <$> made2'
      ∧ (made = []
         ∨ ∃ request,
             made = [{| calledProvider := providerName dp; passed := request;
                        wrote := [] |}])
      ∧ view heap1 params = view heap2 params.
End Methods.

(** ** The methods with a merge mode *)

Section Composite.
Context `{Model} `{!MergeUtils}.

Definition linkTypesOf_callBack : nat → CallBack (R := list LinkCount) unit :=
  binary_callBack (λ previous, (length previous =? 0)%nat).

Definition linkTypesOf := binaryMethod (λ previous, (length previous =? 0)%nat) mergeLinkTypesOf.

Definition linkElements_callBack : nat → CallBack (R := Dictionary ElementModel) unit :=
  binary_callBack (λ previous, (keys_length previous =? 0)%nat).

Definition linkElements :=
  binaryMethod (λ previous, (keys_length previous =? 0)%nat) mergeLinkElements.

Definition filter_callBack : nat → CallBack (R := Dictionary ElementModel) unit :=
  binary_callBack (λ previous, (keys_length previous =? 0)%nat).

Definition filter := binaryMethod (λ previous, (keys_length previous =? 0)%nat) mergeFilter.

Definition propertyInfo (typeError : Error) :=
  narrowingMethod typeError "propertyIds" []
    (λ (previous : Dictionary PropertyModel) id, negb (truthyMember previous id))
    mergePropertyInfo.

Definition classInfo (typeError : Error) :=
  narrowingMethod typeError "classIds" []
    (λ previous id, Z.eqb (indexOf (List.map ClassModel_id previous) id) (-1))
    mergeClassInfo.

Definition linkTypesInfo (typeError : Error) :=
  narrowingMethod typeError "linkTypeIds" []
    (λ previous id, Z.eqb (indexOf (List.map LinkType_id previous) id) (-1))
    mergeLinkTypesInfo.

Definition elementInfo (typeError : Error) :=
  narrowingMethod typeError "elementIds" []
    (λ (previous : Dictionary ElementModel) id, negb (truthyMember previous id))
    mergeElementInfo.

Definition linksInfo (typeError : Error) :=
  narrowingMethod typeError "elementIds" ["linkTypeIds"]
    (λ previous id,
       negb (existsb (λ linkModel, String.eqb (LinkModel_sourceId linkModel) id) previous))
    mergeLinksInfo.
End Composite.

(** ** Providers for [filter] *)

(** Truthiness of a field of a parameter object. *)
Definition truthy (value : option Objects.Value) : bool :=
  match value with
  | None | Some Objects.undefined => false
  | Some (Objects.number n) => negb (n =? 0)%Z
  | Some (Objects.text s) => negb (String.eqb s "")
  | Some (Objects.reference _) => true
  end.

(** [SparqlDataProvider.filter] up to its query: a limit of 0 is set to
    100, and a link without an element is refused by an error that is
    thrown.  The query and the blank nodes are left out: the promise
    resolves with [found]. *)
Definition sparqlFilter (found : Dictionary string) (params : nat)
    (heap : list Objects.Cell)
    : list Objects.Write
      * Completion (H := exampleModel) (Promise string (Dictionary string)) :=
  let writes :=
    match Objects.fieldsAt heap params !! "limit" with
    | Some (Objects.number 0) => [Objects.setField params "limit" (Objects.number 100)]
    | _ => []
    end in
  let fields := Objects.fieldsAt (Objects.write heap writes) params in
  if negb (truthy (fields !! "refElementId")) && truthy (fields !! "refElementLinkId")
  then (writes, @Throws exampleModel _
                  "Can't execute refElementLink filter without refElement")
  else (writes, Returns (Resolved found)).

Definition sparqlProvider (found : Dictionary string)
    : Provider (H := exampleModel) (R := Dictionary string) :=
  {| providerName := "SPARQL"; method := sparqlFilter found |}.

(** A provider that writes nothing and resolves with [found]. *)
Definition rdfProvider (found : Dictionary string)
    : Provider (H := exampleModel) (R := Dictionary string) :=
  {| providerName := "RDF"; method := λ _ _, ([], Returns (Resolved found)) |}.

(** A provider that cannot be reached: it writes nothing and its promise
    rejects. *)
Definition downProvider : Provider (H := exampleModel) (R := Dictionary string) :=
  {| providerName := "down";
     method := λ _ _, ([], Returns (@Rejected (@Error exampleModel) _ "unreachable")) |}.


(** The parameters [{text: ..., limit: 0, offset: 0}], at address 0. *)
Definition textHeap : list Objects.Cell :=
  [Objects.object {["text" := Objects.text "alice";
                    "limit" := Objects.number 0; "offset" := Objects.number 0]}].

(** A provider that takes the limit as it is given: it writes nothing and
    resolves with [found], with nothing when the limit is 0. *)
Definition cappedProvider (found : Dictionary string)
    : Provider (H := exampleModel) (R := Dictionary string) :=
  {| providerName := "capped";
     method := λ params heap,
       ([], Returns (Resolved
                       match Objects.fieldsAt heap params !! "limit" with
                       | Some (Objects.number 0) => ∅
                       | _ => found
                       end)) |}.
End Throwing.

(** * Properties *)

(** ** [Promise.all] and [fetchSequentially] *)

Section PromiseFacts.
Context {Error A : Type}.
Implicit Types (vs : list A) (st : AllState (Error := Error) A).

Lemma Promise_all_resolved vs :
  Promise_all (Error := Error) (Resolved <$> vs) = Resolved vs.
Proof.
  induction vs as [|v vs IH]; [done|].
  cbn [fmap list_fmap Promise_all]. fold (fmap (M := list) (@Resolved Error A)).
  by rewrite IH.
Qed.

(** An array without holes that agrees with [vs] is [vs]. *)
Lemma filled_array (slots : list (option A)) vs :
  length slots = length vs →
  (∀ i, slots !! i ≠ Some None) →
  (∀ i v, slots !! i = Some (Some v) → vs !! i = Some v) →
  omap id slots = vs.
Proof.
  revert vs. induction slots as [|slot slots IH]; intros [|v vs] Hlen Hfull Hagree;
    simplify_eq/=; [done|].
  destruct slot as [w|]; [|by destruct (Hfull 0)].
  cbn. f_equal.
  - specialize (Hagree 0 w eq_refl). by simplify_eq/=.
  - apply IH; [done| |].
    + intros i. apply (Hfull (S i)).
    + intros i u. apply (Hagree (S i) u).
Qed.

(** The invariant of a run of [settle] over input promises that all
    resolve: the positions still to settle are the holes of the array. *)
Lemma settle_run vs : ∀ (pending : list nat) st,
  length (values st) = length vs →
  NoDup pending →
  (∀ i, i ∈ pending ↔ values st !! i = Some None) →
  (∀ i v, values st !! i = Some (Some v) → vs !! i = Some v) →
  remaining st = length pending →
  combined st = (if decide (length pending = 0) then Some (Resolved vs) else None) →
  combined (foldl (settle (Resolved <$> vs)) st pending) = Some (Resolved vs).
Proof.
  induction pending as [|i pending IH]; intros st Hlen Hnodup Hholes Hagree Hrem Hcomb.
  { done. }
  cbn [foldl]. apply NoDup_cons in Hnodup as [Hi Hnodup].
  assert (values st !! i = Some None) as Hslot by (apply Hholes; left).
  assert (i < length vs) as Hilt.
  { rewrite <-Hlen. by eapply lookup_lt_Some. }
  destruct (lookup_lt_is_Some_2 vs i Hilt) as [v Hv].
  assert (settle (Resolved <$> vs) st i =
          mkAllState (<[i := Some v]> (values st)) (length pending)
            (if decide (length pending = 0)
             then Some (Resolved (omap id (<[i := Some v]> (values st))))
             else None)) as ->.
  { unfold settle. rewrite list_lookup_fmap, Hv. cbn. rewrite Hslot, Hrem, Hcomb.
    cbn. done. }
  assert (∀ j, j ∈ pending ↔ <[i := Some v]> (values st) !! j = Some None) as Hholes'.
  { intros j. destruct (decide (j = i)) as [->|Hne].
    - rewrite list_lookup_insert_eq by (by rewrite Hlen). split; [done|congruence].
    - rewrite list_lookup_insert_ne by done. rewrite <-Hholes.
      rewrite elem_of_cons. split; [by right|by intros [?|?]]. }
  assert (∀ j u, <[i := Some v]> (values st) !! j = Some (Some u) → vs !! j = Some u)
    as Hagree'.
  { intros j u. destruct (decide (j = i)) as [->|Hne].
    - rewrite list_lookup_insert_eq by (by rewrite Hlen). congruence.
    - rewrite list_lookup_insert_ne by done. apply Hagree. }
  apply IH; cbn; try done.
  - by rewrite length_insert.
  - destruct (decide (length pending = 0)) as [Hz|]; [|done].
    do 2 f_equal. apply filled_array; [by rewrite length_insert| |done].
    intros j Hj. apply Hholes' in Hj. destruct pending; [|done].
    by apply elem_of_nil in Hj.
Qed.

(** Whatever the order in which the input promises resolve, the combined
    promise resolves with the values in the order of the input. *)
Lemma Promise_all_timed_resolved vs (completion : list nat) :
  completion ≡ₚ seq 0 (length vs) →
  Promise_all_timed (Error := Error) (Resolved <$> vs) completion = Some (Resolved vs).
Proof.
  intros Hperm. unfold Promise_all_timed. rewrite length_fmap.
  assert (length completion = length vs) as Hlen.
  { by rewrite Hperm, length_seq. }
  apply settle_run; cbn.
  - by rewrite length_replicate.
  - rewrite Hperm. apply NoDup_seq.
  - intros i. rewrite Hperm, elem_of_seq, lookup_replicate.
    split; [intros [_ ?]; split; [done|lia] | intros [_ ?]; lia].
  - intros i v [? _]%lookup_replicate. done.
  - done.
  - rewrite Hlen. destruct vs; done.
Qed.
End PromiseFacts.

Section FetchAllFacts.
Context `{Model}.

Lemma processResults_tagged (req : Request) (dps : list DPDefinition) :
  (λ dp, processResults (perform (dataProvider dp) req) (name dp)) <$> dps
  = Resolved <$> (tagged req <$> dps).
Proof.
  rewrite <-list_fmap_compose. apply list_fmap_ext. intros _ dp _. cbn.
  unfold processResults, tagged. by destruct (perform _ _).
Qed.

(** [fetchSequentially] asks every provider once, in the order of
    registration, and gives the merge function one tagged result for each
    of them, in that order. *)
Lemma fetchSequentially_spec {U : Type} (this : CompositeDataProvider) (req : Request)
    (mergeFunction : list (CompositeResponse (Response req)) → U) :
  fetchSequentially this req mergeFunction
  = (Resolved (mergeFunction (tagged req <$> dataProviders this)),
     callAll (dataProviders this) req).
Proof.
  unfold fetchSequentially. by rewrite processResults_tagged, Promise_all_resolved.
Qed.
End FetchAllFacts.

(** ** [queueProcessResults] *)

Section QueueFacts.
Context `{Model} {R S : Type}.
Implicit Types (q : Queue R S) (result : option R) (rest : list DPDefinition).

(** The promise [recursiveCall] returns always resolves, with the
    response list of the final state. *)
Lemma recursiveCall_resolves (callBack : CallBack R S) rest : ∀ result q,
  (recursiveCall callBack rest result q).1
  = Resolved (responseList (recursiveCall callBack rest result q).2).
Proof.
  induction rest as [|dp rest IH]; intros result q; [done|].
  cbn [recursiveCall].
  destruct (callBack result dp (closure q)) as [[s [[newResult|error]|]] made];
    [apply IH|apply IH|done].
Qed.

Variable step : option R → S → S.
Variable go : option R → S → bool.
Variable request : S → Request.
Variable answer : ∀ s, Promise Error (Response (request s)) → Promise Error R.

Let callBack := shapedCallBack step go request answer.
Let made := callsMade step go request answer.
Let invocation (call : DPDefinition * S) : Invocation :=
  {| calledProvider := call.1; calledWith := request call.2 |}.

Lemma entryOf_resolved dp s (r : R) :
  answer s (perform (dataProvider dp) (request s)) = Resolved r →
  entryOf request answer (dp, s)
  = Some {| dataSourceName := name dp; response := Some r |}.
Proof. unfold entryOf. cbn. by intros ->. Qed.

Lemma entryOf_rejected dp s error :
  answer s (perform (dataProvider dp) (request s)) = Rejected error →
  entryOf request answer (dp, s) = None.
Proof. unfold entryOf. cbn. by intros ->. Qed.

Lemma recursiveCall_shaped_cons dp rest result q :
  recursiveCall callBack (dp :: rest) result q
  = let s := step result (closure q) in
    let call := {| calledProvider := dp; calledWith := request s |} in
    if go result s
    then match answer s (perform (dataProvider dp) (request s)) with
         | Resolved newResult =>
             recursiveCall callBack rest (Some newResult)
               {| responseList :=
                    responseList q
                    ++ [{| dataSourceName := name dp; response := Some newResult |}];
                  closure := s;
                  calls := calls q ++ [call] |}
         | Rejected _ =>
             recursiveCall callBack rest result
               {| responseList := responseList q; closure := s;
                  calls := calls q ++ [call] |}
         end
    else (Resolved (responseList q),
          {| responseList := responseList q; closure := s; calls := calls q ++ [] |}).
Proof.
  cbn [recursiveCall]. unfold callBack, shapedCallBack, invoke. cbn zeta.
  destruct (go _ _); [|done]. by destruct (answer _ _).
Qed.

(** A run of [recursiveCall] appends to the response list the tagged
    results of the calls that resolved, and to the calls the calls made. *)
Lemma recursiveCall_callsMade rest : ∀ result q,
  (recursiveCall callBack rest result q).1
  = Resolved (responseList q ++ omap (entryOf request answer) (made rest result (closure q)))
  ∧ calls (recursiveCall callBack rest result q).2
    = calls q ++ (invocation <$> made rest result (closure q)).
Proof.
  induction rest as [|dp rest IH]; intros result q.
  { cbn. by rewrite !app_nil_r. }
  rewrite recursiveCall_shaped_cons. unfold made. cbn [callsMade]. fold made. cbn zeta.
  destruct (go _ _).
  2:{ cbn. by rewrite !app_nil_r. }
  cbn [omap list_omap fmap list_fmap]. unfold entryOf at 1 3. cbn [fst snd].
  destruct (answer _ _) as [newResult|error].
  - edestruct IH as [-> ->]. cbn. by rewrite <-!app_assoc.
  - edestruct IH as [-> ->]. cbn. by rewrite <-!app_assoc.
Qed.

Lemma queueProcessResults_callsMade (this : CompositeDataProvider) (captured : S) :
  queueProcessResults callBack this captured
  = (Resolved (omap (entryOf request answer) (made (dataProviders this) None captured)),
     invocation <$> made (dataProviders this) None captured).
Proof.
  unfold queueProcessResults.
  pose proof (recursiveCall_callsMade (dataProviders this) None
                {| responseList := []; closure := captured; calls := [] |}) as [Hp Hc].
  destruct (recursiveCall _ _ _ _) as [promise q]. cbn in *. by rewrite Hp, Hc.
Qed.

(** The providers called are called in the order of registration. *)
Lemma callsMade_sublist rest : ∀ result s, sublist (fst <$> made rest result s) rest.
Proof.
  induction rest as [|dp rest IH]; intros result s; [done|].
  unfold made. cbn [callsMade]. fold made.
  destruct (go _ _); [|apply sublist_nil_l].
  cbn. apply sublist_skip. destruct (answer _ _); apply IH.
Qed.

Lemma entryOf_present (callsMade : list (DPDefinition * S)) :
  Forall (λ entry, is_Some (response entry)) (omap (entryOf request answer) callsMade).
Proof.
  induction callsMade as [|call callsMade IH]; [by constructor|].
  cbn. unfold entryOf at 1. destruct (answer _ _); [|done].
  constructor; [by eexists|done].
Qed.

(** A method that, under [sequentialFetching], is [queueProcessResults]
    with a callback of the common shape, followed by its merge function. *)
Lemma shaped_OneEntryPerResolvedCall {U : Type}
    (op : CompositeDataProvider → S → Promise Error U * list Invocation)
    (mergeFunction : list (CompositeResponse R) → U) :
  SequentialMethod op mergeFunction callBack →
  OneEntryPerResolvedCall op mergeFunction request answer.
Proof.
  intros Hop this captured Hmode.
  exists (made (dataProviders this) None captured). split_and!.
  - apply callsMade_sublist.
  - apply entryOf_present.
  - rewrite Hop by done. unfold callBack. by rewrite queueProcessResults_callsMade.
Qed.
End QueueFacts.

Section FilterFacts.
Context {A : Type}.

Lemma filter_and (f g : A → bool) (l : list A) :
  List.filter f (List.filter g l) = List.filter (λ x, g x && f x) l.
Proof.
  induction l as [|x l IH]; [done|]. cbn.
  destruct (g x); cbn; [destruct (f x)|]; by rewrite IH.
Qed.

Lemma filter_twice (f : A → bool) (l : list A) :
  List.filter f (List.filter f l) = List.filter f l.
Proof.
  rewrite filter_and. apply List.filter_ext. intros x. by destruct (f x).
Qed.

Lemma filter_nil_length (l : list A) : (0 <? length l)%nat = false ↔ l = [].
Proof. by destruct l. Qed.
End FilterFacts.

(** ** The narrowing callbacks *)

Section NarrowFacts.
Context `{Model} {R : Type}.
Variable keep : R → string → bool.
Variable request : list string → Request.
Variable answer : ∀ ids, Promise Error (Response (request ids)) → Promise Error R.

Let callBack := shapedCallBack (narrowStep keep) narrowGo request answer.
Let made := callsMade (narrowStep keep) narrowGo request answer.

Lemma narrowStep_twice result ids :
  narrowStep keep result (narrowStep keep result ids) = narrowStep keep result ids.
Proof. apply filter_twice. Qed.

Lemma remainingAfter_snoc requested earlier dpName (r : R) :
  narrowStep keep (Some r) (remainingAfter keep requested earlier)
  = remainingAfter keep requested
      (earlier ++ [{| dataSourceName := dpName; response := Some r |}]).
Proof.
  unfold narrowStep, remainingAfter. rewrite filter_and.
  apply List.filter_ext. intros id. rewrite forallb_app. cbn.
  by rewrite andb_true_r.
Qed.

(** The variable captured by the callback, filtered by the previous
    result, is the list of the requested ids that no earlier result
    resolves; under this invariant the provider registered last is asked
    for exactly these ids. *)
Lemma callsMade_narrow_snoc requested dp dps : ∀ result ids earlier,
  narrowStep keep result ids = remainingAfter keep requested earlier →
  made (dps ++ [dp]) result ids
  = made dps result ids
    ++ (let remaining :=
          remainingAfter keep requested
            (earlier ++ omap (entryOf request answer) (made dps result ids)) in
        if decide (remaining = []) then [] else [(dp, remaining)]).
Proof.
  induction dps as [|dp0 dps IH]; intros result ids earlier Hinv.
  - cbn [app]. unfold made. cbn [callsMade omap list_omap]. cbn zeta.
    rewrite app_nil_r, Hinv. unfold narrowGo.
    destruct (remainingAfter keep requested earlier) as [|id rem] eqn:Hrem; [done|].
    cbn. by destruct (answer _ _).
  - cbn [app]. unfold made. cbn [callsMade]. fold made. cbn zeta.
    destruct (narrowGo result (narrowStep keep result ids)) eqn:Hgo.
    + destruct (answer _ _) as [newResult|error] eqn:Hanswer.
      * cbn [app omap list_omap]. rewrite (entryOf_resolved _ _ _ _ _ Hanswer).
        f_equal.
        rewrite (IH (Some newResult) _
                   (earlier ++ [{| dataSourceName := name dp0;
                                   response := Some newResult |}])).
        2:{ rewrite Hinv. apply remainingAfter_snoc. }
        cbn zeta. by rewrite <-app_assoc.
      * cbn [app omap list_omap]. rewrite (entryOf_rejected _ _ _ _ _ Hanswer).
        f_equal. rewrite (IH result _ earlier); [done|].
        by rewrite narrowStep_twice.
    + apply filter_nil_length in Hgo. cbn [app omap list_omap]. cbn zeta.
      rewrite app_nil_r, <-Hinv, Hgo. done.
Qed.

Lemma shaped_NarrowsRequests : NarrowsRequests callBack keep request answer.
Proof.
  intros dps dp mode requested. unfold callBack.
  eexists _, _. split; [apply queueProcessResults_callsMade|].
  rewrite queueProcessResults_callsMade. cbn [dataProviders].
  fold made. rewrite (callsMade_narrow_snoc requested dp dps None requested []).
  2:{ unfold narrowStep, remainingAfter. by apply List.filter_ext. }
  cbn [app]. cbn zeta.
  destruct (decide (remainingAfter keep requested _ = [])) as [Hnone|Hsome].
  { by rewrite !app_nil_r. }
  rewrite omap_app, fmap_app. unfold asked. cbn. unfold entryOf at 2. cbn [fst snd].
  destruct (answer _ _); [done|by rewrite app_nil_r].
Qed.
End NarrowFacts.

(** ** The found-or-empty callbacks *)

Section BinaryFacts.
Context `{Model} {R : Type}.
Variable isEmpty : R → bool.
Variable req : Request.
Variable answer : Promise Error (Response req) → Promise Error R.

Let callBack := shapedCallBack (λ _ s, s) (binaryGo isEmpty) (λ _ : unit, req) (λ _, answer).
Let made := callsMade (λ _ s, s) (binaryGo isEmpty) (λ _ : unit, req) (λ _, answer).

Lemma allEmpty_snoc earlier dpName (r : R) :
  allEmpty isEmpty (earlier ++ [{| dataSourceName := dpName; response := Some r |}])
  = allEmpty isEmpty earlier && isEmpty r.
Proof. unfold allEmpty. rewrite forallb_app. cbn. by rewrite andb_true_r. Qed.

Lemma callsMade_binary_snoc dp dps : ∀ result u earlier,
  binaryGo isEmpty result u = allEmpty isEmpty earlier →
  made (dps ++ [dp]) result u
  = made dps result u
    ++ (if allEmpty isEmpty
             (earlier ++ omap (entryOf (λ _ : unit, req) (λ _, answer)) (made dps result u))
        then [(dp, u)] else []).
Proof.
  induction dps as [|dp0 dps IH]; intros result u earlier Hinv.
  - cbn [app]. unfold made. cbn [callsMade omap list_omap]. cbn zeta.
    rewrite app_nil_r, <-Hinv. destruct (binaryGo isEmpty result u); [|done].
    by destruct (answer _).
  - cbn [app]. unfold made. cbn [callsMade]. fold made. cbn zeta.
    destruct (binaryGo isEmpty result u) eqn:Hgo.
    + destruct (answer _) as [newResult|error] eqn:Hanswer.
      * cbn [app omap list_omap].
        rewrite (entryOf_resolved (λ _ : unit, req) (λ _, answer) dp0 u _ Hanswer).
        f_equal.
        rewrite (IH (Some newResult) u
                   (earlier ++ [{| dataSourceName := name dp0;
                                   response := Some newResult |}])).
        2:{ rewrite allEmpty_snoc, <-Hinv. done. }
        by rewrite <-app_assoc.
      * cbn [app omap list_omap].
        rewrite (entryOf_rejected (λ _ : unit, req) (λ _, answer) dp0 u _ Hanswer).
        f_equal. rewrite (IH result u earlier); [done|congruence].
    + cbn [app omap list_omap]. by rewrite app_nil_r, <-Hinv.
Qed.

Lemma shaped_AsksWhileEmpty : AsksWhileEmpty callBack isEmpty req answer.
Proof.
  intros dps dp mode. unfold callBack.
  eexists _, _. split; [apply queueProcessResults_callsMade|].
  rewrite queueProcessResults_callsMade. cbn [dataProviders].
  fold made. rewrite (callsMade_binary_snoc dp dps None () []); [|done].
  cbn [app]. destruct (allEmpty isEmpty _).
  - rewrite omap_app, fmap_app. unfold asked. cbn. unfold entryOf at 2. cbn [fst snd].
    destruct (answer _); [done|by rewrite app_nil_r].
  - by rewrite !app_nil_r.
Qed.

(** After a result that is not empty no provider is asked. *)
Lemma callsMade_found later (r : R) u : isEmpty r = false → made later (Some r) u = [].
Proof.
  intros Hfound. destruct later as [|dp later]; [done|].
  unfold made. cbn. by rewrite Hfound.
Qed.

Lemma callsMade_first_found dp later later' (r : R) :
  answer (perform (dataProvider dp) req) = Resolved r →
  isEmpty r = false →
  ∀ dps result u, made (dps ++ dp :: later) result u = made (dps ++ dp :: later') result u.
Proof.
  intros Hr Hfound. induction dps as [|dp0 dps IH]; intros result u.
  - cbn [app]. unfold made. cbn [callsMade]. fold made. cbn zeta.
    destruct (binaryGo isEmpty result u); [|done].
    by rewrite Hr, !callsMade_found.
  - cbn [app]. unfold made. cbn [callsMade]. fold made. cbn zeta.
    destruct (binaryGo isEmpty result u); [|done].
    f_equal. destruct (answer (perform (dataProvider dp0) req)); apply IH.
Qed.

Lemma shaped_FirstFoundWins : FirstFoundWins callBack isEmpty req answer.
Proof.
  intros dps dp later later' mode r Hr Hfound. unfold callBack.
  rewrite !queueProcessResults_callsMade. cbn [dataProviders]. fold made.
  by rewrite (callsMade_first_found dp later later' r Hr Hfound).
Qed.
End BinaryFacts.

(** ** A provider whose calls reject *)

Section RejectFacts.
Context `{Model} {R S : Type}.
Variable step : option R → S → S.
Variable go : option R → S → bool.
Variable request : S → Request.
Variable answer : ∀ s, Promise Error (Response (request s)) → Promise Error R.
Hypothesis step_twice : ∀ result s, step result (step result s) = step result s.

Let callBack := shapedCallBack step go request answer.
Let made := callsMade step go request answer.

Lemma callsMade_step rest result s : made rest result (step result s) = made rest result s.
Proof using step_twice.
  destruct rest as [|dp rest]; [done|].
  unfold made. cbn [callsMade]. cbn zeta. by rewrite step_twice.
Qed.

Lemma callsMade_without dp after :
  (∀ s, responseOf (answer s (perform (dataProvider dp) (request s))) = None) →
  ∀ before result s,
    ∃ made1 madeDp made2,
      made (before ++ dp :: after) result s = made1 ++ madeDp ++ made2 ∧
      made (before ++ after) result s = made1 ++ made2 ∧
      (madeDp = [] ∨ ∃ s', madeDp = [(dp, s')]).
Proof using step_twice.
  intros Hrejects. induction before as [|dp0 before IH]; intros result s.
  - cbn [app]. unfold made at 1. cbn [callsMade]. fold made. cbn zeta.
    destruct (go result (step result s)) eqn:Hgo.
    + exists [], [(dp, step result s)], (made after result s).
      split_and!; [|done|by eauto].
      cbn. f_equal. specialize (Hrejects (step result s)).
      destruct (answer _ _); [done|]. apply callsMade_step.
    + exists [], [], []. split_and!; [done| |by left].
      destruct after as [|dp' after]; [done|].
      unfold made. cbn [callsMade]. cbn zeta. by rewrite Hgo.
  - cbn [app]. unfold made at 1 2. cbn [callsMade]. fold made. cbn zeta.
    destruct (go result (step result s)).
    2:{ exists [], [], []. split_and!; [done|done|by left]. }
    destruct (answer _ _) as [newResult|error].
    + destruct (IH (Some newResult) (step result s)) as (m1 & m & m2 & -> & -> & Hm).
      by exists ((dp0, step result s) :: m1), m, m2.
    + destruct (IH result (step result s)) as (m1 & m & m2 & -> & -> & Hm).
      by exists ((dp0, step result s) :: m1), m, m2.
Qed.

Lemma shaped_RejectingIsAbsent : RejectingIsAbsent callBack request answer.
Proof using step_twice.
  intros before dp after mode captured Hrejects.
  destruct (callsMade_without dp after Hrejects before None captured)
    as (m1 & m & m2 & Hwith & Hwithout & Hm).
  set (invocation := λ call : DPDefinition * S,
         {| calledProvider := call.1; calledWith := request call.2 |}).
  exists (omap (entryOf request answer) (m1 ++ m2)),
    (invocation <$> m1), (invocation <$> m), (invocation <$> m2).
  unfold callBack. rewrite !queueProcessResults_callsMade. cbn [dataProviders]. fold made.
  rewrite Hwith, Hwithout. split_and!.
  - rewrite !fmap_app, !omap_app. do 2 f_equal.
    destruct Hm as [->|[s' ->]]; [done|].
    cbn. unfold entryOf. cbn [fst snd]. specialize (Hrejects s').
    by destruct (answer _ _).
  - by rewrite fmap_app.
  - destruct Hm as [->|[s' ->]]; [by left|right]. by exists s'.
Qed.
End RejectFacts.

(** ** The callbacks of the methods *)

Section CallBackFacts.
Context `{Model}.

Lemma propertyInfo_callBack_shape :
  propertyInfo_callBack
  = shapedCallBack (narrowStep (λ previous id, negb (truthyMember previous id)))
      narrowGo propertyInfoRequest (λ _ promise, promise).
Proof. reflexivity. Qed.

Lemma classInfo_callBack_shape :
  classInfo_callBack
  = shapedCallBack
      (narrowStep (λ previous id,
                     Z.eqb (indexOf (List.map ClassModel_id previous) id) (-1)))
      narrowGo classInfoRequest (λ _ promise, promise).
Proof. reflexivity. Qed.

Lemma linkTypesInfo_callBack_shape :
  linkTypesInfo_callBack
  = shapedCallBack
      (narrowStep (λ previous id,
                     Z.eqb (indexOf (List.map LinkType_id previous) id) (-1)))
      narrowGo linkTypesInfoRequest (λ _ promise, promise).
Proof. reflexivity. Qed.

Lemma elementInfo_callBack_shape :
  elementInfo_callBack
  = shapedCallBack (narrowStep (λ previous id, negb (truthyMember previous id)))
      narrowGo elementInfoRequest (λ _ promise, promise).
Proof. reflexivity. Qed.

Lemma linksInfo_callBack_shape linkTypeIds :
  linksInfo_callBack linkTypeIds
  = shapedCallBack
      (narrowStep (λ previous id,
                     negb (existsb (λ linkModel,
                                      String.eqb (LinkModel_sourceId linkModel) id)
                             previous)))
      narrowGo (λ elementIds, linksInfoRequest elementIds linkTypeIds)
      (λ _ promise, promise).
Proof. reflexivity. Qed.

Lemma linkTypesOf_callBack_shape elementId :
  linkTypesOf_callBack elementId
  = shapedCallBack (λ _ s, s) (binaryGo (λ previous, (length previous =? 0)%nat))
      (λ _, linkTypesOfRequest elementId) (λ _ promise, promise).
Proof. reflexivity. Qed.

Lemma linkElements_callBack_shape params :
  linkElements_callBack params
  = shapedCallBack (λ _ s, s) (binaryGo (λ previous, (keys_length previous =? 0)%nat))
      (λ _, linkElementsRequest params) (λ _ promise, promise).
Proof. reflexivity. Qed.

Lemma filter_callBack_shape params :
  filter_callBack params
  = shapedCallBack (λ _ s, s) (binaryGo (λ previous, (keys_length previous =? 0)%nat))
      (λ _, filterRequest params) (λ _ promise, promise).
Proof. reflexivity. Qed.

(** [d[id]] is truthy when [id] is a key of [d]. *)
Lemma truthy_lookup {A : Type} (previous : Dictionary A) (id : string) :
  truthy (previous !! id) = resolvedByDictionary previous id.
Proof.
  unfold resolvedByDictionary. destruct (previous !! id) eqn:Hid; cbn; symmetry.
  - apply bool_decide_eq_true. apply elem_of_dom. by eexists.
  - apply bool_decide_eq_false. rewrite elem_of_dom, Hid. by intros [? ?].
Qed.

Lemma indexOf_from_spec (l : list string) (x : string) : ∀ i : Z,
  (0 ≤ i)%Z →
  (x ∈ l → (i ≤ indexOf_from l x i)%Z) ∧ (x ∉ l → indexOf_from l x i = (-1)%Z).
Proof.
  induction l as [|y l IH]; intros i Hi; cbn.
  { split; [by intros ?%elem_of_nil|done]. }
  destruct (String.eqb_spec y x) as [->|Hne].
  - split; [lia|]. intros []. left.
  - destruct (IH (i + 1)%Z ltac:(lia)) as [Hin Hout]. split.
    + intros [?|Hx]%elem_of_cons; [congruence|]. specialize (Hin Hx). lia.
    + intros Hx. apply Hout. intros ?. apply Hx. by right.
Qed.

(** [l.indexOf(x) === -1] when [x] is not in [l]. *)
Lemma indexOf_absent (l : list string) (x : string) :
  Z.eqb (indexOf l x) (-1) = negb (bool_decide (x ∈ l)).
Proof.
  destruct (indexOf_from_spec l x 0%Z ltac:(done)) as [Hin Hout]. unfold indexOf.
  case_bool_decide as Hx; cbn.
  - specialize (Hin Hx). apply Z.eqb_neq. lia.
  - rewrite (Hout Hx). done.
Qed.

Lemma existsb_sourceId (previous : list LinkModel) (id : string) :
  existsb (λ linkModel, String.eqb (LinkModel_sourceId linkModel) id) previous
  = resolvedByLinks previous id.
Proof.
  unfold resolvedByLinks. induction previous as [|linkModel previous IH]; [done|].
  cbn. rewrite IH. destruct (String.eqb_spec (LinkModel_sourceId linkModel) id) as [Heq|Hne].
  - cbn. symmetry. apply bool_decide_eq_true. rewrite Heq. left.
  - cbn. apply bool_decide_ext. rewrite elem_of_cons.
    split; [by right|by intros [->|?]].
Qed.

Lemma keys_length_zero {A : Type} (d : Dictionary A) :
  (keys_length d =? 0)%nat = true ↔ d = ∅.
Proof.
  unfold keys_length. rewrite Nat.eqb_eq, length_zero_iff_nil. apply map_to_list_empty_iff.
Qed.

Lemma remainingAfter_ext {R : Type} (keep keep' : R → string → bool) requested earlier :
  (∀ r id, keep r id = keep' r id) →
  remainingAfter keep requested earlier = remainingAfter keep' requested earlier.
Proof.
  intros Hext. unfold remainingAfter. apply List.filter_ext. intros id.
  induction earlier as [|entry earlier IH]; [done|]. cbn. rewrite IH.
  destruct (response entry); by rewrite ?Hext.
Qed.

Lemma NarrowsRequests_ext {R : Type} (callBack : CallBack R (list string))
    (keep keep' : R → string → bool) request answer :
  (∀ r id, keep r id = keep' r id) →
  NarrowsRequests callBack keep request answer →
  NarrowsRequests callBack keep' request answer.
Proof.
  intros Hext Hnarrows dps dp mode requested.
  destruct (Hnarrows dps dp mode requested) as (responses & made & Hearlier & Hlast).
  exists responses, made. split; [done|].
  by rewrite <-(remainingAfter_ext keep keep' requested responses Hext).
Qed.
End CallBackFacts.

(** ** The two merge modes *)

Section ModeFacts.
Context `{Model} `{!MergeUtils}.

(** With the merge mode ['fetchAll'] every method is a call of
    [fetchSequentially] with its own name, parameters and merge function. *)
Lemma fetchAll_callMethod (this : CompositeDataProvider) (req : Request) :
  mergeMode this = "fetchAll" →
  callMethod this req = fetchSequentially this req (mergeFor req).
Proof.
  intros Hmode. destruct req; cbn [callMethod mergeFor]; try done.
  all: unfold propertyInfo, classInfo, linkTypesInfo, elementInfo, linksInfo,
         linkTypesOf, linkElements, filter.
  all: by rewrite decide_True.
Qed.

End ModeFacts.

(** ** Statements about the methods *)

(** A method with a merge mode other than ['fetchAll']. *)
Ltac sequential_method :=
  intros ? captured ?;
  unfold propertyInfo, classInfo, linkTypesInfo, elementInfo, linksInfo,
    linkTypesOf, linkElements, filter;
  rewrite decide_False by done;
  try destruct captured;
  reflexivity.

Section Claims.
Context `{Model} `{!MergeUtils}.

Lemma methods_are_queues : MethodsAreQueues.
Proof.
  unfold MethodsAreQueues.
  split_and!; [| | | |intros params|intros params|intros params|intros params];
    sequential_method.
Qed.

(** C2: with the merge mode ['fetchAll'] the list given to the merge
    function holds the tagged results in the order of registration,
    whatever the order in which the calls of the providers complete; the
    completion order changes neither the list nor the merged result, which
    is the one of the method. *)
Theorem fetchAll_order_of_registration {U : Type} (this : CompositeDataProvider)
    (req : Request) (mergeFunction : list (CompositeResponse (Response req)) → U)
    (completion : list nat) :
  completion ≡ₚ seq 0 (length (dataProviders this)) →
  fetchSequentially_timed this req mergeFunction completion
  = Some (Resolved (mergeFunction (tagged req <$> dataProviders this)))
  ∧ fetchSequentially_timed this req mergeFunction completion
    = Some (fetchSequentially this req mergeFunction).1
  ∧ (mergeMode this = "fetchAll" →
     callMethod this req = fetchSequentially this req (mergeFor req)).
Proof.
  intros Hcompletion.
  assert (fetchSequentially_timed this req mergeFunction completion
          = Some (Resolved (mergeFunction (tagged req <$> dataProviders this)))) as Htimed.
  { unfold fetchSequentially_timed. rewrite processResults_tagged.
    rewrite Promise_all_timed_resolved; [done|]. by rewrite length_fmap. }
  split_and!; [done| |apply fetchAll_callMethod].
  by rewrite Htimed, fetchSequentially_spec.
Qed.

(** C5: whatever the merge mode, [classTree] and [linkTypes] ask every
    registered provider, in the order of registration, and merge the
    tagged results of all of them; the merge mode does not change what
    they do. *)
Theorem classTree_linkTypes_ask_all (dps : list DPDefinition) (mode : string) :
  let this := {| dataProviders := dps; mergeMode := mode |} in
  classTree this
  = (Resolved (mergeClassTree (tagged classTreeRequest <$> dps)),
     callAll dps classTreeRequest)
  ∧ linkTypes this
    = (Resolved (mergeLinkTypes (tagged linkTypesRequest <$> dps)),
       callAll dps linkTypesRequest)
  ∧ classTree this = classTree {| dataProviders := dps; mergeMode := "fetchAll" |}
  ∧ linkTypes this = linkTypes {| dataProviders := dps; mergeMode := "fetchAll" |}.
Proof.
  cbn zeta. unfold classTree, linkTypes. rewrite !fetchSequentially_spec. done.
Qed.

(** Under [sequentialFetching] each of the five narrowing methods asks
    the providers in the order of registration and does not ask a provider
    when no id is left.  [classInfo], [linkTypesInfo] and [linksInfo] ask
    each provider for exactly the requested ids that the results of the
    providers before it do not resolve; [propertyInfo] and [elementInfo]
    leave out, once a provider has answered, the unresolved ids that name
    a member of [Object.prototype] as well. *)
Lemma narrowing_requests :
  MethodsAreQueues
  ∧ NarrowsRequests propertyInfo_callBack
    (λ previous id,
       negb (resolvedByDictionary previous id || bool_decide (id ∈ objectPrototype)))
    propertyInfoRequest (λ _ promise, promise)
  ∧ NarrowsRequests classInfo_callBack
      (λ previous id, negb (resolvedByClasses previous id))
      classInfoRequest (λ _ promise, promise)
  ∧ NarrowsRequests linkTypesInfo_callBack
      (λ previous id, negb (resolvedByLinkTypes previous id))
      linkTypesInfoRequest (λ _ promise, promise)
  ∧ NarrowsRequests elementInfo_callBack
      (λ previous id,
         negb (resolvedByDictionary previous id || bool_decide (id ∈ objectPrototype)))
      elementInfoRequest (λ _ promise, promise)
  ∧ ∀ linkTypeIds,
      NarrowsRequests (linksInfo_callBack linkTypeIds)
        (λ previous id, negb (resolvedByLinks previous id))
        (λ elementIds, linksInfoRequest elementIds linkTypeIds) (λ _ promise, promise).
Proof.
  split_and!; [apply methods_are_queues| | | | |intros linkTypeIds].
  - eapply NarrowsRequests_ext;
      [|rewrite propertyInfo_callBack_shape; apply shaped_NarrowsRequests].
    intros previous id. cbn. unfold truthyMember. by rewrite truthy_lookup.
  - eapply NarrowsRequests_ext;
      [|rewrite classInfo_callBack_shape; apply shaped_NarrowsRequests].
    intros previous id. cbn. apply indexOf_absent.
  - eapply NarrowsRequests_ext;
      [|rewrite linkTypesInfo_callBack_shape; apply shaped_NarrowsRequests].
    intros previous id. cbn. apply indexOf_absent.
  - eapply NarrowsRequests_ext;
      [|rewrite elementInfo_callBack_shape; apply shaped_NarrowsRequests].
    intros previous id. cbn. unfold truthyMember. by rewrite truthy_lookup.
  - eapply NarrowsRequests_ext;
      [|rewrite linksInfo_callBack_shape;
        apply (shaped_NarrowsRequests _
                 (λ elementIds, linksInfoRequest elementIds linkTypeIds))].
    intros previous id. cbn. by rewrite existsb_sourceId.
Qed.

(** C10: under [sequentialFetching] the list a method gives to its merge
    function has exactly one entry for each call of a provider that was
    made and resolved, in the order of registration; a provider whose call
    rejected or that was not called has no entry, and no entry has an
    absent response. *)
Theorem sequentialFetching_entries :
  OneEntryPerResolvedCall propertyInfo mergePropertyInfo
    propertyInfoRequest (λ _ promise, promise)
  ∧ OneEntryPerResolvedCall classInfo mergeClassInfo
      classInfoRequest (λ _ promise, promise)
  ∧ OneEntryPerResolvedCall linkTypesInfo mergeLinkTypesInfo
      linkTypesInfoRequest (λ _ promise, promise)
  ∧ OneEntryPerResolvedCall elementInfo mergeElementInfo
      elementInfoRequest (λ _ promise, promise)
  ∧ (∀ linkTypeIds,
       OneEntryPerResolvedCall (λ this elementIds, linksInfo this elementIds linkTypeIds)
         mergeLinksInfo (λ elementIds, linksInfoRequest elementIds linkTypeIds)
         (λ _ promise, promise))
  ∧ (∀ elementId,
       OneEntryPerResolvedCall (λ this (_ : unit), linkTypesOf this elementId)
         mergeLinkTypesOf (λ _, linkTypesOfRequest elementId) (λ _ promise, promise))
  ∧ (∀ params,
       OneEntryPerResolvedCall (λ this (_ : unit), linkElements this params)
         mergeLinkElements (λ _, linkElementsRequest params) (λ _ promise, promise))
  ∧ (∀ params,
       OneEntryPerResolvedCall (λ this (_ : unit), filter this params)
         mergeFilter (λ _, filterRequest params) (λ _ promise, promise)).
Proof.
  split_and!; [| | | |intros params|intros params|intros params|intros params].
  all: destruct methods_are_queues as (H1 & H2 & H3 & H4 & H5 & H6 & H7 & H8).
  - rewrite propertyInfo_callBack_shape in H1.
    eapply shaped_OneEntryPerResolvedCall, H1.
  - rewrite classInfo_callBack_shape in H2.
    eapply shaped_OneEntryPerResolvedCall, H2.
  - rewrite linkTypesInfo_callBack_shape in H3.
    eapply shaped_OneEntryPerResolvedCall, H3.
  - rewrite elementInfo_callBack_shape in H4.
    eapply shaped_OneEntryPerResolvedCall, H4.
  - specialize (H5 params). rewrite linksInfo_callBack_shape in H5.
    eapply (shaped_OneEntryPerResolvedCall _ _
              (λ elementIds, linksInfoRequest elementIds params)), H5.
  - specialize (H6 params). rewrite linkTypesOf_callBack_shape in H6.
    eapply (shaped_OneEntryPerResolvedCall _ _ (λ _, linkTypesOfRequest params)), H6.
  - specialize (H7 params). rewrite linkElements_callBack_shape in H7.
    eapply (shaped_OneEntryPerResolvedCall _ _ (λ _, linkElementsRequest params)), H7.
  - specialize (H8 params). rewrite filter_callBack_shape in H8.
    eapply (shaped_OneEntryPerResolvedCall _ _ (λ _, filterRequest params)), H8.
Qed.

End Claims.

(** ** Merging dictionaries: the first registered provider wins *)

Section MergeFacts.
Context {T : Type}.
Implicit Types (responses : list (CompositeResponse (Dictionary T))).

Let add (merged : Dictionary T) (entry : CompositeResponse (Dictionary T)) :=
  match response entry with
  | Some payload => merged ∪ payload
  | None => merged
  end.

Lemma merge_keeps_member responses : ∀ (merged : Dictionary T) key value,
  merged !! key = Some value → foldl add merged responses !! key = Some value.
Proof.
  induction responses as [|entry responses IH]; intros merged key value Hkey; [done|].
  cbn. apply IH. unfold add. destruct (response entry); [|done].
  by apply lookup_union_Some_l.
Qed.

Lemma merge_first_member responses : ∀ (merged : Dictionary T) i entry payload key value,
  merged !! key = None →
  responses !! i = Some entry →
  response entry = Some payload →
  payload !! key = Some value →
  (∀ j earlier p, j < i → responses !! j = Some earlier →
                  response earlier = Some p → p !! key = None) →
  foldl add merged responses !! key = Some value.
Proof.
  induction responses as [|entry0 responses IH];
    intros merged i entry payload key value Hnone Hi Hentry Hkey Hearlier; [done|].
  destruct i as [|i]; cbn in Hi |- *.
  - simplify_eq. apply merge_keeps_member. unfold add. rewrite Hentry.
    by rewrite lookup_union_r.
  - apply (IH _ i entry payload); try done.
    + unfold add. destruct (response entry0) as [p0|] eqn:Hp0; [|done].
      apply lookup_union_None. split; [done|].
      apply (Hearlier 0 entry0 p0); [lia|done|done].
    + intros j earlier p Hj. apply (Hearlier (S j)). lia.
Qed.

Lemma mergeDictionaries_first responses i entry payload key value :
  responses !! i = Some entry →
  response entry = Some payload →
  payload !! key = Some value →
  (∀ j earlier p, j < i → responses !! j = Some earlier →
                  response earlier = Some p → p !! key = None) →
  mergeDictionaries responses !! key = Some value.
Proof. apply merge_first_member. apply lookup_empty. Qed.
End MergeFacts.

Section MoreClaims.
Context `{Model} `{!MergeUtils}.

Lemma mergeDictionaries_providers {T : Type}
    (tag : DPDefinition → CompositeResponse (Dictionary T)) dps i dp payload key value :
  dps !! i = Some dp →
  response (tag dp) = Some payload →
  payload !! key = Some value →
  (∀ j earlier p, j < i → dps !! j = Some earlier →
                  response (tag earlier) = Some p → p !! key = None) →
  mergeDictionaries (tag <$> dps) !! key = Some value.
Proof.
  intros Hi Hpayload Hkey Hearlier.
  eapply (mergeDictionaries_first _ i); [| |exact Hkey|].
  - by rewrite list_lookup_fmap, Hi.
  - done.
  - intros j earlier p Hj Hearlier_j Hp. rewrite list_lookup_fmap in Hearlier_j.
    destruct (dps !! j) as [dp'|] eqn:Hdp'; [|done]. cbn in Hearlier_j.
    simplify_eq. by apply (Hearlier j dp' p).
Qed.

(** C6: where two tagged results have a payload for the same key, the
    merged dictionary has the member of the one that comes first; for
    [propertyInfo], [elementInfo], [linkElements] and [filter], when every
    provider is asked, that is the payload of the provider registered
    first among those whose payload has the key, and the payloads of the
    providers after it for that key are dropped. *)
Theorem first_registered_provider_wins :
  (∀ (T : Type) (responses : list (CompositeResponse (Dictionary T))) i entry payload
     key value,
     responses !! i = Some entry →
     response entry = Some payload →
     payload !! key = Some value →
     (∀ j earlier p, j < i → responses !! j = Some earlier →
                     response earlier = Some p → p !! key = None) →
     mergeDictionaries responses !! key = Some value)
  ∧ (mergePropertyInfo = mergeDictionaries →
     ∀ propertyIds,
       FirstRegisteredWins (λ this, propertyInfo this propertyIds)
         (λ dp, responseOf (perform (dataProvider dp) (propertyInfoRequest propertyIds))))
  ∧ (mergeElementInfo = mergeDictionaries →
     ∀ elementIds,
       FirstRegisteredWins (λ this, elementInfo this elementIds)
         (λ dp, responseOf (perform (dataProvider dp) (elementInfoRequest elementIds))))
  ∧ (mergeLinkElements = mergeDictionaries →
     ∀ params,
       FirstRegisteredWins (λ this, linkElements this params)
         (λ dp, responseOf (perform (dataProvider dp) (linkElementsRequest params))))
  ∧ (mergeFilter = mergeDictionaries →
     ∀ params,
       FirstRegisteredWins (λ this, filter this params)
         (λ dp, responseOf (perform (dataProvider dp) (filterRequest params)))).
Proof.
  split_and!.
  - intros T. apply mergeDictionaries_first.
  - intros Hmerge propertyIds dps i dp payload key value Hi Hpayload Hkey Hearlier.
    unfold propertyInfo. rewrite decide_True, Hmerge, fetchSequentially_spec by done.
    eexists. split; [done|].
    by apply (mergeDictionaries_providers (tagged (propertyInfoRequest propertyIds))
                dps i dp payload).
  - intros Hmerge elementIds dps i dp payload key value Hi Hpayload Hkey Hearlier.
    unfold elementInfo. rewrite decide_True, Hmerge, fetchSequentially_spec by done.
    eexists. split; [done|].
    by apply (mergeDictionaries_providers (tagged (elementInfoRequest elementIds))
                dps i dp payload).
  - intros Hmerge params dps i dp payload key value Hi Hpayload Hkey Hearlier.
    unfold linkElements. rewrite decide_True, Hmerge, fetchSequentially_spec by done.
    eexists. split; [done|].
    by apply (mergeDictionaries_providers (tagged (linkElementsRequest params))
                dps i dp payload).
  - intros Hmerge params dps i dp payload key value Hi Hpayload Hkey Hearlier.
    unfold filter. rewrite decide_True, Hmerge, fetchSequentially_spec by done.
    eexists. split; [done|].
    by apply (mergeDictionaries_providers (tagged (filterRequest params))
                dps i dp payload).
Qed.
End MoreClaims.

(** ** The constructor *)

Section ConstructorFacts.
Context `{Model} `{!MergeUtils}.

Lemma nameProviders_length l : ∀ dpCounter, length (nameProviders dpCounter l) = length l.
Proof.
  induction l as [|[p|d] l IH]; intros dpCounter; cbn; by rewrite ?IH.
Qed.

Lemma nameProviders_lookup l : ∀ dpCounter i,
  (∀ d, l !! i = Some (definition d) → nameProviders dpCounter l !! i = Some d)
  ∧ (∀ p, l !! i = Some (bareProvider p) →
          nameProviders dpCounter l !! i
          = Some {| name := "dataProvider_" +:+ pretty (dpCounter + bareBefore l i);
                    dataProvider := p |}).
Proof.
  induction l as [|dp l IH]; intros dpCounter i; [done|].
  destruct i as [|i].
  - unfold bareBefore. cbn. rewrite Nat.add_0_r.
    destruct dp as [p|d]; split; intros ? [=]; by subst.
  - destruct dp as [p|d]; cbn [nameProviders].
    + destruct (IH (S dpCounter) i) as [Hdefinition Hbare].
      split; [done|]. intros p' Hp'. etrans; [apply (Hbare p' Hp')|].
      unfold bareBefore. cbn. do 4 f_equal. lia.
    + apply (IH dpCounter i).
Qed.

(** The merge mode is only ever compared with ['fetchAll']. *)
Lemma other_mode_is_sequential dps mode req :
  mode ≠ "fetchAll" →
  callMethod {| dataProviders := dps; mergeMode := mode |} req
  = callMethod {| dataProviders := dps; mergeMode := "sequentialFetching" |} req.
Proof.
  intros Hmode. destruct req; cbn [callMethod]; try done.
  all: unfold propertyInfo, classInfo, linkTypesInfo, elementInfo, linksInfo,
         linkTypesOf, linkElements, filter.
  all: cbn [mergeMode]; by rewrite !decide_False.
Qed.

Lemma no_provider_merges_nothing mode req :
  (callMethod {| dataProviders := []; mergeMode := mode |} req).1
  = Resolved (mergeFor req []).
Proof.
  destruct req; cbn [callMethod mergeFor]; try done.
  all: unfold propertyInfo, classInfo, linkTypesInfo, elementInfo, linksInfo,
         linkTypesOf, linkElements, filter.
  all: by destruct (decide _).
Qed.

(** C8, as the code has it: the constructor never fails.  It accepts an
    empty list of providers (every method then resolves with the merge of
    no result) and any merge mode (a mode other than ['fetchAll'] makes
    the methods behave as with ['sequentialFetching']).  A definition is
    kept as it is; the bare providers are named [dataProvider_1],
    [dataProvider_2], ... in the order of the list, counting the bare
    providers only.  Without a merge mode, the mode is ['fetchAll']. *)
Theorem constructor_never_fails (providers : list ProviderOrDefinition)
    (params : option (option string)) :
  ∃ this,
    new_CompositeDataProvider providers params = Normal this
    ∧ length (dataProviders this) = length providers
    ∧ (∀ i d, providers !! i = Some (definition d) → dataProviders this !! i = Some d)
    ∧ (∀ i p, providers !! i = Some (bareProvider p) →
              dataProviders this !! i
              = Some {| name := "dataProvider_" +:+ pretty (1 + bareBefore providers i);
                        dataProvider := p |})
    ∧ (params = None ∨ params = Some None ∨ params = Some (Some "") →
       mergeMode this = "fetchAll")
    ∧ (∀ mode, params = Some (Some mode) → mode ≠ "" → mergeMode this = mode)
    ∧ (mergeMode this ≠ "fetchAll" →
       ∀ req, callMethod this req
              = callMethod {| dataProviders := dataProviders this;
                              mergeMode := "sequentialFetching" |} req)
    ∧ (providers = [] →
       ∀ req, (callMethod this req).1 = Resolved (mergeFor req [])).
Proof.
  eexists. split; [reflexivity|]. cbn [dataProviders mergeMode]. split_and!.
  - apply nameProviders_length.
  - intros i. apply nameProviders_lookup.
  - intros i. apply nameProviders_lookup.
  - by intros [->|[->| ->]].
  - intros mode -> Hmode. by rewrite decide_False.
  - intros Hmode req. by apply other_mode_is_sequential.
  - intros -> req. apply no_provider_merges_nothing.
Qed.

End ConstructorFacts.

(** ** Worked examples *)

Section WorkedExamples.
Local Existing Instance exampleModel.
Local Existing Instance exampleMerge.

(** [elementInfo] for the ids 1, 2 and 3 when provider A, registered
    first, resolves 1 and 2: provider B is asked for 3 only. *)
Example elementInfo_asks_B_for_3 :
  (elementInfo (sequential [providerA; providerB]) ["1"; "2"; "3"]).2
  = [{| calledProvider := providerA; calledWith := elementInfoRequest ["1"; "2"; "3"] |};
     {| calledProvider := providerB; calledWith := elementInfoRequest ["3"] |}].
Proof. reflexivity. Qed.

(** When provider A resolves all three ids, provider B is not asked. *)
Example elementInfo_does_not_ask_B :
  (elementInfo (sequential [providerAll; providerB]) ["1"; "2"; "3"]).2
  = [{| calledProvider := providerAll;
        calledWith := elementInfoRequest ["1"; "2"; "3"] |}].
Proof. reflexivity. Qed.

(** C3 fails on the code for [elementInfo] (and [propertyInfo]) at ids
    that name a member of [Object.prototype].  Asked for [constructor] and
    [3], the first provider resolves with an empty dictionary, so neither
    id is resolved, yet the second provider is asked for [3] only: the test
    [!previousResult[id]] finds the inherited member [constructor].
    [classInfo], which compares ids, asks the second provider for both. *)
Theorem elementInfo_drops_an_unresolved_id :
  responseOf (perform (dataProvider providerNone) (elementInfoRequest ["constructor"; "3"]))
  = Some ∅
  ∧ (elementInfo (sequential [providerNone; providerB]) ["constructor"; "3"]).2
    = [{| calledProvider := providerNone;
          calledWith := elementInfoRequest ["constructor"; "3"] |};
       {| calledProvider := providerB; calledWith := elementInfoRequest ["3"] |}]
  ∧ (propertyInfo (sequential [providerNone; providerB]) ["constructor"; "3"]).2
    = [{| calledProvider := providerNone;
          calledWith := propertyInfoRequest ["constructor"; "3"] |};
       {| calledProvider := providerB; calledWith := propertyInfoRequest ["3"] |}]
  ∧ (classInfo (sequential [providerNone; providerB]) ["constructor"; "3"]).2
    = [{| calledProvider := providerNone;
          calledWith := classInfoRequest ["constructor"; "3"] |};
       {| calledProvider := providerB;
          calledWith := classInfoRequest ["constructor"; "3"] |}].
Proof. split_and!; reflexivity. Qed.

(** [filter]: provider A resolves with a dictionary that is not empty, so
    provider B is not asked; a provider that is down or finds nothing
    before A does not change that. *)
Example filter_stops_at_A :
  (filter (sequential [providerDown; providerNone; providerA; providerB]) "text").2
  = [{| calledProvider := providerDown; calledWith := filterRequest "text" |};
     {| calledProvider := providerNone; calledWith := filterRequest "text" |};
     {| calledProvider := providerA; calledWith := filterRequest "text" |}].
Proof. reflexivity. Qed.

(** Both providers know the id 2; the merged dictionary has the member of
    A, which is registered first. *)
Example elementInfo_2_is_of_A :
  ∃ merged,
    (elementInfo (fetchingAll [providerA; providerB]) ["1"; "2"; "3"]).1 = Resolved merged
    ∧ merged !! "2" = Some "two of A"
    ∧ merged !! "3" = Some "three of B".
Proof. eexists. split; [reflexivity|]. by vm_compute. Qed.

Lemma fetchAll_order_witness :
  fetchSequentially_timed (fetchingAll [providerA; providerB])
    (elementInfoRequest ["1"; "2"; "3"]) mergeDictionaries [1; 0]
  = Some (Resolved
            (mergeDictionaries
               (tagged (elementInfoRequest ["1"; "2"; "3"]) <$> [providerA; providerB]))).
Proof.
  apply (fetchAll_order_of_registration (fetchingAll [providerA; providerB])
           (elementInfoRequest ["1"; "2"; "3"]) mergeDictionaries [1; 0]).
  apply perm_swap.
Defined.

Lemma sequentialFetching_entries_witness :
  ∃ callsMade : list (DPDefinition * list string),
    sublist callsMade.*1 [providerDown; providerA; providerB] ∧
    Forall (λ entry, is_Some (response entry))
      (omap (entryOf elementInfoRequest (λ _ promise, promise)) callsMade) ∧
    elementInfo (sequential [providerDown; providerA; providerB]) ["1"; "2"; "3"]
    = (Resolved (mergeElementInfo
                   (omap (entryOf elementInfoRequest (λ _ promise, promise)) callsMade)),
       (λ call, {| calledProvider := call.1; calledWith := elementInfoRequest call.2 |})
         <$> callsMade).
Proof.
  destruct sequentialFetching_entries as (_ & _ & _ & HelementInfo & _).
  apply (HelementInfo (sequential [providerDown; providerA; providerB])).
  by vm_compute.
Defined.

(** With [sequentialFetching] the provider that is down has no entry in
    the list given to the merge function, which is not the list of the
    tagged results of all providers. *)
Lemma rejecting_provider_has_no_entry :
  let this := sequential [providerDown; providerB] in
  ∃ responses made,
    queueProcessResults elementInfo_callBack this ["3"] = (Resolved responses, made)
    ∧ elementInfo this ["3"] = (Resolved (mergeElementInfo responses), made)
    ∧ dataSourceName <$> responses = ["B"]
    ∧ dataSourceName <$> (tagged (elementInfoRequest ["3"]) <$> dataProviders this)
      = ["down"; "B"]
    ∧ responses ≠ tagged (elementInfoRequest ["3"]) <$> dataProviders this.
Proof.
  eexists _, _. split_and!; [reflexivity|reflexivity|reflexivity|reflexivity|].
  intros Hsame. apply (f_equal length) in Hsame. by vm_compute in Hsame.
Qed.

Lemma first_registered_witness :
  mergeDictionaries
    [{| dataSourceName := "A"; response := Some ({["2" := "two of A"]} : Dictionary string) |};
     {| dataSourceName := "B"; response := Some {["2" := "two of B"]} |}] !! "2"
  = Some "two of A".
Proof.
  destruct first_registered_provider_wins as [Hmerge _].
  apply (Hmerge string _ 0 {| dataSourceName := "A"; response := Some {["2" := "two of A"]} |}
           {["2" := "two of A"]}).
  - reflexivity.
  - reflexivity.
  - by vm_compute.
  - intros j earlier p Hj. lia.
Defined.

(** The constructor accepts an empty list and a merge mode that is none of
    the two, and names bare providers [dataProvider_1], [dataProvider_2]. *)
Lemma constructor_accepts_anything :
  new_CompositeDataProvider [] None
  = Normal {| dataProviders := []; mergeMode := "fetchAll" |}
  ∧ new_CompositeDataProvider [] (Some (Some "no such mode"))
    = Normal {| dataProviders := []; mergeMode := "no such mode" |}
  ∧ (∀ error, new_CompositeDataProvider [] None ≠ Throw error)
  ∧ (∀ error, new_CompositeDataProvider [] (Some (Some "no such mode")) ≠ Throw error)
  ∧ new_CompositeDataProvider
      [bareProvider unreachable; definition providerA; bareProvider (knowing [])] None
    = Normal {| dataProviders :=
                  [{| name := "dataProvider_1"; dataProvider := unreachable |};
                   providerA;
                   {| name := "dataProvider_2"; dataProvider := knowing [] |}];
                mergeMode := "fetchAll" |}.
Proof. split_and!; [reflexivity|reflexivity|done|done|by vm_compute]. Qed.

Lemma constructor_witness :
  ∃ this,
    new_CompositeDataProvider [bareProvider unreachable] (Some (Some "anything"))
    = Normal this
    ∧ mergeMode this = "anything"
    ∧ dataProviders this !! 0
      = Some {| name := "dataProvider_" +:+ pretty (1 + bareBefore [bareProvider unreachable] 0);
                dataProvider := unreachable |}.
Proof.
  destruct (constructor_never_fails [bareProvider unreachable] (Some (Some "anything")))
    as (this & Hnew & _ & _ & Hbare & _ & Hmode & _).
  exists this. split_and!; [done| |].
  - by apply (Hmode "anything").
  - by apply (Hbare 0 unreachable).
Defined.
End WorkedExamples.

(** ** Parameter objects: who is handed which object *)

Section ObjectFacts.
Context `{Model} {R : Type}.
Implicit Types (heap : list Objects.Cell) (dp : Objects.Provider (R := R)).

Lemma write1_length heap w : length (Objects.write1 heap w) = length heap.
Proof.
  destruct w as [address elements|address field value]; cbn.
  - destruct (heap !! address) as [[]|]; by rewrite ?length_insert.
  - destruct (heap !! address) as [[]|]; by rewrite ?length_insert.
Qed.

Lemma write_length writes : ∀ heap, length (Objects.write heap writes) = length heap.
Proof.
  induction writes as [|w writes IH]; intros heap; [done|].
  cbn. unfold Objects.write in IH. by rewrite IH, write1_length.
Qed.

Lemma write1_other heap w address :
  address ≠ Objects.target w → Objects.write1 heap w !! address = heap !! address.
Proof.
  intros Hne. destruct w as [a elements|a field value]; cbn in *.
  - destruct (heap !! a) as [[]|]; by rewrite ?list_lookup_insert_ne.
  - destruct (heap !! a) as [[]|]; by rewrite ?list_lookup_insert_ne.
Qed.

Lemma write_other writes : ∀ heap address,
  address ∉ Objects.target <$> writes →
  Objects.write heap writes !! address = heap !! address.
Proof.
  induction writes as [|w writes IH]; intros heap address Hout; [done|].
  cbn in *. apply not_elem_of_cons in Hout as [Hne Hout].
  unfold Objects.write in IH. by rewrite IH, write1_other.
Qed.

Lemma untouched_refl heap (calls : list Objects.Call) : Objects.untouched heap heap calls.
Proof. by intros address cell Hcell _. Qed.

Lemma untouched_trans heap1 heap2 heap3 (calls1 calls2 : list Objects.Call) :
  Objects.untouched heap1 heap2 calls1 →
  Objects.untouched heap2 heap3 calls2 →
  Objects.untouched heap1 heap3 (calls1 ++ calls2).
Proof.
  intros H12 H23 address cell Hcell Hout. apply H23.
  - apply H12; [done|]. intros call Hcall. apply Hout, elem_of_app. by left.
  - intros call Hcall. apply Hout, elem_of_app. by right.
Qed.

Lemma untouched_alloc heap (new : list Objects.Cell) :
  Objects.untouched heap (heap ++ new) ([] : list Objects.Call).
Proof. intros address cell Hcell _. by apply lookup_app_l_Some. Qed.

(** A call hands on the address it is given, keeps the size of the heap,
    and changes only the cells the provider writes to. *)
Lemma invoke_spec dp params heap heap' promise call :
  Objects.invoke dp params heap = (heap', promise, call) →
  Objects.passed call = params
  ∧ Objects.calledProvider call = Objects.providerName dp
  ∧ length heap' = length heap
  ∧ Objects.untouched heap heap' [call].
Proof.
  unfold Objects.invoke. destruct (Objects.method dp params heap) as [writes p].
  intros [= <- <- <-]. cbn. split_and!; [done|done|apply write_length|].
  intros address cell Hcell Hout. rewrite write_other; [done|].
  apply (Hout {| Objects.calledProvider := Objects.providerName dp;
                 Objects.passed := params; Objects.wrote := writes |}). left.
Qed.

(** [fetchSequentially] hands the caller's object to every provider. *)
Lemma mapProviders_spec params (dps : list (Objects.Provider (R := R))) :
  ∀ heap heap' resultPromises calls,
  Objects.mapProviders dps params heap = (heap', resultPromises, calls) →
  Objects.passed <$> calls = replicate (length dps) params
  ∧ Objects.calledProvider <$> calls = Objects.providerName <$> dps
  ∧ length heap' = length heap
  ∧ Objects.untouched heap heap' calls.
Proof.
  induction dps as [|dp dps IH]; intros heap heap' resultPromises calls.
  { intros [= <- <- <-]. split_and!; [done|done|done|apply untouched_refl]. }
  cbn [Objects.mapProviders].
  destruct (Objects.invoke dp params heap) as [[heap1 promise] call] eqn:Hinvoke.
  destruct (Objects.mapProviders dps params heap1) as [[heap2 promises] calls2] eqn:Hrest.
  intros [= <- <- <-].
  destruct (invoke_spec _ _ _ _ _ _ Hinvoke) as (Hpassed & Hname & Hlen1 & Hframe1).
  destruct (IH _ _ _ _ Hrest) as (Hpassed2 & Hnames2 & Hlen2 & Hframe2).
  cbn. split_and!.
  - by rewrite Hpassed, Hpassed2.
  - by rewrite Hname, Hnames2.
  - by rewrite Hlen2.
  - by apply (untouched_trans heap heap1 heap2 [call] calls2).
Qed.

(** *** [queueProcessResults] *)

Lemma recursiveCall_behaved {S : Type} handed (callBack : Objects.CallBack (R := R) S) :
  Objects.behaved handed callBack →
  ∀ rest result (q : Objects.Queue (R := R) S) promise q',
    Objects.recursiveCall callBack rest result q = (promise, q') →
    ∃ new steps,
      Objects.calls q' = Objects.calls q ++ new
      ∧ length (Objects.cells q) ≤ length (Objects.cells q')
      ∧ Objects.untouched (Objects.cells q) (Objects.cells q') new
      ∧ Forall2 (λ call (sizes : nat * nat),
                   handed sizes.1 sizes.2 (Objects.passed call)) new steps
      ∧ (∀ i j (a b : nat * nat), i < j → steps !! i = Some a → steps !! j = Some b →
                                  a.2 ≤ b.1)
      ∧ Forall (λ sizes : nat * nat, length (Objects.cells q) ≤ sizes.1) steps.
Proof.
  intros Hbehaved. induction rest as [|dp rest IH]; intros result q promise q'.
  { intros [= <- <-]. exists [], []. rewrite app_nil_r.
    split_and!; [done|done|apply untouched_refl|constructor| |constructor].
    by intros i j a b _ ?. }
  cbn [Objects.recursiveCall].
  destruct (callBack result dp (Objects.closure q) (Objects.cells q))
    as [[s heap1] callBackResult] eqn:HcallBack.
  destruct (Hbehaved _ _ _ _ _ _ _ HcallBack) as [Hgrows Hresult].
  destruct callBackResult as [[p call]|].
  2:{ intros [= <- <-]. exists [], []. cbn. rewrite app_nil_r.
      split_and!; [done|done|done|constructor| |constructor].
      by intros i j a b _ ?. }
  destruct Hresult as [Hhanded Hframe].
  set (q1 := λ responses,
         ({| Objects.responseList := responses; Objects.closure := s;
             Objects.cells := heap1;
             Objects.calls := Objects.calls q ++ [call] |} : Objects.Queue (R := R) S)).
  assert (∀ result1 responses,
            Objects.recursiveCall callBack rest result1 (q1 responses) = (promise, q') →
            ∃ new steps,
              Objects.calls q' = Objects.calls q ++ new
              ∧ length (Objects.cells q) ≤ length (Objects.cells q')
              ∧ Objects.untouched (Objects.cells q) (Objects.cells q') new
              ∧ Forall2 (λ call (sizes : nat * nat),
                           handed sizes.1 sizes.2 (Objects.passed call)) new steps
              ∧ (∀ i j (a b : nat * nat), i < j → steps !! i = Some a →
                                          steps !! j = Some b → a.2 ≤ b.1)
              ∧ Forall (λ sizes : nat * nat, length (Objects.cells q) ≤ sizes.1) steps)
    as Hrest.
  { intros result1 responses Hrun.
    destruct (IH _ _ _ _ Hrun) as (new & steps & Hcalls & Hlen & Hframe' & Hhandeds & Hsteps & Hall).
    cbn in Hcalls, Hlen, Hframe', Hall.
    exists (call :: new), ((length (Objects.cells q), length heap1) :: steps).
    split_and!.
    - by rewrite Hcalls, <-app_assoc.
    - lia.
    - by apply (untouched_trans _ heap1 _ [call] new).
    - by constructor.
    - intros [|i] [|j] a b Hij Ha Hb; cbn in *; simplify_eq; [lia| |lia|].
      + rewrite Forall_lookup in Hall. by apply (Hall j b).
      + apply (Hsteps i j); [lia|done|done].
    - constructor; [done|]. eapply Forall_impl; [exact Hall|]. cbn. lia. }
  destruct p as [newResult|error]; apply Hrest.
Qed.
End ObjectFacts.

Section ObjectClaims.
Context `{Model} {R : Type}.
Implicit Types (heap : list Objects.Cell) (dps : list (Objects.Provider (R := R))).

Lemma binary_callBack_behaved (isEmpty : R → bool) (params : nat) :
  Objects.behaved (λ _ _ address, address = params)
    (Objects.binary_callBack isEmpty params).
Proof.
  intros previousResult dp s heap s' heap' callBackResult. unfold Objects.binary_callBack.
  destruct (match previousResult with Some previous => isEmpty previous | None => true end).
  - destruct (Objects.invoke dp params heap) as [[heap1 promise] call] eqn:Hinvoke.
    intros [= <- <- <-].
    destruct (invoke_spec _ _ _ _ _ _ Hinvoke) as (Hpassed & _ & Hlen & Hframe).
    split; [lia|done].
  - intros [= <- <- <-]. split; [done|apply untouched_refl].
Qed.

Lemma narrowing_callBack_behaved field others (keep : R → string → bool) (params : nat) :
  Objects.behaved (λ before after address, before ≤ address < after)
    (Objects.narrowing_callBack field others keep params).
Proof.
  intros previousResult dp ids heap s' heap' callBackResult.
  unfold Objects.narrowing_callBack. cbn zeta.
  destruct (0 <? length _)%nat.
  - destruct (Objects.invoke dp _ _) as [[heap1 promise] call] eqn:Hinvoke.
    intros [= <- <- <-].
    destruct (invoke_spec _ _ _ _ _ _ Hinvoke) as (Hpassed & _ & Hlen & Hframe).
    rewrite !length_app in Hlen. rewrite !length_app in Hpassed. cbn in Hlen, Hpassed.
    split_and!; [lia|lia|lia|].
    rewrite <-app_assoc in Hframe.
    eapply (untouched_trans heap _ heap1 [] [call]); [apply untouched_alloc|exact Hframe].
  - intros [= <- <- <-]. rewrite length_app. split; [lia|apply untouched_alloc].
Qed.

Lemma queueProcessResults_behaved {S : Type} handed (callBack : Objects.CallBack (R := R) S)
    dps captured heap heap' promise calls :
  Objects.behaved handed callBack →
  Objects.queueProcessResults callBack dps captured heap = (heap', promise, calls) →
  ∃ steps,
    Objects.untouched heap heap' calls
    ∧ Forall2 (λ call (sizes : nat * nat),
                 handed sizes.1 sizes.2 (Objects.passed call)) calls steps
    ∧ (∀ i j (a b : nat * nat), i < j → steps !! i = Some a → steps !! j = Some b →
                                a.2 ≤ b.1)
    ∧ Forall (λ sizes : nat * nat, length heap ≤ sizes.1) steps.
Proof.
  intros Hbehaved. unfold Objects.queueProcessResults.
  destruct (Objects.recursiveCall _ _ _ _) as [p q'] eqn:Hrun. intros [= <- <- <-].
  destruct (recursiveCall_behaved handed callBack Hbehaved _ _ _ _ _ Hrun)
    as (new & steps & Hcalls & _ & Hframe & Hhanded & Hsteps & Hall).
  cbn in Hcalls, Hframe, Hall. rewrite Hcalls. by exists steps.
Qed.

(** Addresses handed out by callbacks that each hand out an address between
    the sizes of the heap before and after them are all different. *)
Lemma handed_fresh (calls : list Objects.Call) (steps : list (nat * nat)) (size : nat) :
  Forall2 (λ call (sizes : nat * nat), sizes.1 ≤ Objects.passed call < sizes.2) calls steps →
  (∀ i j (a b : nat * nat), i < j → steps !! i = Some a → steps !! j = Some b → a.2 ≤ b.1) →
  Forall (λ sizes : nat * nat, size ≤ sizes.1) steps →
  Forall (λ call, size ≤ Objects.passed call) calls ∧ NoDup (Objects.passed <$> calls).
Proof.
  intros Hhanded. revert size.
  induction Hhanded as [|call sizes calls steps Hcall Hhanded IH]; intros size Hsteps Hall.
  { split; [constructor|cbn; constructor]. }
  apply Forall_cons in Hall as [Hsize Hall].
  destruct (IH sizes.2) as [Hlater Hnodup].
  { intros i j a b Hij Ha Hb. apply (Hsteps (S i) (S j)); [lia|done|done]. }
  { apply Forall_lookup. intros j b Hb. apply (Hsteps 0 (S j) sizes b); [lia|done|done]. }
  split.
  - constructor; [lia|]. eapply Forall_impl; [exact Hlater|]. cbn. lia.
  - cbn. constructor; [|done]. intros Hin.
    apply list_elem_of_fmap in Hin as (later & Heq & Hin).
    rewrite Forall_forall in Hlater. specialize (Hlater later Hin). lia.
Qed.

(** C7, as the code has it: the composite provider itself never writes to
    an object of the caller: a cell that was there before a method was
    called and that no provider wrote to is unchanged after it.  With the
    merge mode ['fetchAll'] every method, and with any merge mode the
    found-or-empty methods, hand the caller's parameter object itself to
    every provider they call.  Under [sequentialFetching] the narrowing
    methods hand each provider they call an object made for that call:
    it did not exist before the method was called, it is not the caller's,
    and no two calls get the same. *)
Theorem parameter_objects_handed_on :
  (∀ (U : Type) dps (mergeFunction : list (CompositeResponse R) → U) params heap
     heap' promise calls,
     Objects.fetchSequentially dps mergeFunction params heap = (heap', promise, calls) →
     Objects.passed <$> calls = replicate (length dps) params
     ∧ Objects.calledProvider <$> calls = Objects.providerName <$> dps
     ∧ Objects.untouched heap heap' calls)
  ∧ (∀ (U : Type) isEmpty (mergeFunction : list (CompositeResponse R) → U) mergeMode
       dps params heap heap' promise calls,
       Objects.binaryMethod isEmpty mergeFunction mergeMode dps params heap
       = (heap', promise, calls) →
       Forall (λ call, Objects.passed call = params) calls
       ∧ Objects.untouched heap heap' calls)
  ∧ (∀ (U : Type) field others keep (mergeFunction : list (CompositeResponse R) → U)
       mergeMode dps params heap heap' promise calls,
       Objects.narrowingMethod field others keep mergeFunction mergeMode dps params heap
       = Some (heap', promise, calls) →
       Objects.untouched heap heap' calls
       ∧ (mergeMode = "fetchAll" →
          Forall (λ call, Objects.passed call = params) calls)
       ∧ (mergeMode ≠ "fetchAll" →
          params < length heap
          ∧ Forall (λ call, length heap ≤ Objects.passed call) calls
          ∧ NoDup (Objects.passed <$> calls))).
Proof.
  assert (∀ (U : Type) dps (mergeFunction : list (CompositeResponse R) → U) params heap
            heap' promise calls,
            Objects.fetchSequentially dps mergeFunction params heap = (heap', promise, calls) →
            Objects.passed <$> calls = replicate (length dps) params
            ∧ Objects.calledProvider <$> calls = Objects.providerName <$> dps
            ∧ Objects.untouched heap heap' calls) as HfetchAll.
  { intros U dps mergeFunction params heap heap' promise calls.
    unfold Objects.fetchSequentially.
    destruct (Objects.mapProviders dps params heap) as [[heap1 promises] calls1] eqn:Hmap.
    intros [= <- <- <-].
    destruct (mapProviders_spec _ _ _ _ _ _ Hmap) as (Hpassed & Hnames & _ & Hframe).
    done. }
  assert (∀ (calls : list Objects.Call) n params,
            Objects.passed <$> calls = replicate n params →
            Forall (λ call, Objects.passed call = params) calls) as Hsame.
  { intros calls n params Hpassed. apply Forall_forall. intros call Hcall.
    apply (list_elem_of_fmap_2 Objects.passed) in Hcall. rewrite Hpassed in Hcall.
    by apply elem_of_replicate in Hcall as [? _]. }
  split_and!; [exact HfetchAll| |].
  - intros U isEmpty mergeFunction mergeMode dps params heap heap' promise calls.
    unfold Objects.binaryMethod. destruct (decide (mergeMode = "fetchAll")) as [Hmode|Hmode].
    { intros Hrun. destruct (HfetchAll _ _ _ _ _ _ _ _ Hrun) as (Hpassed & _ & Hframe).
      split; [by eapply Hsame|done]. }
    destruct (Objects.queueProcessResults _ _ _ _) as [[heap1 p] calls1] eqn:Hrun.
    intros [= <- <- <-].
    destruct (queueProcessResults_behaved _ _ _ _ _ _ _ _
                (binary_callBack_behaved isEmpty params) Hrun)
      as (steps & Hframe & Hhanded & _ & _).
    split; [|done]. clear -Hhanded.
    induction Hhanded; constructor; done.
  - intros U field others keep mergeFunction mergeMode dps params heap heap' promise calls.
    unfold Objects.narrowingMethod. destruct (decide (mergeMode = "fetchAll")) as [Hmode|Hmode].
    { intros [= Hrun]. destruct (HfetchAll _ _ _ _ _ _ _ _ Hrun) as (Hpassed & _ & Hframe).
      split_and!; [done|intros _; by eapply Hsame|done]. }
    destruct (Objects.fieldsAt heap params !! field) as [[| | |ids]|] eqn:Hfield; try done.
    destruct (heap !! ids) as [[elements|]|] eqn:Hids; try done.
    destruct (Objects.queueProcessResults _ _ _ _) as [[heap1 p] calls1] eqn:Hrun.
    intros [= <- <- <-].
    destruct (queueProcessResults_behaved _ _ _ _ _ _ _ _
                (narrowing_callBack_behaved field others keep params) Hrun)
      as (steps & Hframe & Hhanded & Hsteps & Hall).
    destruct (handed_fresh calls1 steps (length heap) Hhanded Hsteps Hall) as [Hfresh Hnodup].
    split_and!; [done|done|intros _; split_and!; [|done|done]].
    unfold Objects.fieldsAt in Hfield.
    destruct (heap !! params) as [cell|] eqn:Hparams; [|by rewrite lookup_empty in Hfield].
    by eapply lookup_lt_Some.
Qed.
End ObjectClaims.

Section ObjectExamples.
Local Existing Instance exampleModel.

(** [filter] with the merge mode ['fetchAll'] and the limit 0: both
    providers are handed the caller's object at address 0; the first one
    sets its limit to 100, the second one sees 100, and so does the caller
    afterwards.  Asked alone, the second provider sees the limit 0. *)
Lemma providers_share_the_parameters :
  ∃ heap' calls,
    Objects.binaryMethod (λ _, false) Objects.limitsSeen "fetchAll"
      [Objects.sparqlProvider; Objects.rdfProvider] 0 Objects.filterHeap
    = (heap',
       Resolved [("SPARQL", Some (Objects.number 100)); ("RDF", Some (Objects.number 100))],
       calls)
    ∧ Objects.passed <$> calls = [0; 0]
    ∧ ¬ NoDup (Objects.passed <$> calls)
    ∧ Objects.fieldsAt Objects.filterHeap 0 !! "limit" = Some (Objects.number 0)
    ∧ Objects.fieldsAt heap' 0 !! "limit" = Some (Objects.number 100)
    ∧ (Objects.binaryMethod (λ _, false) Objects.limitsSeen "fetchAll"
         [Objects.rdfProvider] 0 Objects.filterHeap).1.2
      = Resolved [("RDF", Some (Objects.number 0))].
Proof.
  eexists _, _. split_and!; [reflexivity|reflexivity| |by vm_compute|by vm_compute|
                             by vm_compute].
  cbn. intros Hnodup. apply NoDup_cons in Hnodup as [Hin _]. apply Hin. left.
Qed.

Lemma parameter_objects_witness :
  ∃ heap' promise calls,
    Objects.narrowingMethod "propertyIds" [] (λ previous id, negb (bool_decide (id ∈ previous)))
      (λ responses, responses) "sequentialFetching"
      [Objects.knowingIds ["p1"]; Objects.knowingIds ["p2"]] 0 Objects.propertyHeap
    = Some (heap', promise, calls)
    ∧ 0 < length Objects.propertyHeap
    ∧ Forall (λ call, length Objects.propertyHeap ≤ Objects.passed call) calls
    ∧ NoDup (Objects.passed <$> calls)
    ∧ Objects.passed <$> calls = [3; 5].
Proof.
  eexists _, _, _. split; [reflexivity|].
  destruct (parameter_objects_handed_on (H := exampleModel) (R := list string))
    as (_ & _ & Hnarrowing).
  edestruct (Hnarrowing _ "propertyIds" [] (λ previous id, negb (bool_decide (id ∈ previous)))
               (λ responses, responses) "sequentialFetching"
               [Objects.knowingIds ["p1"]; Objects.knowingIds ["p2"]]
               0 Objects.propertyHeap)
    as (_ & _ & Hfresh); [reflexivity|].
  destruct Hfresh as (Hparams & Hfresh & Hnodup); [done|].
  split_and!; [exact Hparams|exact Hfresh|exact Hnodup|reflexivity].
Defined.
End ObjectExamples.

(** * More properties of the composite provider *)

Section MoreQueueFacts.
Context `{Model} {R S : Type}.
Variable step : option R → S → S.
Variable go : option R → S → bool.
Variable request : S → Request.
Variable answer : ∀ s, Promise Error (Response (request s)) → Promise Error R.

Let callBack := shapedCallBack step go request answer.
Let made := callsMade step go request answer.

(** A method that is [queueProcessResults] with a callback of the common
    shape: its promise and its calls, from the calls made. *)
Lemma shaped_method {U : Type}
    (op : CompositeDataProvider → S → Promise Error U * list Invocation)
    (mergeFunction : list (CompositeResponse R) → U) this captured :
  SequentialMethod op mergeFunction callBack →
  mergeMode this ≠ "fetchAll" →
  op this captured
  = (Resolved (mergeFunction
                 (omap (entryOf request answer) (made (dataProviders this) None captured))),
     invocationOf request <$> made (dataProviders this) None captured).
Proof.
  intros Hop Hmode. rewrite Hop by done. unfold callBack.
  by rewrite queueProcessResults_callsMade.
Qed.

(** The providers called are the first ones of the list. *)
Lemma callsMade_prefix rest : ∀ result s,
  (made rest result s).*1 = take (length (made rest result s)) rest.
Proof.
  induction rest as [|dp rest IH]; intros result s; [done|].
  unfold made. cbn [callsMade]. fold made. cbn zeta.
  destruct (go _ _); [|done]. cbn. f_equal. destruct (answer _ _); apply IH.
Qed.

Lemma shaped_AsksAPrefix {U : Type}
    (op : CompositeDataProvider → S → Promise Error U * list Invocation)
    (mergeFunction : list (CompositeResponse R) → U) :
  SequentialMethod op mergeFunction callBack → AsksAPrefix op.
Proof.
  intros Hop this captured Hmode. rewrite (shaped_method op mergeFunction) by done.
  cbn [snd]. rewrite length_fmap, <-list_fmap_compose.
  apply (callsMade_prefix (dataProviders this) None captured).
Qed.

(** When every call rejects and the captured variable allows a call, every
    provider is called. *)
Lemma callsMade_all_rejecting rest s :
  step None s = s →
  go None s = true →
  (∀ dp s', dp ∈ rest →
            responseOf (answer s' (perform (dataProvider dp) (request s'))) = None) →
  made rest None s = (λ dp, (dp, s)) <$> rest.
Proof.
  intros Hstep Hgo. induction rest as [|dp rest IH]; intros Hrejects; [done|].
  unfold made. cbn [callsMade]. fold made. cbn zeta. rewrite Hstep, Hgo.
  pose proof (Hrejects dp s ltac:(left)) as Hdp.
  destruct (answer s _); [done|]. cbn. f_equal. apply IH.
  intros dp' s' Hdp'. apply Hrejects. by right.
Qed.

Lemma shaped_AllRejecting {U : Type}
    (op : CompositeDataProvider → S → Promise Error U * list Invocation)
    (mergeFunction : list (CompositeResponse R) → U) (nonempty : S → Prop) :
  SequentialMethod op mergeFunction callBack →
  (∀ s, nonempty s → step None s = s ∧ go None s = true) →
  AllRejecting op mergeFunction request answer nonempty.
Proof.
  intros Hop Hnonempty this captured Hmode Hcaptured Hrejects.
  destruct (Hnonempty captured Hcaptured) as [Hstep Hgo].
  rewrite (shaped_method op mergeFunction) by done.
  rewrite (callsMade_all_rejecting _ captured Hstep Hgo) by (intros; by apply Hrejects).
  f_equal.
  - do 2 f_equal. clear -Hrejects.
    induction (dataProviders this) as [|dp dps IH]; [done|].
    cbn. unfold entryOf at 1. cbn [fst snd].
    pose proof (Hrejects dp captured ltac:(left)) as Hdp.
    destruct (answer captured _); [done|]. apply IH.
    intros dp' s' Hdp'. apply Hrejects. by right.
  - unfold callAll. by rewrite <-list_fmap_compose.
Qed.
End MoreQueueFacts.

Section MoreNarrowFacts.
Context `{Model} {R : Type}.
Variable keep : R → string → bool.
Variable request : list string → Request.
Variable answer : ∀ ids, Promise Error (Response (request ids)) → Promise Error R.

Let callBack := shapedCallBack (narrowStep keep) narrowGo request answer.
Let made := callsMade (narrowStep keep) narrowGo request answer.

Lemma narrowStep_sublist result ids : sublist (narrowStep keep result ids) ids.
Proof.
  unfold narrowStep. induction ids as [|id ids IH]; [done|]. cbn.
  destruct (match result with Some previous => keep previous id | None => true end).
  - by apply sublist_skip.
  - by apply sublist_cons.
Qed.

Lemma narrowStep_all (ids : list string) :
  narrowStep keep None ids = ids.
Proof.
  unfold narrowStep. induction ids as [|id ids IH]; [done|]. cbn. by rewrite IH.
Qed.

(** Every call asks for a part of the ids the callback captured, and not
    for nothing. *)
Lemma callsMade_within rest : ∀ result ids,
  Forall (λ call, call.2 ≠ [] ∧ sublist call.2 ids) (made rest result ids).
Proof.
  induction rest as [|dp rest IH]; intros result ids; [constructor|].
  unfold made. cbn [callsMade]. fold made. cbn zeta.
  pose proof (narrowStep_sublist result ids) as Hsub.
  destruct (narrowGo result (narrowStep keep result ids)) eqn:Hgo; [|constructor].
  constructor.
  - split; [|done]. cbn. intros Hnil. unfold narrowGo in Hgo. by rewrite Hnil in Hgo.
  - assert (∀ result', Forall (λ call, call.2 ≠ [] ∧ sublist call.2 ids)
                         (made rest result' (narrowStep keep result ids))) as Hrest.
    { intros result'. eapply Forall_impl; [apply IH|]. cbn.
      intros call [Hne Hcall]. split; [done|]. by etrans. }
    destruct (answer _ _); apply Hrest.
Qed.

(** A later call asks for a part of what an earlier call asked for. *)
Lemma callsMade_nested rest : ∀ result ids i j a b,
  i < j → made rest result ids !! i = Some a → made rest result ids !! j = Some b →
  sublist b.2 a.2.
Proof.
  induction rest as [|dp rest IH]; intros result ids i j a b Hij; [done|].
  unfold made. cbn [callsMade]. fold made. cbn zeta.
  destruct (narrowGo result (narrowStep keep result ids)); [|done].
  destruct j as [|j]; [lia|]. destruct i as [|i]; cbn.
  - intros [= <-] Hb. cbn.
    assert (∀ result', made rest result' (narrowStep keep result ids) !! j = Some b →
                       sublist b.2 (narrowStep keep result ids)) as Hrest.
    { intros result' Hj.
      pose proof (callsMade_within rest result' (narrowStep keep result ids)) as Hall.
      rewrite Forall_lookup in Hall. by destruct (Hall j b Hj). }
    destruct (answer _ _); by eapply Hrest.
  - intros Ha Hb. destruct (answer _ _); eapply (IH _ _ i j); done || lia.
Qed.

Lemma shaped_RequestsShrink {U : Type}
    (op : CompositeDataProvider → list string → Promise Error U * list Invocation)
    (mergeFunction : list (CompositeResponse R) → U) :
  SequentialMethod op mergeFunction callBack → RequestsShrink op request.
Proof.
  intros Hop this requested Hmode.
  exists (made (dataProviders this) None requested). split_and!.
  - by rewrite (shaped_method (narrowStep keep) narrowGo request answer op mergeFunction).
  - apply callsMade_within.
  - apply callsMade_nested.
Qed.

Lemma shaped_NothingRequested {U : Type}
    (op : CompositeDataProvider → list string → Promise Error U * list Invocation)
    (mergeFunction : list (CompositeResponse R) → U) :
  SequentialMethod op mergeFunction callBack → NothingRequested op mergeFunction.
Proof.
  intros Hop this Hmode.
  rewrite (shaped_method (narrowStep keep) narrowGo request answer op mergeFunction) by done.
  by destruct (dataProviders this).
Qed.
End MoreNarrowFacts.

Section MoreBinaryFacts.
Context `{Model} {R : Type}.
Variable isEmpty : R → bool.
Variable req : Request.
Variable answer : Promise Error (Response req) → Promise Error R.

Let callBack := shapedCallBack (λ _ s, s) (binaryGo isEmpty) (λ _ : unit, req) (λ _, answer).
Let made := callsMade (λ _ s, s) (binaryGo isEmpty) (λ _ : unit, req) (λ _, answer).
Let entries rest result u :=
  omap (entryOf (λ _ : unit, req) (λ _, answer)) (made rest result u).

(** All tagged results but the last one are empty. *)
Lemma entries_one_found rest : ∀ result u i entry,
  S i < length (entries rest result u) →
  entries rest result u !! i = Some entry →
  ∃ r, response entry = Some r ∧ isEmpty r = true.
Proof.
  induction rest as [|dp rest IH]; intros result u i entry; [cbn; lia|].
  unfold entries, made. cbn [callsMade]. fold made. cbn zeta.
  destruct (binaryGo isEmpty result u); [|cbn; lia].
  cbn [omap list_omap].
  destruct (answer (perform (dataProvider dp) req)) as [r|error] eqn:Hanswer.
  - rewrite (entryOf_resolved (λ _ : unit, req) (λ _, answer) dp u r Hanswer).
    fold (entries rest (Some r) u). destruct (isEmpty r) eqn:Hr.
    + destruct i as [|i]; cbn.
      * intros _ [= <-]. by exists r.
      * intros Hlen. apply IH. lia.
    + unfold entries, made. rewrite callsMade_found by done. cbn. lia.
  - rewrite (entryOf_rejected (λ _ : unit, req) (λ _, answer) dp u error Hanswer).
    apply IH.
Qed.

Lemma shaped_OneFound {U : Type}
    (op : CompositeDataProvider → unit → Promise Error U * list Invocation)
    (mergeFunction : list (CompositeResponse R) → U) :
  SequentialMethod op mergeFunction callBack →
  OneFound op mergeFunction callBack isEmpty.
Proof.
  intros Hop this Hmode. eexists _, _. split_and!.
  - unfold callBack. apply queueProcessResults_callsMade.
  - rewrite (shaped_method (λ _ s, s) (binaryGo isEmpty) (λ _ : unit, req) (λ _, answer)
               op mergeFunction) by done.
    reflexivity.
  - apply entries_one_found.
Qed.
End MoreBinaryFacts.

(** ** More statements about the methods *)

Section MoreMethods.
Context `{Model} `{!MergeUtils}.

(** With a merge mode other than ['fetchAll'] every one of the eight
    methods with a callback asks the providers one after the other from
    the first registered one on: the providers it calls are the first ones
    of the list, in the order of the list, as many as it makes calls; no
    provider is passed over. *)
Theorem sequential_providers_prefix :
  AsksAPrefix propertyInfo
  ∧ AsksAPrefix classInfo
  ∧ AsksAPrefix linkTypesInfo
  ∧ AsksAPrefix elementInfo
  ∧ (∀ linkTypeIds, AsksAPrefix (λ this elementIds, linksInfo this elementIds linkTypeIds))
  ∧ (∀ elementId, AsksAPrefix (λ this (_ : unit), linkTypesOf this elementId))
  ∧ (∀ params, AsksAPrefix (λ this (_ : unit), linkElements this params))
  ∧ (∀ params, AsksAPrefix (λ this (_ : unit), filter this params)).
Proof.
  destruct methods_are_queues as (H1 & H2 & H3 & H4 & H5 & H6 & H7 & H8).
  split_and!; [| | | |intros params|intros params|intros params|intros params].
  - rewrite propertyInfo_callBack_shape in H1. eapply shaped_AsksAPrefix, H1.
  - rewrite classInfo_callBack_shape in H2. eapply shaped_AsksAPrefix, H2.
  - rewrite linkTypesInfo_callBack_shape in H3. eapply shaped_AsksAPrefix, H3.
  - rewrite elementInfo_callBack_shape in H4. eapply shaped_AsksAPrefix, H4.
  - specialize (H5 params). rewrite linksInfo_callBack_shape in H5.
    eapply shaped_AsksAPrefix, H5.
  - specialize (H6 params). rewrite linkTypesOf_callBack_shape in H6.
    eapply shaped_AsksAPrefix, H6.
  - specialize (H7 params). rewrite linkElements_callBack_shape in H7.
    eapply shaped_AsksAPrefix, H7.
  - specialize (H8 params). rewrite filter_callBack_shape in H8.
    eapply shaped_AsksAPrefix, H8.
Qed.

(** With a merge mode other than ['fetchAll'] every call a narrowing
    method makes asks for at least one id and only for requested ids, in
    the order in which they were requested; the ids of a later call are
    among the ids of every earlier call, in the same order.  [linksInfo]
    passes its link type ids to every provider unchanged. *)
Theorem narrowing_requests_shrink :
  RequestsShrink propertyInfo propertyInfoRequest
  ∧ RequestsShrink classInfo classInfoRequest
  ∧ RequestsShrink linkTypesInfo linkTypesInfoRequest
  ∧ RequestsShrink elementInfo elementInfoRequest
  ∧ (∀ linkTypeIds,
       RequestsShrink (λ this elementIds, linksInfo this elementIds linkTypeIds)
         (λ elementIds, linksInfoRequest elementIds linkTypeIds)).
Proof.
  destruct methods_are_queues as (H1 & H2 & H3 & H4 & H5 & _).
  split_and!; [| | | |intros linkTypeIds].
  - rewrite propertyInfo_callBack_shape in H1.
    eapply (shaped_RequestsShrink _ propertyInfoRequest), H1.
  - rewrite classInfo_callBack_shape in H2.
    eapply (shaped_RequestsShrink _ classInfoRequest), H2.
  - rewrite linkTypesInfo_callBack_shape in H3.
    eapply (shaped_RequestsShrink _ linkTypesInfoRequest), H3.
  - rewrite elementInfo_callBack_shape in H4.
    eapply (shaped_RequestsShrink _ elementInfoRequest), H4.
  - specialize (H5 linkTypeIds). rewrite linksInfo_callBack_shape in H5.
    eapply (shaped_RequestsShrink _ (λ elementIds, linksInfoRequest elementIds linkTypeIds)),
      H5.
Qed.

(** With a merge mode other than ['fetchAll'] a narrowing method called
    with an empty list of ids calls no provider and resolves with the merge
    of no result. *)
Theorem sequential_empty_request :
  NothingRequested propertyInfo mergePropertyInfo
  ∧ NothingRequested classInfo mergeClassInfo
  ∧ NothingRequested linkTypesInfo mergeLinkTypesInfo
  ∧ NothingRequested elementInfo mergeElementInfo
  ∧ (∀ linkTypeIds,
       NothingRequested (λ this elementIds, linksInfo this elementIds linkTypeIds)
         mergeLinksInfo).
Proof.
  destruct methods_are_queues as (H1 & H2 & H3 & H4 & H5 & _).
  split_and!; [| | | |intros linkTypeIds].
  - rewrite propertyInfo_callBack_shape in H1.
    eapply (shaped_NothingRequested _ propertyInfoRequest), H1.
  - rewrite classInfo_callBack_shape in H2.
    eapply (shaped_NothingRequested _ classInfoRequest), H2.
  - rewrite linkTypesInfo_callBack_shape in H3.
    eapply (shaped_NothingRequested _ linkTypesInfoRequest), H3.
  - rewrite elementInfo_callBack_shape in H4.
    eapply (shaped_NothingRequested _ elementInfoRequest), H4.
  - specialize (H5 linkTypeIds). rewrite linksInfo_callBack_shape in H5.
    eapply (shaped_NothingRequested _
              (λ elementIds, linksInfoRequest elementIds linkTypeIds)), H5.
Qed.

(** With a merge mode other than ['fetchAll'], when the call of every
    provider rejects, a method calls every provider, each with all that
    was requested, as with ['fetchAll'], and resolves with the merge of no
    result; a narrowing method does so when at least one id is requested. *)
Theorem sequential_all_rejecting :
  AllRejecting propertyInfo mergePropertyInfo propertyInfoRequest
    (λ _ promise, promise) (λ ids, ids ≠ [])
  ∧ AllRejecting classInfo mergeClassInfo classInfoRequest
      (λ _ promise, promise) (λ ids, ids ≠ [])
  ∧ AllRejecting linkTypesInfo mergeLinkTypesInfo linkTypesInfoRequest
      (λ _ promise, promise) (λ ids, ids ≠ [])
  ∧ AllRejecting elementInfo mergeElementInfo elementInfoRequest
      (λ _ promise, promise) (λ ids, ids ≠ [])
  ∧ (∀ linkTypeIds,
       AllRejecting (λ this elementIds, linksInfo this elementIds linkTypeIds)
         mergeLinksInfo (λ elementIds, linksInfoRequest elementIds linkTypeIds)
         (λ _ promise, promise) (λ ids, ids ≠ []))
  ∧ (∀ elementId,
       AllRejecting (λ this (_ : unit), linkTypesOf this elementId)
         mergeLinkTypesOf (λ _, linkTypesOfRequest elementId)
         (λ _ promise, promise) (λ _, True))
  ∧ (∀ params,
       AllRejecting (λ this (_ : unit), linkElements this params)
         mergeLinkElements (λ _, linkElementsRequest params)
         (λ _ promise, promise) (λ _, True))
  ∧ (∀ params,
       AllRejecting (λ this (_ : unit), filter this params)
         mergeFilter (λ _, filterRequest params)
         (λ _ promise, promise) (λ _, True)).
Proof.
  assert (∀ (R : Type) (keep : R → string → bool) (ids : list string),
            ids ≠ [] →
            narrowStep keep None ids = ids ∧ narrowGo (R := R) None ids = true)
    as Hnarrow.
  { intros R keep ids Hids. split; [apply narrowStep_all|]. by destruct ids. }
  destruct methods_are_queues as (H1 & H2 & H3 & H4 & H5 & H6 & H7 & H8).
  split_and!; [| | | |intros params|intros params|intros params|intros params].
  - rewrite propertyInfo_callBack_shape in H1.
    eapply (shaped_AllRejecting _ _ propertyInfoRequest); [exact H1|apply Hnarrow].
  - rewrite classInfo_callBack_shape in H2.
    eapply (shaped_AllRejecting _ _ classInfoRequest); [exact H2|apply Hnarrow].
  - rewrite linkTypesInfo_callBack_shape in H3.
    eapply (shaped_AllRejecting _ _ linkTypesInfoRequest); [exact H3|apply Hnarrow].
  - rewrite elementInfo_callBack_shape in H4.
    eapply (shaped_AllRejecting _ _ elementInfoRequest); [exact H4|apply Hnarrow].
  - specialize (H5 params). rewrite linksInfo_callBack_shape in H5.
    eapply (shaped_AllRejecting _ _ (λ elementIds, linksInfoRequest elementIds params));
      [exact H5|apply Hnarrow].
  - specialize (H6 params). rewrite linkTypesOf_callBack_shape in H6.
    eapply (shaped_AllRejecting _ _ (λ _, linkTypesOfRequest params)); [exact H6|done].
  - specialize (H7 params). rewrite linkElements_callBack_shape in H7.
    eapply (shaped_AllRejecting _ _ (λ _, linkElementsRequest params)); [exact H7|done].
  - specialize (H8 params). rewrite filter_callBack_shape in H8.
    eapply (shaped_AllRejecting _ _ (λ _, filterRequest params)); [exact H8|done].
Qed.

(** With a merge mode other than ['fetchAll'] the list a found-or-empty
    method gives to its merge function has at most one result that is not
    empty, its last one: every entry before the last is a result with no
    link type, or with no element. *)
Theorem binary_one_found :
  (∀ elementId,
     OneFound (λ this (_ : unit), linkTypesOf this elementId) mergeLinkTypesOf
       (linkTypesOf_callBack elementId) (λ previous, (length previous =? 0)%nat))
  ∧ (∀ params,
       OneFound (λ this (_ : unit), linkElements this params) mergeLinkElements
         (linkElements_callBack params) (λ previous, (keys_length previous =? 0)%nat))
  ∧ (∀ params,
       OneFound (λ this (_ : unit), filter this params) mergeFilter
         (filter_callBack params) (λ previous, (keys_length previous =? 0)%nat)).
Proof.
  destruct methods_are_queues as (_ & _ & _ & _ & _ & H6 & H7 & H8).
  split_and!; intros params.
  - specialize (H6 params). rewrite linkTypesOf_callBack_shape in *.
    eapply (shaped_OneFound _ (linkTypesOfRequest params)), H6.
  - specialize (H7 params). rewrite linkElements_callBack_shape in *.
    eapply (shaped_OneFound _ (linkElementsRequest params)), H7.
  - specialize (H8 params). rewrite filter_callBack_shape in *.
    eapply (shaped_OneFound _ (filterRequest params)), H8.
Qed.

Lemma bareBefore_mono (providers : list ProviderOrDefinition) i j p :
  i < j → providers !! i = Some (bareProvider p) →
  bareBefore providers i < bareBefore providers j.
Proof.
  intros Hij Hp. unfold bareBefore.
  rewrite <-(take_drop (S i) (take j providers)), take_take.
  replace (S i `min` j) with (S i) by lia.
  rewrite (take_S_r _ _ _ Hp), !List.filter_app, !length_app. cbn. lia.
Qed.

Lemma string_append_inj (prefix a b : string) : prefix +:+ a = prefix +:+ b → a = b.
Proof. induction prefix as [|c prefix IH]; [done|]. cbn. intros [= ?]. by apply IH. Qed.

(** The names the constructor generates for the bare providers of its
    list are pairwise different. *)
Theorem generated_names_distinct (providers : list ProviderOrDefinition)
    (params : option (option string)) (this : CompositeDataProvider) :
  new_CompositeDataProvider providers params = Normal this →
  GeneratedNamesDiffer providers this.
Proof.
  intros [= <-] i j p q dp dq Hij Hp Hq. cbn [dataProviders].
  rewrite (proj2 (nameProviders_lookup providers 1 i) p Hp).
  rewrite (proj2 (nameProviders_lookup providers 1 j) q Hq).
  intros [= <-] [= <-]. cbn [name]. intros Hname.
  assert (pretty (1 + bareBefore providers i) = pretty (1 + bareBefore providers j))
    as Hpretty by (by eapply string_append_inj).
  apply (inj pretty) in Hpretty.
  destruct (decide (i < j)).
  - pose proof (bareBefore_mono providers i j p ltac:(lia) Hp). lia.
  - pose proof (bareBefore_mono providers j i q ltac:(lia) Hq). lia.
Qed.

(** A composite provider is rebuilt by the constructor from its own
    definitions and merge mode: a list of definitions is kept as it is. *)
Theorem constructor_keeps_definitions (this : CompositeDataProvider) :
  mergeMode this ≠ "" →
  new_CompositeDataProvider (definition <$> dataProviders this)
    (Some (Some (mergeMode this)))
  = Normal this.
Proof.
  intros Hmode. unfold new_CompositeDataProvider. cbn zeta.
  rewrite decide_False by done. destruct this as [dps mode]. cbn. do 2 f_equal.
  generalize 1. induction dps as [|dp dps IH]; intros dpCounter; [done|].
  cbn. by rewrite IH.
Qed.
End MoreMethods.

(** * Localized labels *)

Section LabelFacts.
Import DiagramModel.

Lemma lastIn_cons language text texts :
  lastIn language (text :: texts)
  = match lastIn language texts with
    | Some found => Some found
    | None => if decide (lang text = language) then Some text else None
    end.
Proof.
  unfold lastIn. cbn [List.filter]. case_bool_decide as Htext.
  - rewrite decide_True by done. apply last_cons.
  - rewrite decide_False by done. by destruct (last _).
Qed.

Lemma lastIn_elem_of language texts found :
  lastIn language texts = Some found → found ∈ texts ∧ lang found = language.
Proof.
  unfold lastIn. intros Hlast. apply last_Some_elem_of in Hlast.
  apply list_elem_of_In, List.filter_In in Hlast. destruct Hlast as [Hin Hlang].
  split; [by apply list_elem_of_In|]. by apply bool_decide_eq_true in Hlang.
Qed.

(** The loop returns the first text in the requested language. *)
Lemma chooseLoop_found language before text after : ∀ defaultValue englishValue,
  Forall (λ other, lang other ≠ language) before →
  lang text = language →
  chooseLoop language (before ++ text :: after) defaultValue englishValue = inl text.
Proof.
  induction before as [|other before IH]; intros defaultValue englishValue Hbefore Htext.
  - cbn. by rewrite decide_True.
  - apply Forall_cons in Hbefore as [Hother Hbefore]. cbn.
    rewrite decide_False by done. by repeat case_decide; apply IH.
Qed.

(** Without a text in the requested language the loop ends, each variable
    with the last text of its language, if there is one. *)
Lemma chooseLoop_not_found language texts : ∀ defaultValue englishValue,
  Forall (λ other, lang other ≠ language) texts →
  chooseLoop language texts defaultValue englishValue
  = inr (match lastIn "" texts with Some found => Some found | None => defaultValue end,
         match lastIn "en" texts with Some found => Some found | None => englishValue end).
Proof.
  induction texts as [|text texts IH]; intros defaultValue englishValue Htexts; [done|].
  apply Forall_cons in Htexts as [Htext Htexts]. cbn [chooseLoop].
  rewrite decide_False by done. rewrite !lastIn_cons.
  destruct (decide (lang text = "")) as [Hdefault|Hdefault].
  - rewrite IH by done. rewrite (decide_False (P := lang text = "en")) by by rewrite Hdefault.
    by destruct (lastIn "" texts), (lastIn "en" texts).
  - destruct (decide (lang text = "en")) as [Henglish|Henglish]; rewrite IH by done;
      by destruct (lastIn "" texts), (lastIn "en" texts).
Qed.

Lemma chooseLoop_inl language texts : ∀ defaultValue englishValue text,
  chooseLoop language texts defaultValue englishValue = inl text →
  text ∈ texts ∧ lang text = language.
Proof.
  induction texts as [|other texts IH]; intros defaultValue englishValue text; [done|].
  cbn. destruct (decide (lang other = language)).
  - intros [= <-]. split; [left|done].
  - repeat case_decide; intros Hloop; apply IH in Hloop as [? ?]; (split; [by right|done]).
Qed.

Lemma chooseLoop_inr language texts : ∀ defaultValue englishValue result,
  chooseLoop language texts defaultValue englishValue = inr result →
  Forall (λ other, lang other ≠ language) texts.
Proof.
  induction texts as [|other texts IH]; intros defaultValue englishValue result;
    [by constructor|].
  cbn. destruct (decide (lang other = language)); [done|].
  repeat case_decide; intros Hloop; apply IH in Hloop; by constructor.
Qed.

Lemma chooseLocalizedText_cases (texts : list LocalizedString) (language : string) :
  match chooseLocalizedText texts language with
  | Some chosen => chosen ∈ texts
  | None => texts = []
  end.
Proof.
  unfold chooseLocalizedText. destruct texts as [|first texts]; [done|].
  cbn [length Nat.eqb lookup list_lookup].
  destruct (chooseLoop language (first :: texts) None None) as [text|[defaultValue englishValue]]
    eqn:Hloop.
  - by apply chooseLoop_inl in Hloop as [Hin _].
  - pose proof (chooseLoop_inr _ _ _ _ _ Hloop) as Hnone.
    rewrite chooseLoop_not_found in Hloop by done. injection Hloop as <- <-.
    destruct (lastIn "" (first :: texts)) as [d|] eqn:Hd.
    { by apply lastIn_elem_of in Hd as [? _]. }
    destruct (lastIn "en" (first :: texts)) as [e|] eqn:He.
    { by apply lastIn_elem_of in He as [? _]. }
    left.
Qed.

(** [chooseLocalizedText] returns [undefined] for an empty list only, and
    otherwise one of the texts of the list. *)
Theorem chooseLocalizedText_member (texts : list LocalizedString) (language : string) :
  (chooseLocalizedText texts language = None ↔ texts = [])
  ∧ (∀ chosen, chooseLocalizedText texts language = Some chosen → chosen ∈ texts).
Proof.
  pose proof (chooseLocalizedText_cases texts language) as Hcases.
  destruct (chooseLocalizedText texts language) as [chosen|] eqn:Hchosen.
  - split; [|by intros ? [= <-]]. split; [done|]. intros ->. by apply elem_of_nil in Hcases.
  - split; [done|]. by intros chosen [=].
Qed.

(** When a text is in the requested language, [chooseLocalizedText]
    returns the first such text of the list, whatever comes after it. *)
Theorem chooseLocalizedText_requested_language (before after : list LocalizedString)
    (text : LocalizedString) :
  Forall (λ other, lang other ≠ lang text) before →
  chooseLocalizedText (before ++ text :: after) (lang text) = Some text.
Proof.
  intros Hbefore. unfold chooseLocalizedText.
  rewrite (chooseLoop_found (lang text) before text after None None Hbefore eq_refl).
  by destruct before.
Qed.

(** When no text is in the requested language, [chooseLocalizedText]
    returns the last text without a language if there is one, else the
    last English text if there is one, else the first text of the list. *)
Theorem chooseLocalizedText_fallback (texts : list LocalizedString) (language : string) :
  Forall (λ other, lang other ≠ language) texts →
  chooseLocalizedText texts language
  = match lastIn "" texts with
    | Some defaultValue => Some defaultValue
    | None =>
        match lastIn "en" texts with
        | Some englishValue => Some englishValue
        | None => head texts
        end
    end.
Proof.
  intros Htexts. unfold chooseLocalizedText. rewrite chooseLoop_not_found by done.
  destruct texts as [|first texts]; [done|]. cbn [length Nat.eqb].
  by destruct (lastIn "" (first :: texts)), (lastIn "en" (first :: texts)).
Qed.

(** [formatLocalizedLabel] never reads the text of [undefined]: for a list
    of labels that is not empty it returns the text of the label that
    [chooseLocalizedText] chooses, a label of the list; for an empty list
    the name made from the fallback IRI. *)
Theorem formatLocalizedLabel_returns (uri2name : string → string) (fallbackIri : string)
    (labels : list LocalizedString) (language : string) :
  ∃ formatted,
    formatLocalizedLabel uri2name fallbackIri labels language = Normal formatted
    ∧ match chooseLocalizedText labels language with
      | Some chosen => chosen ∈ labels ∧ formatted = text chosen
      | None => labels = [] ∧ formatted = uri2name fallbackIri
      end.
Proof.
  unfold formatLocalizedLabel.
  pose proof (chooseLocalizedText_cases labels language) as Hcases.
  destruct (chooseLocalizedText labels language) as [chosen|].
  - destruct labels as [|label labels]; [by apply elem_of_nil in Hcases|].
    cbn. by eexists.
  - rewrite Hcases. cbn. by eexists.
Qed.
End LabelFacts.

(** * Pieces of SPARQL queries *)

Section SparqlFacts.
Import Sparql.

Lemma string_length_append (s t : string) :
  String.length (s +:+ t) = String.length s + String.length t.
Proof. induction s as [|c s IH]; [done|]. simpl. by rewrite IH. Qed.

Lemma get_append_end (s t : string) (c : Ascii.ascii) :
  String.get (String.length s) (s +:+ String c t) = Some c.
Proof. induction s as [|c' s IH]; [done|]. exact IH. Qed.

Lemma substring_append (s t : string) :
  String.substring 0 (String.length s) (s +:+ t) = s.
Proof.
  induction s as [|c s IH]; [by destruct t|]. simpl. by rewrite IH.
Qed.

(** A string that ends with [c] is what comes before, and [c]. *)
Lemma ends_with (s : string) (c : Ascii.ascii) : ∀ k,
  String.length s = S k →
  String.get k s = Some c →
  s = String.substring 0 k s +:+ String c "".
Proof.
  induction s as [|c' s IH]; intros k Hlen Hget; [done|].
  injection Hlen as Hlen. destruct k as [|k].
  - destruct s; [|done]. cbn in Hget. by injection Hget as ->.
  - change (String c' s = String c' (String.substring 0 k s +:+ String c "")).
    f_equal. by apply IH.
Qed.

(** The string [s] between double quotes. *)
Lemma toRdfNode_quoted (s : string) :
  toRdfNode (String quote (s +:+ String quote "")) = literal s "".
Proof.
  unfold toRdfNode. cbn [String.length]. rewrite string_length_append. cbn [String.length].
  replace (2 <=? S (String.length s + 1))%nat with true
    by (symmetry; apply Nat.leb_le; lia).
  rewrite bool_decide_eq_true_2 by done.
  replace (S (String.length s + 1) - 1) with (S (String.length s)) by lia.
  replace (S (String.length s + 1) - 2) with (String.length s) by lia.
  change (String.get (S (String.length s)) (String quote (s +:+ String quote "")))
    with (String.get (String.length s) (s +:+ String quote "")).
  rewrite get_append_end, bool_decide_eq_true_2 by done. cbn [andb].
  change (String.substring 1 (String.length s) (String quote (s +:+ String quote "")))
    with (String.substring 0 (String.length s) (s +:+ String quote "")).
  by rewrite substring_append.
Qed.

Lemma toRdfNode_literal_inv (entity value xml_lang : string) :
  toRdfNode entity = literal value xml_lang →
  entity = String quote (value +:+ String quote "") ∧ xml_lang = "".
Proof.
  unfold toRdfNode.
  destruct (2 <=? String.length entity)%nat eqn:Hlen; [|done].
  case_bool_decide as Hfirst; [|done]. case_bool_decide as Hlast; [|done].
  cbn [andb]. intros [= <- <-]. split; [|done].
  apply Nat.leb_le in Hlen. destruct entity as [|first rest]; [done|].
  cbn in Hfirst. injection Hfirst as ->. f_equal.
  destruct rest as [|c rest]; [cbn in Hlen; lia|].
  change (String.length (String quote (String c rest))) with (S (S (String.length rest)))
    in *.
  replace (S (S (String.length rest)) - 1) with (S (String.length rest)) in Hlast by lia.
  replace (S (S (String.length rest)) - 2) with (String.length rest) by lia.
  by apply (ends_with (String c rest) quote (String.length rest)).
Qed.

(** [toRdfNode] makes a literal of exactly the strings between double
    quotes, with what is between the quotes as its value and without a
    language. *)
Theorem toRdfNode_literal_iff (entity value xml_lang : string) :
  toRdfNode entity = literal value xml_lang
  ↔ entity = String quote (value +:+ String quote "") ∧ xml_lang = "".
Proof.
  split; [apply toRdfNode_literal_inv|intros [-> ->]; apply toRdfNode_quoted].
Qed.

(** [toRdfNode] maps different strings to different nodes. *)
Theorem toRdfNode_injective (entity entity' : string) :
  toRdfNode entity = toRdfNode entity' → entity = entity'.
Proof.
  intros Hsame. destruct (toRdfNode entity') as [value xml_lang|value] eqn:Hentity'.
  - apply toRdfNode_literal_inv in Hsame as [-> _].
    by apply toRdfNode_literal_inv in Hentity' as [-> _].
  - unfold toRdfNode in Hsame, Hentity'.
    destruct (_ && _) in Hsame; [done|]. destruct (_ && _) in Hentity'; [done|].
    congruence.
Qed.

Lemma string_append_assoc (s t u : string) : (s +:+ t) +:+ u = s +:+ t +:+ u.
Proof.
  induction s as [|c s IH]; [done|].
  change (String c ((s +:+ t) +:+ u) = String c (s +:+ t +:+ u)). by rewrite IH.
Qed.

Lemma string_append_nil_r (s : string) : s +:+ "" = s.
Proof.
  induction s as [|c s IH]; [done|]. change (String c (s +:+ "") = String c s).
  by rewrite IH.
Qed.

(** [createRefQueryPart] returns the empty string exactly when there is no
    element id, or an empty one, whatever the link id and the direction. *)
Theorem createRefQueryPart_empty (params : RefParams) :
  createRefQueryPart params = "" ↔ truthy (elementId params) = false.
Proof.
  unfold createRefQueryPart. cbn zeta.
  destruct (truthy (elementId params)); [|done].
  split; [|done]. destruct (truthy (linkId params)), (direction params) as [[]|]; done.
Qed.

(** Without a direction [createRefQueryPart] returns the pattern for the
    outgoing links and the pattern for the incoming links, joined by
    [UNION]. *)
Theorem createRefQueryPart_union (element link : option string) :
  truthy element = true →
  createRefQueryPart {| elementId := element; linkId := link; direction := None |}
  = createRefQueryPart {| elementId := element; linkId := link; direction := Some dir_out |}
    +:+ " UNION "
    +:+ createRefQueryPart {| elementId := element; linkId := link; direction := Some dir_in |}.
Proof.
  intros Helement. unfold createRefQueryPart. cbn zeta. cbn [elementId linkId direction].
  rewrite Helement. destruct (truthy link); cbn [andb orb negb];
    rewrite ?string_append_nil_r; cbn [String.append]; by rewrite ?string_append_assoc.
Qed.
End SparqlFacts.

(** * Diagrams in the serialized form *)

Section SerializedDiagramFacts.
Import SerializedDiagram.

Lemma pick_lookup (cell : Value) (paths : list string) (key : string) :
  pick cell paths !! key
  = if bool_decide (key ∈ paths) then fieldsOf cell ≫= (.!! key) else None.
Proof.
  unfold pick. destruct (fieldsOf cell) as [fields|]; [|by case_bool_decide].
  cbn [mbind option_bind].
  enough (∀ acc : gmap string Value,
            foldl (λ result path,
                     match fields !! path with
                     | Some value => <[path := value]> result
                     | None => result
                     end) acc paths !! key
            = if bool_decide (key ∈ paths)
              then match fields !! key with Some value => Some value | None => acc !! key end
              else acc !! key) as Hfold.
  { rewrite Hfold, lookup_empty. case_bool_decide; [|done]. by destruct (fields !! key). }
  induction paths as [|path paths IH]; intros acc; [done|].
  cbn [foldl]. rewrite IH. destruct (decide (key = path)) as [->|Hne].
  - rewrite (bool_decide_eq_true_2 (path ∈ path :: paths)) by left.
    destruct (fields !! path) as [value|] eqn:Hpath.
    + case_bool_decide; [done|]. by rewrite lookup_insert_eq.
    + by case_bool_decide.
  - assert (bool_decide (key ∈ path :: paths) = bool_decide (key ∈ paths)) as ->.
    { apply bool_decide_ext. rewrite elem_of_cons. split; [by intros [?|?]|by right]. }
    destruct (fields !! path) as [value|]; [|done].
    by rewrite lookup_insert_ne.
Qed.

Lemma get_pick (cell : Value) (key : string) :
  key ∈ serializedCellProperties →
  get key (pick cell serializedCellProperties) = property key cell.
Proof.
  intros Hkey. unfold get, property. rewrite pick_lookup, bool_decide_eq_true_2 by done.
  by destruct (fieldsOf cell).
Qed.

Ltac map_lookup :=
  repeat first
    [ rewrite lookup_delete_eq
    | rewrite lookup_delete_ne by done
    | rewrite lookup_insert_eq
    | rewrite lookup_insert_ne by done ].

Lemma isText_eq (value : Value) (s : string) : isText value s = true ↔ value = text s.
Proof.
  destruct value; cbn; try done. rewrite String.eqb_eq. split; [by intros ->|by intros [= ->]].
Qed.

Lemma normalizeType_type (newCell : gmap string Value) :
  get "type" (normalizeType newCell)
  = if isText (get "type" newCell) "Ontodia.Element" || isText (get "type" newCell) "element"
    then text "Element"
    else if isText (get "type" newCell) "link" then text "Link"
    else get "type" newCell.
Proof.
  unfold normalizeType. cbn zeta.
  destruct (isText (get "type" newCell) "Ontodia.Element" || isText (get "type" newCell) "element").
  - unfold get. map_lookup. cbn. by map_lookup.
  - destruct (isText (get "type" newCell) "link"); [|done]. unfold get. by map_lookup.
Qed.

Lemma normalizeType_other (newCell : gmap string Value) (key : string) :
  key ≠ "type" → normalizeType newCell !! key = newCell !! key.
Proof.
  intros Hkey. unfold normalizeType. cbn zeta.
  repeat (match goal with |- context [if ?c then _ else _] => destruct c end);
    by map_lookup.
Qed.

Lemma defaultIri_iri (newCell : gmap string Value) :
  get "iri" (defaultIri newCell)
  = if truthy (get "iri" newCell) then get "iri" newCell else get "id" newCell.
Proof.
  unfold defaultIri. destruct (truthy (get "iri" newCell)); [done|].
  cbn. unfold get. by map_lookup.
Qed.

Lemma defaultIri_other (newCell : gmap string Value) (key : string) :
  key ≠ "iri" → defaultIri newCell !! key = newCell !! key.
Proof.
  intros Hkey. unfold defaultIri. destruct (negb _); by map_lookup.
Qed.

Lemma renameToJsonLd_lookup (newCell : gmap string Value) :
  renameToJsonLd newCell !! "@id" = Some (get "id" newCell)
  ∧ renameToJsonLd newCell !! "@type" = Some (get "type" newCell)
  ∧ renameToJsonLd newCell !! "id" = None
  ∧ renameToJsonLd newCell !! "type" = None
  ∧ ∀ key, key ≠ "@id" → key ≠ "@type" → key ≠ "id" → key ≠ "type" →
           renameToJsonLd newCell !! key = newCell !! key.
Proof.
  unfold renameToJsonLd. cbn zeta. split_and!.
  - by map_lookup.
  - map_lookup. unfold get. by map_lookup.
  - by map_lookup.
  - by map_lookup.
  - intros key ? ? ? ?. by map_lookup.
Qed.

Lemma newCellOf_lookup (cell : Value) :
  newCellOf cell !! "@id" = Some (property "id" cell)
  ∧ newCellOf cell !! "@type"
    = Some (if isElementCell cell then text "Element"
            else if isLinkCell cell then text "Link"
            else property "type" cell)
  ∧ newCellOf cell !! "id" = None
  ∧ newCellOf cell !! "type" = None
  ∧ get "iri" (newCellOf cell)
    = (if truthy (property "iri" cell) then property "iri" cell else property "id" cell)
  ∧ ∀ key, key ≠ "@id" → key ≠ "@type" → key ≠ "id" → key ≠ "type" → key ≠ "iri" →
           newCellOf cell !! key
           = if bool_decide (key ∈ serializedCellProperties)
             then fieldsOf cell ≫= (.!! key) else None.
Proof.
  unfold newCellOf.
  destruct (renameToJsonLd_lookup
              (defaultIri (normalizeType (pick cell serializedCellProperties))))
    as (Hid & Htype & Hnoid & Hnotype & Hother).
  assert (∀ key, key ≠ "type" → key ≠ "iri" → key ∈ serializedCellProperties →
                 get key (defaultIri (normalizeType (pick cell serializedCellProperties)))
                 = property key cell) as Hget.
  { intros key ? ? ?. unfold get at 1.
    rewrite defaultIri_other, normalizeType_other by done. by apply get_pick. }
  split_and!; [| | done | done | |].
  - rewrite Hid. f_equal. apply Hget; [done|done|set_solver].
  - rewrite Htype. f_equal. unfold get at 1. rewrite defaultIri_other by done.
    fold (get "type" (normalizeType (pick cell serializedCellProperties))).
    rewrite normalizeType_type, get_pick by set_solver.
    unfold isElementCell, isLinkCell.
    destruct (property "type" cell) as [| | | |s| |]; try done. cbn [isText].
    destruct (String.eqb_spec s "Ontodia.Element") as [->|?]; [done|].
    destruct (String.eqb_spec s "element") as [->|?]; [done|].
    destruct (String.eqb_spec s "Element") as [->|?]; [done|].
    destruct (String.eqb_spec s "link") as [->|?]; [done|].
    by destruct (String.eqb_spec s "Link") as [->|?].
  - unfold get at 1. rewrite Hother by done.
    fold (get "iri" (defaultIri (normalizeType (pick cell serializedCellProperties)))).
    rewrite defaultIri_iri. unfold get at 1 2 3.
    rewrite !normalizeType_other by done.
    fold (get "iri" (pick cell serializedCellProperties)).
    fold (get "id" (pick cell serializedCellProperties)).
    by rewrite !get_pick by set_solver.
  - intros key ? ? ? ? ?.
    rewrite Hother, defaultIri_other, normalizeType_other by done. apply pick_lookup.
Qed.

Lemma newCellOf_isText (cell : Value) :
  isText (get "@type" (newCellOf cell)) "Element" = isElementCell cell
  ∧ isText (get "@type" (newCellOf cell)) "Link" = isLinkCell cell.
Proof.
  destruct (newCellOf_lookup cell) as (_ & Htype & _). unfold get. rewrite Htype.
  cbn [default]. unfold isElementCell, isLinkCell.
  destruct (property "type" cell) as [| | | |s| |]; try done. cbn [isText].
  destruct (String.eqb_spec s "Ontodia.Element") as [->|?]; [done|].
  destruct (String.eqb_spec s "element") as [->|?]; [done|].
  destruct (String.eqb_spec s "Element") as [->|?]; [done|].
  destruct (String.eqb_spec s "link") as [->|?]; [done|].
  destruct (String.eqb_spec s "Link") as [->|?]; [done|]. cbn.
  split; by apply String.eqb_neq.
Qed.

Lemma newCellOf_get (cell : Value) (key : string) :
  key ∈ ["size"; "angle"; "isExpanded"; "position"; "group";
         "typeId"; "source"; "target"; "vertices"] →
  get key (newCellOf cell) = property key cell.
Proof.
  intros Hkey. destruct (newCellOf_lookup cell) as (_ & _ & _ & _ & _ & Hother).
  unfold get, property.
  repeat (apply elem_of_cons in Hkey as [->|Hkey]); [..|by apply elem_of_nil in Hkey].
  all: rewrite Hother by done.
  all: rewrite bool_decide_eq_true_2 by (apply (bool_decide_unpack _); by vm_compute).
  all: by destruct (fieldsOf cell).
Qed.

Lemma renameId_None (value : Value) : renameId value = None ↔ isObject value = false.
Proof. by destruct value. Qed.

Lemma renameId_Some (value renamed : Value) :
  renameId value = Some renamed →
  isObject value = true
  ∧ isObject renamed = true
  ∧ property "@id" renamed = property "id" value
  ∧ property "id" renamed = undefined.
Proof.
  destruct value as [| | | | |fields|items fields]; try done; intros [= <-];
    unfold property, get; cbn [fieldsOf isObject]; by map_lookup.
Qed.

Lemma type_exclusive (cell : Value) : isElementCell cell = true → isLinkCell cell = false.
Proof.
  unfold isElementCell, isLinkCell.
  destruct (property "type" cell) as [| | | |s| |]; try done. cbn [isText].
  destruct (String.eqb_spec s "Ontodia.Element") as [->|?]; [done|].
  destruct (String.eqb_spec s "element") as [->|?]; [done|].
  by destruct (String.eqb_spec s "Element") as [->|?].
Qed.

Lemma isLinkCell_isObject (cell : Value) : isLinkCell cell = true → isObject cell = true.
Proof. unfold isLinkCell, property, isObject. by destruct (fieldsOf cell). Qed.

Lemma property_setProperty (cell value : Value) (key key' : string) :
  isObject cell = true →
  property key' (setProperty key value cell)
  = if decide (key' = key) then value else property key' cell.
Proof.
  destruct cell as [| | | | |fields|items fields]; try done; intros _;
    unfold property, get; cbn [setProperty fieldsOf];
    (destruct (decide (key' = key)) as [->|?]; by map_lookup).
Qed.

Lemma isObject_setProperty (cell value : Value) (key : string) :
  isObject (setProperty key value cell) = isObject cell.
Proof. by destruct cell. Qed.

(** The body of the loop by the type of the cell. *)
Lemma convertCell_spec (state : Loop) (cell : Value) :
  convertCell state cell
  = if isElementCell cell then
      Normal {| loop_elements := loop_elements state ++ [newCellOf cell];
                loop_links := loop_links state;
                loop_cells := loop_cells state ++ [cell] |}
    else if isLinkCell cell then
      match renameId (property "source" cell) with
      | None => TypeError
      | Some source =>
          match renameId (property "target" cell) with
          | None => TypeError
          | Some target =>
              Normal {| loop_elements := loop_elements state;
                        loop_links :=
                          loop_links state
                          ++ [delete "typeId"
                                (<["property" := property "typeId" cell]>
                                   (<["target" := target]>
                                      (<["source" := source]> (newCellOf cell))))];
                        loop_cells :=
                          loop_cells state
                          ++ [setProperty "target" target
                                (setProperty "source" source cell)] |}
          end
      end
    else
      Normal {| loop_elements := loop_elements state;
                loop_links := loop_links state;
                loop_cells := loop_cells state ++ [cell] |}.
Proof.
  unfold convertCell. cbn zeta. destruct (newCellOf_isText cell) as [-> ->].
  destruct (isElementCell cell); [done|]. destruct (isLinkCell cell); [|done].
  rewrite (newCellOf_get cell "source") by (apply (bool_decide_unpack _); by vm_compute).
  destruct (renameId (property "source" cell)) as [source|]; [|done].
  assert (get "target" (<["source" := source]> (newCellOf cell)) = property "target" cell)
    as ->.
  { unfold get. map_lookup. apply (newCellOf_get cell "target").
    apply (bool_decide_unpack _). by vm_compute. }
  destruct (renameId (property "target" cell)) as [target|]; [|done].
  assert (get "typeId" (<["target" := target]> (<["source" := source]> (newCellOf cell)))
          = property "typeId" cell) as ->; [|done].
  unfold get. map_lookup. apply (newCellOf_get cell "typeId").
  apply (bool_decide_unpack _). by vm_compute.
Qed.

(** A link cell whose source or target is no object. *)
Let broken (cell : Value) : Prop :=
  isLinkCell cell = true
  ∧ (isObject (property "source" cell) = false ∨ isObject (property "target" cell) = false).

(** The link made of a link cell. *)
Let linkOf (link : gmap string Value) (cell : Value) : Prop :=
  ∃ source target,
    renameId (property "source" cell) = Some source
    ∧ renameId (property "target" cell) = Some target
    ∧ link = delete "typeId"
               (<["property" := property "typeId" cell]>
                  (<["target" := target]> (<["source" := source]> (newCellOf cell)))).

(** A cell after the call. *)
Let cellAfter (after cell : Value) : Prop :=
  if isLinkCell cell
  then ∃ source target,
         renameId (property "source" cell) = Some source
         ∧ renameId (property "target" cell) = Some target
         ∧ after = setProperty "target" target (setProperty "source" source cell)
  else after = cell.

Lemma convertCells_spec (cells : list Value) : ∀ state,
  match convertCells state cells with
  | TypeError => Exists broken cells
  | Normal state' =>
      Forall (λ cell, ¬ broken cell) cells
      ∧ loop_elements state'
        = loop_elements state ++ (newCellOf <$> List.filter isElementCell cells)
      ∧ (∃ made, loop_links state' = loop_links state ++ made
                 ∧ Forall2 linkOf made (List.filter isLinkCell cells))
      ∧ (∃ after, loop_cells state' = loop_cells state ++ after
                  ∧ Forall2 cellAfter after cells)
  end.
Proof.
  induction cells as [|cell cells IH]; intros state.
  { cbn. split_and!; [constructor|by rewrite app_nil_r| |].
    - exists []. split; [by rewrite app_nil_r|constructor].
    - exists []. split; [by rewrite app_nil_r|constructor]. }
  cbn [convertCells List.filter]. rewrite convertCell_spec.
  destruct (isElementCell cell) eqn:Helement.
  - rewrite (type_exclusive cell Helement).
    match goal with |- context [convertCells ?st cells] => specialize (IH st) end.
    destruct (convertCells _ cells) as [state'|]; [|by apply Exists_cons_tl].
    destruct IH as (Hfine & Helements & (made & Hlinks & Hmade) & (after & Hcells & Hafter)).
    cbn [loop_elements loop_links loop_cells] in *. split_and!.
    + constructor; [|done]. intros [Hlink _].
      by rewrite (type_exclusive cell Helement) in Hlink.
    + by rewrite Helements, <-app_assoc.
    + by exists made.
    + exists (cell :: after). split; [by rewrite Hcells, <-app_assoc|].
      constructor; [|done]. unfold cellAfter. by rewrite (type_exclusive cell Helement).
  - destruct (isLinkCell cell) eqn:Hlink.
    + destruct (renameId (property "source" cell)) as [source|] eqn:Hsource;
        [|apply Exists_cons_hd; split; [done|left; by apply renameId_None]].
      destruct (renameId (property "target" cell)) as [target|] eqn:Htarget;
        [|apply Exists_cons_hd; split; [done|right; by apply renameId_None]].
      match goal with |- context [convertCells ?st cells] => specialize (IH st) end.
      destruct (convertCells _ cells) as [state'|]; [|by apply Exists_cons_tl].
      destruct IH as (Hfine & Helements & (made & Hlinks & Hmade) & (after & Hcells & Hafter)).
      cbn [loop_elements loop_links loop_cells] in *. split_and!.
      * constructor; [|done]. intros [_ [Hbroken|Hbroken]].
        -- apply renameId_None in Hbroken. congruence.
        -- apply renameId_None in Hbroken. congruence.
      * done.
      * eexists (_ :: made). split; [by rewrite Hlinks, <-app_assoc|].
        constructor; [|done]. by exists source, target.
      * eexists (_ :: after). split; [by rewrite Hcells, <-app_assoc|].
        constructor; [|done]. unfold cellAfter. rewrite Hlink. by exists source, target.
    + match goal with |- context [convertCells ?st cells] => specialize (IH st) end.
      destruct (convertCells _ cells) as [state'|]; [|by apply Exists_cons_tl].
      destruct IH as (Hfine & Helements & (made & Hlinks & Hmade) & (after & Hcells & Hafter)).
      cbn [loop_elements loop_links loop_cells] in *. split_and!.
      * constructor; [|done]. intros [Hbroken _]. congruence.
      * done.
      * by exists made.
      * exists (cell :: after). split; [by rewrite Hcells, <-app_assoc|].
        constructor; [|done]. unfold cellAfter. by rewrite Hlink.
Qed.

Lemma convertToSerializedDiagram_spec (cells : list Value) (options : Value) :
  match convertToSerializedDiagram cells options with
  | TypeError => Exists broken cells
  | Normal (diagram, after) =>
      Forall (λ cell, ¬ broken cell) cells
      ∧ elements (layoutData diagram) = newCellOf <$> List.filter isElementCell cells
      ∧ Forall2 linkOf (links (layoutData diagram)) (List.filter isLinkCell cells)
      ∧ Forall2 cellAfter after cells
  end.
Proof.
  unfold convertToSerializedDiagram.
  pose proof (convertCells_spec cells
                {| loop_elements := []; loop_links := []; loop_cells := [] |}) as Hspec.
  destruct (convertCells _ cells) as [state|]; [|done].
  destruct Hspec as (Hfine & Helements & (made & Hlinks & Hmade) & (after & Hcells & Hafter)).
  cbn in *. by subst.
Qed.

Lemma Forall2_fmap_eq {A B C : Type} (R : A → B → Prop) (P : B → Prop)
    (f : A → C) (g : B → C) (l : list A) (k : list B) :
  Forall2 R l k → Forall P k → (∀ x y, R x y → P y → f x = g y) → f <$> l = g <$> k.
Proof.
  intros Hlk Hk Hfg. induction Hlk as [|x y l k Hxy Hlk IH]; [done|].
  apply Forall_cons in Hk as [Hy Hk]. cbn. f_equal; [by apply Hfg|by apply IH].
Qed.

Lemma Forall2_Forall_left {A B : Type} (R : A → B → Prop) (P : B → Prop) (Q : A → Prop)
    (l : list A) (k : list B) :
  Forall2 R l k → Forall P k → (∀ x y, R x y → P y → Q x) → Forall Q l.
Proof.
  intros Hlk Hk HQ. induction Hlk as [|x y l k Hxy Hlk IH]; [constructor|].
  apply Forall_cons in Hk as [Hy Hk]. constructor; [by eapply HQ|by apply IH].
Qed.

Lemma Forall_filter_true (test : Value → bool) (cells : list Value) :
  Forall (λ cell, test cell = true) (List.filter test cells).
Proof.
  induction cells as [|cell cells IH]; [constructor|]. cbn.
  destruct (test cell) eqn:Htest; [by constructor|done].
Qed.

Lemma isLinkCell_not_element (cell : Value) :
  isLinkCell cell = true → isElementCell cell = false.
Proof.
  intros Hlink. destruct (isElementCell cell) eqn:Helement; [|done].
  apply type_exclusive in Helement. congruence.
Qed.

(** The properties of the link made of a link cell. *)
Lemma linkOf_lookup (link : gmap string Value) (cell : Value) :
  linkOf link cell → isLinkCell cell = true →
  link !! "@id" = Some (property "id" cell)
  ∧ link !! "@type" = Some (text "Link")
  ∧ link !! "id" = None ∧ link !! "type" = None ∧ link !! "typeId" = None
  ∧ link !! "property" = Some (property "typeId" cell)
  ∧ get "iri" link
    = (if truthy (property "iri" cell) then property "iri" cell else property "id" cell)
  ∧ renameId (property "source" cell) = Some (get "source" link)
  ∧ renameId (property "target" cell) = Some (get "target" link)
  ∧ ∀ key, key ∈ ["size"; "angle"; "isExpanded"; "position"; "group"; "vertices"] →
           get key link = property key cell.
Proof.
  intros (source & target & Hsource & Htarget & ->) Hlink.
  destruct (newCellOf_lookup cell) as (Hid & Htype & Hnoid & Hnotype & Hiri & Hother).
  rewrite (isLinkCell_not_element cell Hlink), Hlink in Htype.
  unfold get in *. map_lookup. split_and!; try done.
  intros key Hkey.
  repeat (apply elem_of_cons in Hkey as [->|Hkey]); [..|by apply elem_of_nil in Hkey].
  all: map_lookup.
  all: apply (newCellOf_get cell); apply (bool_decide_unpack _); by vm_compute.
Qed.

(** A cell after the call, property by property. *)
Lemma cellAfter_properties (after cell : Value) :
  cellAfter after cell →
  isLinkCell after = isLinkCell cell
  ∧ isElementCell after = isElementCell cell
  ∧ (isLinkCell cell = false → after = cell)
  ∧ (isLinkCell cell = true →
     renameId (property "source" cell) = Some (property "source" after)
     ∧ renameId (property "target" cell) = Some (property "target" after)
     ∧ ∀ key, key ≠ "source" → key ≠ "target" → property key after = property key cell).
Proof.
  unfold cellAfter. destruct (isLinkCell cell) eqn:Hlink.
  - intros (source & target & Hsource & Htarget & ->).
    pose proof (isLinkCell_isObject cell Hlink) as Hobject.
    assert (∀ key, property key (setProperty "target" target
                                   (setProperty "source" source cell))
                   = if decide (key = "target") then target
                     else if decide (key = "source") then source
                     else property key cell) as Hproperty.
    { intros key. rewrite property_setProperty by by rewrite isObject_setProperty.
      by rewrite property_setProperty by done. }
    unfold isLinkCell, isElementCell. rewrite !Hproperty. cbn.
    split_and!; try done.
    intros _. split_and!; [done|done|]. intros key ? ?.
    rewrite Hproperty. by rewrite !decide_False by done.
  - intros ->. by split_and!.
Qed.

(** [convertToSerializedDiagram] throws exactly when the source or the
    target of some link cell is no object; the cells of the other types,
    whatever they are, make it throw nothing. *)
Theorem convertToSerializedDiagram_throws (cells : list Value) (options : Value) :
  convertToSerializedDiagram cells options = TypeError
  ↔ Exists (λ cell, isLinkCell cell = true
                    ∧ (isObject (property "source" cell) = false
                       ∨ isObject (property "target" cell) = false)) cells.
Proof.
  pose proof (convertToSerializedDiagram_spec cells options) as Hspec.
  destruct (convertToSerializedDiagram cells options) as [[diagram after]|]; [|done].
  split; [done|]. intros Hbroken. destruct Hspec as [Hfine _].
  apply Exists_exists in Hbroken as (cell & Hcell & Hbroken).
  rewrite Forall_forall in Hfine. by destruct (Hfine cell Hcell).
Qed.

(** A diagram made by [convertToSerializedDiagram] has an element for each
    cell of the type [Ontodia.Element], [element] or [Element] and a link
    for each cell of the type [link] or [Link], each list in the order of
    the cells and with the ids of the cells as ['@id']; the cells of the
    other types are left out.  The elements have the type [Element], the
    links the type [Link], and none of them has a property [id] or [type]. *)
Theorem convertToSerializedDiagram_sorts (cells : list Value) (options : Value)
    (diagram : SerializedDiagram) (after : list Value) :
  convertToSerializedDiagram cells options = Normal (diagram, after) →
  get "@id" <$> elements (layoutData diagram)
  = property "id" <$> List.filter isElementCell cells
  ∧ get "@id" <$> links (layoutData diagram)
    = property "id" <$> List.filter isLinkCell cells
  ∧ Forall (λ element, element !! "@type" = Some (text "Element")
                       ∧ element !! "id" = None ∧ element !! "type" = None)
      (elements (layoutData diagram))
  ∧ Forall (λ link, link !! "@type" = Some (text "Link")
                    ∧ link !! "id" = None ∧ link !! "type" = None)
      (links (layoutData diagram)).
Proof.
  intros Hconverted.
  pose proof (convertToSerializedDiagram_spec cells options) as Hspec.
  rewrite Hconverted in Hspec. destruct Hspec as (_ & -> & Hlinks & _).
  split_and!.
  - rewrite <-list_fmap_compose. apply list_fmap_ext. intros i cell _. cbn.
    destruct (newCellOf_lookup cell) as (Hid & _). unfold get. by rewrite Hid.
  - eapply Forall2_fmap_eq; [exact Hlinks|apply Forall_filter_true|].
    intros link cell Hlink Hcell. destruct (linkOf_lookup link cell Hlink Hcell) as (Hid & _).
    unfold get. by rewrite Hid.
  - apply Forall_fmap. eapply Forall_impl; [apply (Forall_filter_true isElementCell)|].
    intros cell Hcell. cbn.
    destruct (newCellOf_lookup cell) as (_ & Htype & Hnoid & Hnotype & _).
    by rewrite Hcell in Htype.
  - eapply Forall2_Forall_left; [exact Hlinks|apply Forall_filter_true|].
    intros link cell Hlink Hcell. cbn in Hcell.
    by destruct (linkOf_lookup link cell Hlink Hcell) as (_ & ? & ? & ? & _).
Qed.

(** What [convertToSerializedDiagram] makes of the properties of a cell.
    An element and a link have as [iri] the IRI of the cell, or its id when
    the IRI is missing or falsy.  A link has the [typeId] of the cell as
    [property] and no [typeId]; its source and its target have the [id] of
    the source and of the target of the cell as ['@id'] and no [id].  The
    size, the angle, the position, the group, the vertices and whether it
    is expanded are those of the cell. *)
Theorem convertToSerializedDiagram_properties (cells : list Value) (options : Value)
    (diagram : SerializedDiagram) (after : list Value) :
  convertToSerializedDiagram cells options = Normal (diagram, after) →
  let iriOf cell :=
    if truthy (property "iri" cell) then property "iri" cell else property "id" cell in
  get "iri" <$> elements (layoutData diagram) = iriOf <$> List.filter isElementCell cells
  ∧ get "iri" <$> links (layoutData diagram) = iriOf <$> List.filter isLinkCell cells
  ∧ get "property" <$> links (layoutData diagram)
    = property "typeId" <$> List.filter isLinkCell cells
  ∧ Forall (λ link, link !! "typeId" = None
                    ∧ property "id" (get "source" link) = undefined
                    ∧ property "id" (get "target" link) = undefined)
      (links (layoutData diagram))
  ∧ (λ link, property "@id" (get "source" link)) <$> links (layoutData diagram)
    = (λ cell, property "id" (property "source" cell)) <$> List.filter isLinkCell cells
  ∧ (λ link, property "@id" (get "target" link)) <$> links (layoutData diagram)
    = (λ cell, property "id" (property "target" cell)) <$> List.filter isLinkCell cells
  ∧ ∀ key, key ∈ ["size"; "angle"; "isExpanded"; "position"; "group"; "vertices"] →
           get key <$> elements (layoutData diagram)
           = property key <$> List.filter isElementCell cells
           ∧ get key <$> links (layoutData diagram)
             = property key <$> List.filter isLinkCell cells.
Proof.
  intros Hconverted iriOf.
  pose proof (convertToSerializedDiagram_spec cells options) as Hspec.
  rewrite Hconverted in Hspec. destruct Hspec as (_ & -> & Hlinks & _).
  split_and!.
  - rewrite <-list_fmap_compose. apply list_fmap_ext. intros i cell _. cbn.
    by destruct (newCellOf_lookup cell) as (_ & _ & _ & _ & Hiri & _).
  - eapply Forall2_fmap_eq; [exact Hlinks|apply Forall_filter_true|].
    intros link cell Hlink Hcell.
    by destruct (linkOf_lookup link cell Hlink Hcell) as (_ & _ & _ & _ & _ & _ & Hiri & _).
  - eapply Forall2_fmap_eq; [exact Hlinks|apply Forall_filter_true|].
    intros link cell Hlink Hcell.
    destruct (linkOf_lookup link cell Hlink Hcell) as (_ & _ & _ & _ & _ & Hproperty & _).
    unfold get. by rewrite Hproperty.
  - eapply Forall2_Forall_left; [exact Hlinks|apply Forall_filter_true|].
    intros link cell Hlink Hcell. cbn in Hcell.
    destruct (linkOf_lookup link cell Hlink Hcell)
      as (_ & _ & _ & _ & Hnone & _ & _ & Hsource & Htarget & _).
    apply renameId_Some in Hsource as (_ & _ & _ & Hsource).
    by apply renameId_Some in Htarget as (_ & _ & _ & Htarget).
  - eapply Forall2_fmap_eq; [exact Hlinks|apply Forall_filter_true|].
    intros link cell Hlink Hcell. cbn in Hcell.
    destruct (linkOf_lookup link cell Hlink Hcell)
      as (_ & _ & _ & _ & _ & _ & _ & Hsource & _).
    by apply renameId_Some in Hsource as (_ & _ & Hsource & _).
  - eapply Forall2_fmap_eq; [exact Hlinks|apply Forall_filter_true|].
    intros link cell Hlink Hcell. cbn in Hcell.
    destruct (linkOf_lookup link cell Hlink Hcell)
      as (_ & _ & _ & _ & _ & _ & _ & _ & Htarget & _).
    by apply renameId_Some in Htarget as (_ & _ & Htarget & _).
  - intros key Hkey. split.
    + rewrite <-list_fmap_compose. apply list_fmap_ext. intros i cell _. cbn.
      apply newCellOf_get.
      repeat (apply elem_of_cons in Hkey as [->|Hkey]); [..|by apply elem_of_nil in Hkey].
      all: apply (bool_decide_unpack _); by vm_compute.
    + eapply Forall2_fmap_eq; [exact Hlinks|apply Forall_filter_true|].
      intros link cell Hlink Hcell. cbn in Hcell.
      destruct (linkOf_lookup link cell Hlink Hcell)
        as (_ & _ & _ & _ & _ & _ & _ & _ & _ & Hkept).
      by apply Hkept.
Qed.

(** [convertToSerializedDiagram] changes the cells it is given: after the
    call the source and the target of every link cell have their id as
    ['@id'] and no [id] any more; nothing else is changed, and no cell of
    another type. *)
Theorem convertToSerializedDiagram_changes_cells (cells : list Value) (options : Value)
    (diagram : SerializedDiagram) (after : list Value) :
  convertToSerializedDiagram cells options = Normal (diagram, after) →
  Forall2 (λ cell' cell,
             if isLinkCell cell
             then property "id" (property "source" cell') = undefined
                  ∧ property "@id" (property "source" cell')
                    = property "id" (property "source" cell)
                  ∧ property "id" (property "target" cell') = undefined
                  ∧ property "@id" (property "target" cell')
                    = property "id" (property "target" cell)
                  ∧ ∀ key, key ≠ "source" → key ≠ "target" →
                           property key cell' = property key cell
             else cell' = cell)
    after cells.
Proof.
  intros Hconverted.
  pose proof (convertToSerializedDiagram_spec cells options) as Hspec.
  rewrite Hconverted in Hspec. destruct Hspec as (_ & _ & _ & Hafter).
  eapply Forall2_impl; [exact Hafter|]. intros cell' cell Hcell. cbn.
  destruct (cellAfter_properties cell' cell Hcell) as (_ & _ & Hsame & Hchanged).
  destruct (isLinkCell cell); [|by apply Hsame].
  destruct (Hchanged eq_refl) as (Hsource & Htarget & Hother).
  apply renameId_Some in Hsource as (_ & _ & ? & ?).
  by apply renameId_Some in Htarget as (_ & _ & ? & ?).
Qed.

Lemma filter_after (test : Value → bool) (after cells : list Value) :
  Forall2 (λ cell' cell, test cell' = test cell) after cells →
  Forall2 (λ cell' cell, test cell' = test cell ∧ test cell = true)
    (List.filter test after) (List.filter test cells).
Proof.
  intros Hafter. induction Hafter as [|cell' cell after cells Hcell Hafter IH]; [constructor|].
  cbn. rewrite Hcell. destruct (test cell) eqn:Htest; [|exact IH].
  constructor; [|exact IH]. by rewrite Htest.
Qed.

Lemma elements_after (after cells : list Value) :
  Forall2 cellAfter after cells →
  List.filter isElementCell after = List.filter isElementCell cells.
Proof.
  intros Hafter. induction Hafter as [|cell' cell after cells Hcell Hafter IH]; [done|].
  destruct (cellAfter_properties cell' cell Hcell) as (_ & Helement & Hsame & _).
  cbn. rewrite Helement, IH. destruct (isElementCell cell) eqn:Hcell'; [|done].
  by rewrite (Hsame (type_exclusive cell Hcell')).
Qed.

(** The cells a call has changed are converted by a second call, but to
    a diagram other than the first: its elements are those of the first
    diagram, its links are as many, but the source and the target of every
    link have [undefined] as ['@id']. *)
Theorem convertToSerializedDiagram_twice (cells : list Value) (options options' : Value)
    (diagram : SerializedDiagram) (after : list Value) :
  convertToSerializedDiagram cells options = Normal (diagram, after) →
  ∃ diagram' after',
    convertToSerializedDiagram after options' = Normal (diagram', after')
    ∧ elements (layoutData diagram') = elements (layoutData diagram)
    ∧ length (links (layoutData diagram')) = length (links (layoutData diagram))
    ∧ Forall (λ link, property "@id" (get "source" link) = undefined
                      ∧ property "@id" (get "target" link) = undefined)
        (links (layoutData diagram')).
Proof.
  intros Hconverted.
  pose proof (convertToSerializedDiagram_spec cells options) as Hspec.
  rewrite Hconverted in Hspec. destruct Hspec as (_ & Helements & Hlinks & Hafter).
  assert (Forall (λ cell', isLinkCell cell' = true →
                           (∃ source, renameId (property "source" cell') = Some source
                                      ∧ property "@id" source = undefined)
                           ∧ (∃ target, renameId (property "target" cell') = Some target
                                        ∧ property "@id" target = undefined)) after)
    as Hends.
  { eapply (Forall2_Forall_left _ (λ _, True)); [exact Hafter|by apply Forall_true|].
    intros cell' cell Hcell _.
    destruct (cellAfter_properties cell' cell Hcell) as (Hlink & _ & _ & Hchanged).
    rewrite Hlink. intros Hcell'. destruct (Hchanged Hcell') as (Hsource & Htarget & _).
    apply renameId_Some in Hsource as (_ & Hsource & _ & Hnoid).
    apply renameId_Some in Htarget as (_ & Htarget & _ & Hnoid').
    destruct (renameId (property "source" cell')) as [source|] eqn:Hsource';
      [|apply renameId_None in Hsource'; congruence].
    destruct (renameId (property "target" cell')) as [target|] eqn:Htarget';
      [|apply renameId_None in Htarget'; congruence].
    apply renameId_Some in Hsource' as (_ & _ & Hsource' & _).
    apply renameId_Some in Htarget' as (_ & _ & Htarget' & _).
    split; eexists; (split; [done|congruence]). }
  pose proof (convertToSerializedDiagram_spec after options') as Hspec.
  destruct (convertToSerializedDiagram after options') as [[diagram' after']|].
  - destruct Hspec as (_ & Helements' & Hlinks' & _).
    exists diagram', after'. split_and!; [done| | |].
    + rewrite Helements, Helements'. f_equal. by apply elements_after.
    + rewrite (Forall2_length _ _ _ Hlinks), (Forall2_length _ _ _ Hlinks').
      eapply Forall2_length, filter_after. eapply Forall2_impl; [exact Hafter|].
      intros cell' cell Hcell. by destruct (cellAfter_properties cell' cell Hcell) as (? & _).
    + eapply Forall2_Forall_left; [exact Hlinks'| |].
      { apply Forall_forall. intros cell' Hcell'.
        apply list_elem_of_In, List.filter_In in Hcell' as [Hcell' Hlink].
        apply list_elem_of_In in Hcell'. rewrite Forall_forall in Hends.
        exact (conj Hlink (Hends cell' Hcell' Hlink)). }
      intros link cell' Hlink [Hcell' [(source & Hsource & Hnosource)
                                        (target & Htarget & Hnotarget)]].
      destruct (linkOf_lookup link cell' Hlink Hcell')
        as (_ & _ & _ & _ & _ & _ & _ & Hsource' & Htarget' & _).
      split; congruence.
  - exfalso. apply Exists_exists in Hspec as (cell' & Hcell' & Hlink & Hbroken).
    rewrite Forall_forall in Hends.
    destruct (Hends cell' Hcell' Hlink) as [(source & Hsource & _) (target & Htarget & _)].
    destruct Hbroken as [Hbroken|Hbroken]; apply renameId_None in Hbroken; congruence.
Qed.
End SerializedDiagramFacts.

(** * Worked examples of the added properties *)

Section MoreExamples.
Local Existing Instance exampleModel.
Local Existing Instance exampleMerge.

Lemma sequential_providers_prefix_witness :
  calledProvider <$> (elementInfo (sequential [providerA; providerB; providerNone])
                        ["1"; "2"; "3"]).2
  = take (length (elementInfo (sequential [providerA; providerB; providerNone])
                    ["1"; "2"; "3"]).2)
      [providerA; providerB; providerNone].
Proof.
  destruct sequential_providers_prefix as (_ & _ & _ & HelementInfo & _).
  apply (HelementInfo (sequential [providerA; providerB; providerNone]) ["1"; "2"; "3"]).
  by vm_compute.
Defined.

Lemma narrowing_requests_shrink_witness :
  ∃ callsMade : list (DPDefinition * list string),
    (elementInfo (sequential [providerA; providerB]) ["1"; "2"; "3"]).2
    = invocationOf elementInfoRequest <$> callsMade
    ∧ Forall (λ call, call.2 ≠ [] ∧ sublist call.2 ["1"; "2"; "3"]) callsMade
    ∧ (∀ i j a b, i < j → callsMade !! i = Some a → callsMade !! j = Some b →
                  sublist b.2 a.2).
Proof.
  destruct narrowing_requests_shrink as (_ & _ & _ & HelementInfo & _).
  apply (HelementInfo (sequential [providerA; providerB]) ["1"; "2"; "3"]).
  by vm_compute.
Defined.

Lemma sequential_empty_request_witness :
  elementInfo (sequential [providerA; providerB]) []
  = (Resolved (mergeElementInfo []), []).
Proof.
  destruct sequential_empty_request as (_ & _ & _ & HelementInfo & _).
  apply (HelementInfo (sequential [providerA; providerB])). by vm_compute.
Defined.

Lemma sequential_all_rejecting_witness :
  elementInfo (sequential [providerDown; providerDown]) ["1"; "2"]
  = (Resolved (mergeElementInfo []),
     callAll [providerDown; providerDown] (elementInfoRequest ["1"; "2"])).
Proof.
  destruct sequential_all_rejecting as (_ & _ & _ & HelementInfo & _).
  apply (HelementInfo (sequential [providerDown; providerDown]) ["1"; "2"]).
  - by vm_compute.
  - done.
  - intros dp s Hdp. cbn in Hdp.
    repeat (apply elem_of_cons in Hdp as [->|Hdp]); [..|by apply elem_of_nil in Hdp];
      reflexivity.
Defined.

Lemma binary_one_found_witness :
  ∃ responses made,
    queueProcessResults (filter_callBack "text")
      (sequential [providerNone; providerA; providerB]) ()
    = (Resolved responses, made)
    ∧ filter (sequential [providerNone; providerA; providerB]) "text"
      = (Resolved (mergeFilter responses), made)
    ∧ (∀ i entry, S i < length responses → responses !! i = Some entry →
                  ∃ r, response entry = Some r ∧ (keys_length r =? 0)%nat = true).
Proof.
  destruct binary_one_found as (_ & _ & Hfilter).
  apply (Hfilter "text" (sequential [providerNone; providerA; providerB])).
  by vm_compute.
Defined.

Lemma generated_names_distinct_witness :
  GeneratedNamesDiffer
    [bareProvider unreachable; definition providerA; bareProvider unreachable]
    {| dataProviders :=
         [ {| name := "dataProvider_1"; dataProvider := unreachable |};
           providerA;
           {| name := "dataProvider_2"; dataProvider := unreachable |} ];
       mergeMode := "fetchAll" |}.
Proof.
  apply (generated_names_distinct
           [bareProvider unreachable; definition providerA; bareProvider unreachable]
           None).
  reflexivity.
Defined.

Lemma constructor_keeps_definitions_witness :
  new_CompositeDataProvider (definition <$> [providerA; providerB])
    (Some (Some "sequentialFetching"))
  = Normal (sequential [providerA; providerB]).
Proof.
  apply (constructor_keeps_definitions (sequential [providerA; providerB])).
  by vm_compute.
Defined.
End MoreExamples.

Section LabelExamples.
Import DiagramModel.

Lemma chooseLocalizedText_requested_language_witness :
  chooseLocalizedText
    ([ {| text := "Haus"; lang := "de" |}; {| text := "house"; lang := "en" |} ]
     ++ {| text := "maison"; lang := "fr" |}
     :: [ {| text := "logis"; lang := "fr" |} ])
    "fr"
  = Some {| text := "maison"; lang := "fr" |}.
Proof.
  apply (chooseLocalizedText_requested_language
           [ {| text := "Haus"; lang := "de" |}; {| text := "house"; lang := "en" |} ]
           [ {| text := "logis"; lang := "fr" |} ]
           {| text := "maison"; lang := "fr" |}).
  by repeat constructor.
Defined.

Lemma chooseLocalizedText_fallback_witness :
  chooseLocalizedText
    [ {| text := "house"; lang := "en" |}; {| text := "home"; lang := "" |};
      {| text := "Haus"; lang := "de" |}; {| text := "dwelling"; lang := "" |} ]
    "fr"
  = match lastIn ""
            [ {| text := "house"; lang := "en" |}; {| text := "home"; lang := "" |};
              {| text := "Haus"; lang := "de" |}; {| text := "dwelling"; lang := "" |} ] with
    | Some defaultValue => Some defaultValue
    | None =>
        match lastIn "en"
                [ {| text := "house"; lang := "en" |}; {| text := "home"; lang := "" |};
                  {| text := "Haus"; lang := "de" |}; {| text := "dwelling"; lang := "" |} ]
        with
        | Some englishValue => Some englishValue
        | None =>
            head [ {| text := "house"; lang := "en" |}; {| text := "home"; lang := "" |};
                   {| text := "Haus"; lang := "de" |}; {| text := "dwelling"; lang := "" |} ]
        end
    end.
Proof.
  apply (chooseLocalizedText_fallback
           [ {| text := "house"; lang := "en" |}; {| text := "home"; lang := "" |};
             {| text := "Haus"; lang := "de" |}; {| text := "dwelling"; lang := "" |} ]
           "fr").
  by repeat constructor.
Defined.
End LabelExamples.

Section SparqlExamples.
Import Sparql.

Lemma toRdfNode_injective_witness : "http://example.com/a" = "http://example.com/a".
Proof.
  apply (toRdfNode_injective "http://example.com/a" "http://example.com/a").
  reflexivity.
Defined.

Lemma createRefQueryPart_union_witness :
  createRefQueryPart {| elementId := Some "http://example.com/a";
                        linkId := Some "http://example.com/knows";
                        direction := None |}
  = createRefQueryPart {| elementId := Some "http://example.com/a";
                          linkId := Some "http://example.com/knows";
                          direction := Some dir_out |}
    +:+ " UNION "
    +:+ createRefQueryPart {| elementId := Some "http://example.com/a";
                              linkId := Some "http://example.com/knows";
                              direction := Some dir_in |}.
Proof.
  apply (createRefQueryPart_union (Some "http://example.com/a")
           (Some "http://example.com/knows")).
  reflexivity.
Defined.
End SparqlExamples.

Section SerializedDiagramExamples.
Import SerializedDiagram.

Lemma convertToSerializedDiagram_sorts_witness :
  get "@id" <$> elements (layoutData convertedCells.1)
  = property "id" <$> List.filter isElementCell legacyCells
  ∧ get "@id" <$> links (layoutData convertedCells.1)
    = property "id" <$> List.filter isLinkCell legacyCells
  ∧ Forall (λ element, element !! "@type" = Some (text "Element")
                       ∧ element !! "id" = None ∧ element !! "type" = None)
      (elements (layoutData convertedCells.1))
  ∧ Forall (λ link, link !! "@type" = Some (text "Link")
                    ∧ link !! "id" = None ∧ link !! "type" = None)
      (links (layoutData convertedCells.1)).
Proof.
  apply (convertToSerializedDiagram_sorts legacyCells (array [] ∅)
           convertedCells.1 convertedCells.2).
  by vm_compute.
Defined.

Lemma convertToSerializedDiagram_properties_witness :
  get "property" <$> links (layoutData convertedCells.1)
  = property "typeId" <$> List.filter isLinkCell legacyCells.
Proof.
  apply (convertToSerializedDiagram_properties legacyCells (array [] ∅)
           convertedCells.1 convertedCells.2).
  by vm_compute.
Defined.

Lemma convertToSerializedDiagram_changes_cells_witness :
  Forall2 (λ cell' cell,
             if isLinkCell cell
             then property "id" (property "source" cell') = undefined
                  ∧ property "@id" (property "source" cell')
                    = property "id" (property "source" cell)
                  ∧ property "id" (property "target" cell') = undefined
                  ∧ property "@id" (property "target" cell')
                    = property "id" (property "target" cell)
                  ∧ ∀ key, key ≠ "source" → key ≠ "target" →
                           property key cell' = property key cell
             else cell' = cell)
    convertedCells.2 legacyCells.
Proof.
  apply (convertToSerializedDiagram_changes_cells legacyCells (array [] ∅)
           convertedCells.1 convertedCells.2).
  by vm_compute.
Defined.

Lemma convertToSerializedDiagram_twice_witness :
  ∃ diagram' after',
    convertToSerializedDiagram convertedCells.2 (array [] ∅) = Normal (diagram', after')
    ∧ elements (layoutData diagram') = elements (layoutData convertedCells.1)
    ∧ length (links (layoutData diagram')) = length (links (layoutData convertedCells.1))
    ∧ Forall (λ link, property "@id" (get "source" link) = undefined
                      ∧ property "@id" (get "target" link) = undefined)
        (links (layoutData diagram')).
Proof.
  apply (convertToSerializedDiagram_twice legacyCells (array [] ∅) (array [] ∅)
           convertedCells.1 convertedCells.2).
  by vm_compute.
Defined.
End SerializedDiagramExamples.

(** * Calls that throw *)

Section ThrowingFacts.
Context `{Model} {R V : Type}.
Implicit Types (heap : list Objects.Cell) (dp : Throwing.Provider (R := R))
  (q : Throwing.Queue (R := R) V) (callBack : Throwing.CallBack (R := R) V).

(** [recursiveCall] does not run out of fuel, and takes providers from
    [rest] only. *)
Lemma recursiveCall_fuel callBack : ∀ fuel result q,
  length (Throwing.rest q) < fuel →
  ∃ outcome q',
    Throwing.recursiveCall fuel callBack result q = Some (outcome, q')
    ∧ length (Throwing.rest q') ≤ length (Throwing.rest q).
Proof.
  induction fuel as [|fuel IH]; intros result q Hfuel; [lia|].
  cbn [Throwing.recursiveCall].
  destruct (Throwing.rest q) as [|dp rest'] eqn:Hrest.
  { eexists _, _. split; [done|]. by rewrite Hrest. }
  cbn in Hfuel.
  destruct (callBack result dp (Throwing.closure q) (Throwing.cells q))
    as [[[s heap] callBackResult] made].
  set (q1 := {| Throwing.responseList := Throwing.responseList q;
                Throwing.closure := s; Throwing.cells := heap;
                Throwing.calls := Throwing.calls q ++ made;
                Throwing.rest := rest' |}).
  assert (∀ q2, length (Throwing.rest q2) ≤ length rest' →
                ∃ outcome q',
                  match Throwing.recursiveCall fuel callBack result q2 with
                  | Some (Throwing.Throws error, q) =>
                      Some (Throwing.Returns (Rejected error), q)
                  | outcome => outcome
                  end = Some (outcome, q')
                  ∧ length (Throwing.rest q') ≤ S (length rest')) as Hhandler.
  { intros q2 Hq2. destruct (IH result q2 ltac:(lia)) as (outcome & q' & -> & Hq').
    destruct outcome as [p|error]; eexists _, _; (split; [done|lia]). }
  destruct callBackResult as [[[newResult|error]|]|error].
  - match goal with |- context [Throwing.recursiveCall fuel callBack (Some newResult) ?q2] =>
      destruct (IH (Some newResult) q2 ltac:(cbn; lia)) as (outcome & q' & -> & Hq')
    end.
    cbn in Hq'. destruct outcome as [[responses|error]|error].
    + eexists _, _. split; [done|cbn; lia].
    + by apply Hhandler.
    + by apply Hhandler.
  - by apply Hhandler.
  - eexists _, _. split; [done|]. cbn. lia.
  - eexists _, _. split; [done|]. cbn. lia.
Qed.

(** When the callback does not throw, the promise of [recursiveCall]
    resolves, with the results [settle] gives. *)
Lemma recursiveCall_settle callBack : ∀ fuel result q,
  Throwing.doesNotThrow callBack (Throwing.rest q) →
  length (Throwing.rest q) < fuel →
  ∃ q',
    Throwing.recursiveCall fuel callBack result q
    = Some (Throwing.Returns (Resolved (Throwing.responseList q')), q')
    ∧ (Throwing.responseList q', Throwing.cells q', Throwing.calls q')
      = let '(responses, heap, made) :=
          Throwing.settle callBack (Throwing.rest q) result
            (Throwing.closure q) (Throwing.cells q) in
        (Throwing.responseList q ++ responses, heap, Throwing.calls q ++ made).
Proof.
  induction fuel as [|fuel IH]; intros result q Hreturns Hfuel; [lia|].
  cbn [Throwing.recursiveCall].
  destruct (Throwing.rest q) as [|dp rest'] eqn:Hrest.
  { exists q. split; [done|]. cbn. by rewrite !app_nil_r. }
  cbn in Hfuel. cbn [Throwing.settle].
  destruct (Hreturns result dp (Throwing.closure q) (Throwing.cells q) ltac:(left))
    as [answer Hanswer].
  destruct (callBack result dp (Throwing.closure q) (Throwing.cells q))
    as [[[s heap] callBackResult] made].
  cbn in Hanswer. subst callBackResult.
  assert (Throwing.doesNotThrow callBack rest') as Hrest'.
  { intros result' dp' s' heap' Hdp'. apply Hreturns. by right. }
  destruct answer as [[newResult|error]|].
  - match goal with |- context [Throwing.recursiveCall fuel callBack (Some newResult) ?q2] =>
      destruct (IH (Some newResult) q2 Hrest' ltac:(cbn; lia)) as (q' & -> & Hq')
    end.
    cbn in Hq'. exists q'. split; [done|]. rewrite Hq'.
    destruct (Throwing.settle callBack rest' (Some newResult) s heap)
      as [[responses heap'] made'].
    by rewrite <-!app_assoc.
  - match goal with |- context [Throwing.recursiveCall fuel callBack result ?q2] =>
      destruct (IH result q2 Hrest' ltac:(cbn; lia)) as (q' & -> & Hq')
    end.
    cbn in Hq'. exists q'. split; [done|]. rewrite Hq'.
    destruct (Throwing.settle callBack rest' result s heap) as [[responses heap'] made'].
    by rewrite <-!app_assoc.
  - eexists. split; [done|]. cbn. by rewrite app_nil_r.
Qed.

(** [queueProcessResults] with a callback that does not throw. *)
Lemma queueProcessResults_settle callBack (dps : list (Throwing.Provider (R := R)))
    (captured : V) heap :
  Throwing.doesNotThrow callBack dps →
  Throwing.queueProcessResults callBack dps captured heap
  = let '(responses, heap', made) := Throwing.settle callBack dps None captured heap in
    Some (heap', Throwing.Returns (Resolved responses), made).
Proof.
  intros Hreturns. unfold Throwing.queueProcessResults.
  match goal with |- context [Throwing.recursiveCall _ callBack None ?q0] =>
    destruct (recursiveCall_settle callBack (S (length dps)) None q0 Hreturns
                ltac:(cbn; lia)) as (q' & -> & Hq')
  end.
  cbn in Hq'. destruct (Throwing.settle callBack dps None captured heap)
    as [[responses heap'] made].
  by injection Hq' as -> -> ->.
Qed.

(** [queueProcessResults] has an outcome whatever the callback does. *)
Lemma queueProcessResults_total callBack (dps : list (Throwing.Provider (R := R)))
    (captured : V) heap :
  is_Some (Throwing.queueProcessResults callBack dps captured heap).
Proof.
  unfold Throwing.queueProcessResults.
  match goal with |- context [Throwing.recursiveCall _ callBack None ?q0] =>
    destruct (recursiveCall_fuel callBack (S (length dps)) None q0 ltac:(cbn; lia))
      as (outcome & q' & -> & _)
  end.
  by eexists.
Qed.
End ThrowingFacts.

Section ThrowingBinaryFacts.
Context `{Model} {R : Type}.
Variable isEmpty : R → bool.
Variable params : nat.
Implicit Types (heap : list Objects.Cell) (dp : Throwing.Provider (R := R))
  (dps : list (Throwing.Provider (R := R))) (result : option R).

Let callBack := Throwing.binary_callBack isEmpty params.
Let entry dp (r : R) : CompositeResponse R :=
  {| dataSourceName := Throwing.providerName dp; response := Some r |}.

Lemma binary_callBack_doesNotThrow dps :
  Forall Throwing.returnsPromises dps → Throwing.doesNotThrow callBack dps.
Proof.
  intros Hdps result dp u heap Hdp. rewrite Forall_forall in Hdps.
  destruct (Hdps dp Hdp params heap) as [promise Hpromise].
  unfold callBack, Throwing.binary_callBack, Throwing.invoke.
  destruct (from_option isEmpty true result) eqn:Hresult.
  - replace (match result with Some previous => isEmpty previous | None => true end)
      with true by by destruct result.
    destruct (Throwing.method dp params heap) as [writes answer]. cbn in *.
    subst answer. by eexists.
  - replace (match result with Some previous => isEmpty previous | None => true end)
      with false by by destruct result.
    by eexists.
Qed.

Lemma settle_binary_cons dp dps result (u : unit) heap :
  Throwing.settle callBack (dp :: dps) result u heap
  = if from_option isEmpty true result
    then
      let '(heap1, answer, call) := Throwing.invoke dp params heap in
      match answer with
      | Throwing.Returns (Resolved r) =>
          let '(responses, heap', calls) :=
            Throwing.settle callBack dps (Some r) u heap1 in
          (entry dp r :: responses, heap', call :: calls)
      | Throwing.Returns (Rejected _) =>
          let '(responses, heap', calls) := Throwing.settle callBack dps result u heap1 in
          (responses, heap', call :: calls)
      | Throwing.Throws _ => ([], heap1, [call])
      end
    else ([], heap, []).
Proof.
  cbn [Throwing.settle]. unfold callBack at 1, Throwing.binary_callBack.
  replace (match result with Some previous => isEmpty previous | None => true end)
    with (from_option isEmpty true result) by by destruct result.
  destruct (from_option isEmpty true result); [|done].
  destruct (Throwing.invoke dp params heap) as [[heap1 answer] call].
  by destruct answer as [[r|error]|error].
Qed.

(** After a result that is not empty no provider is asked. *)
Lemma settle_binary_found dps result (u : unit) heap :
  from_option isEmpty true result = false →
  Throwing.settle callBack dps result u heap = ([], heap, []).
Proof.
  intros Hfound. destruct dps as [|dp dps]; [done|].
  by rewrite settle_binary_cons, Hfound.
Qed.



(** A provider that rejects without a write is as good as absent: the
    others are asked the same and the results are the same. *)
Lemma settle_binary_absent before dp after :
  Throwing.rejectsSilently dp →
  ∀ result (u : unit) heap,
    ∃ responses heap' made1 made made2,
      Throwing.settle callBack (before ++ dp :: after) result u heap
      = (responses, heap', made1 ++ made ++ made2)
      ∧ Throwing.settle callBack (before ++ after) result u heap
        = (responses, heap', made1 ++ made2)
      ∧ (made = []
         ∨ made = [{| Throwing.calledProvider := Throwing.providerName dp;
                      Throwing.passed := params; Throwing.wrote := [] |}]).
Proof.
  intros Hdp. induction before as [|d before IH]; intros result u heap.
  - cbn [app]. rewrite settle_binary_cons.
    destruct (from_option isEmpty true result) eqn:Hresult.
    + unfold Throwing.invoke. destruct (Hdp params heap) as [error ->].
      cbn [Objects.write foldl].
      destruct (Throwing.settle callBack after result u heap)
        as [[responses heap'] calls] eqn:Hafter.
      exists responses, heap', [], [{| Throwing.calledProvider := Throwing.providerName dp;
                                       Throwing.passed := params;
                                       Throwing.wrote := [] |}], calls.
      split_and!; [done|done|by right].
    + rewrite settle_binary_found by done.
      exists [], heap, [], [], []. split_and!; [done|done|by left].
  - cbn [app]. rewrite !settle_binary_cons.
    destruct (from_option isEmpty true result); [|by exists [], heap, [], [], []; auto].
    destruct (Throwing.invoke d params heap) as [[heap1 answer] call].
    destruct answer as [[r|error]|error].
    + destruct (IH (Some r) u heap1)
        as (responses & heap' & made1 & made & made2 & -> & -> & Hmade).
      by exists (entry d r :: responses), heap', (call :: made1), made, made2.
    + destruct (IH result u heap1)
        as (responses & heap' & made1 & made & made2 & -> & -> & Hmade).
      by exists responses, heap', (call :: made1), made, made2.
    + exists [], heap1, [call], [], []. split_and!; [done|done|by left].
Qed.



End ThrowingBinaryFacts.

Section ThrowingBinaryMethods.
Context `{Model} {R : Type}.
Variable isEmpty : R → bool.
Implicit Types (heap : list Objects.Cell) (dp : Throwing.Provider (R := R))
  (dps : list (Throwing.Provider (R := R))).

(** [queueProcessResults] of a found-or-empty method whose providers
    return promises. *)
Lemma binary_queue_settle params dps heap :
  Forall Throwing.returnsPromises dps →
  Throwing.queueProcessResults (Throwing.binary_callBack isEmpty params) dps () heap
  = let '(responses, heap', made) :=
      Throwing.settle (Throwing.binary_callBack isEmpty params) dps None () heap in
    Some (heap', Throwing.Returns (Resolved responses), made).
Proof.
  intros Hdps. apply queueProcessResults_settle. by apply binary_callBack_doesNotThrow.
Qed.




Lemma binary_RejectingIsAbsent :
  Throwing.RejectingIsAbsent (Throwing.binary_callBack isEmpty).
Proof.
  intros before dp after params heap Hothers Hdp.
  assert (Throwing.returnsPromises dp) as Hreturns.
  { intros params' heap'. destruct (Hdp params' heap') as [error ->]. by eexists. }
  assert (Forall Throwing.returnsPromises (before ++ dp :: after)) as Hall.
  { apply Forall_app in Hothers as [? ?]. apply Forall_app. split; [done|]. by constructor. }
  rewrite !binary_queue_settle by done.
  destruct (settle_binary_absent isEmpty params before dp after Hdp None () heap)
    as (responses & heap' & made1 & made & made2 & -> & -> & Hmade).
  by exists responses, heap', made1, made, made2.
Qed.
End ThrowingBinaryMethods.

Section ThrowingFetchAllFacts.
Context `{Model} {R : Type}.
Implicit Types (heap : list Objects.Cell) (dps : list (Throwing.Provider (R := R))).

(** When no call throws, [fetchSequentially] hands the object of the
    caller to every provider, and its promise resolves with the merge of
    one tagged result for each provider, in the order of registration. *)
Lemma fetchSequentially_resolves {U : Type} dps
    (mergeFunction : list (CompositeResponse R) → U) params heap :
  Forall Throwing.returnsPromises dps →
  ∃ heap' responses made,
    Throwing.fetchSequentially dps mergeFunction params heap
    = (heap', Throwing.Returns (Resolved (mergeFunction responses)), made)
    ∧ dataSourceName <$> responses = Throwing.providerName <$> dps
    ∧ Throwing.calledProvider <$> made = Throwing.providerName <$> dps
    ∧ Forall (λ call, Throwing.passed call = params) made.
Proof.
  intros Hdps. unfold Throwing.fetchSequentially.
  enough (∃ heap' responses made,
            Throwing.mapProviders dps params heap
            = (heap', Throwing.Returns (Resolved <$> responses), made)
            ∧ dataSourceName <$> responses = Throwing.providerName <$> dps
            ∧ Throwing.calledProvider <$> made = Throwing.providerName <$> dps
            ∧ Forall (λ call, Throwing.passed call = params) made)
    as (heap' & responses & made & -> & Hnames & Hcalled & Hpassed).
  { exists heap', responses, made. by rewrite Promise_all_resolved. }
  revert heap. induction Hdps as [|dp dps Hdp Hdps IH]; intros heap.
  { by exists heap, [], []. }
  cbn [Throwing.mapProviders]. unfold Throwing.invoke.
  destruct (Hdp params heap) as [promise Hpromise].
  destruct (Throwing.method dp params heap) as [writes answer]. cbn in Hpromise.
  subst answer.
  destruct (IH (Objects.write heap writes))
    as (heap' & responses & made & -> & Hnames & Hcalled & Hpassed).
  eexists heap', ({| dataSourceName := Throwing.providerName dp;
                     response := responseOf promise |} :: responses), (_ :: made).
  split_and!.
  - cbn. do 3 f_equal. unfold processResults. by destruct promise.
  - cbn. by rewrite Hnames.
  - cbn. by rewrite Hcalled.
  - by constructor.
Qed.

Lemma narrowing_callBack_doesNotThrow field others (keep : R → string → bool) params dps :
  Forall Throwing.returnsPromises dps →
  Throwing.doesNotThrow (Throwing.narrowing_callBack field others keep params) dps.
Proof.
  intros Hdps result dp ids heap Hdp. rewrite Forall_forall in Hdps.
  unfold Throwing.narrowing_callBack. cbn zeta.
  destruct (0 <? length _)%nat; [|by eexists].
  unfold Throwing.invoke.
  match goal with |- context [Throwing.method dp ?request ?heap'] =>
    destruct (Hdps dp Hdp request heap') as [promise Hpromise];
    destruct (Throwing.method dp request heap') as [writes answer]
  end.
  cbn in *. subst answer. by eexists.
Qed.
End ThrowingFetchAllFacts.

Section ThrowingClaims.
Context `{Model} `{!MergeUtils}.


End ThrowingClaims.

Section ThrowingExamples.
Local Existing Instance exampleModel.
Local Existing Instance exampleMerge.

End ThrowingExamples.

(** * The same call again *)

Section ThrowingViewFacts.
Implicit Types (heap : list Objects.Cell) (assigned : list (string * Objects.Value)).

Lemma write1_setField_lookup heap a f v b :
  Objects.write1 heap (Objects.setField a f v) !! b
  = match heap !! b with
    | Some (Objects.object fields) =>
        if decide (b = a) then Some (Objects.object (<[f := v]> fields))
        else Some (Objects.object fields)
    | other => other
    end.
Proof.
  cbn. destruct (heap !! a) as [[elements|fields]|] eqn:Ha.
  - destruct (heap !! b) as [[elements'|fields']|] eqn:Hb; [done| |done].
    destruct (decide (b = a)) as [->|]; [congruence|done].
  - destruct (decide (b = a)) as [->|Hne].
    + rewrite list_lookup_insert_eq by by eapply lookup_lt_Some. by rewrite Ha.
    + rewrite list_lookup_insert_ne by done.
      by destruct (heap !! b) as [[elements'|fields']|].
  - destruct (heap !! b) as [[elements'|fields']|] eqn:Hb; [done| |done].
    destruct (decide (b = a)) as [->|]; [congruence|done].
Qed.

Lemma write_assignments_lookup assigned : ∀ heap a b,
  Objects.write heap (Throwing.assignments a assigned) !! b
  = match heap !! b with
    | Some (Objects.object fields) =>
        if decide (b = a)
        then Some (Objects.object (foldl (λ m x, <[x.1 := x.2]> m) fields assigned))
        else Some (Objects.object fields)
    | other => other
    end.
Proof.
  induction assigned as [|[f v] assigned IH]; intros heap a b.
  { cbn. destruct (heap !! b) as [[elements|fields]|]; [done| |done].
    by destruct (decide (b = a)). }
  unfold Objects.write, Throwing.assignments in *. cbn [fmap list_fmap foldl].
  rewrite IH, write1_setField_lookup.
  destruct (heap !! b) as [[elements|fields]|]; [done| |done].
  by destruct (decide (b = a)).
Qed.

Lemma write_assignments_length assigned heap a :
  length (Objects.write heap (Throwing.assignments a assigned)) = length heap.
Proof.
  revert heap. induction assigned as [|[f v] assigned IH]; intros heap; [done|].
  unfold Objects.write, Throwing.assignments in *. cbn [fmap list_fmap foldl].
  rewrite IH. cbn. by destruct (heap !! a) as [[?|?]|]; rewrite ?length_insert.
Qed.

Lemma see_write_assignments assigned heap a v :
  Throwing.see (Objects.write heap (Throwing.assignments a assigned)) v = Throwing.see heap v.
Proof.
  destruct v as [| | |b]; [done..|]. cbn. rewrite write_assignments_lookup.
  destruct (heap !! b) as [[elements|fields]|]; [done| |done].
  by destruct (decide (b = a)).
Qed.

Lemma elementsAt_write_assignments assigned heap a b :
  Objects.elementsAt (Objects.write heap (Throwing.assignments a assigned)) b
  = Objects.elementsAt heap b.
Proof.
  unfold Objects.elementsAt. rewrite write_assignments_lookup.
  destruct (heap !! b) as [[elements|fields]|]; [done| |done].
  by destruct (decide (b = a)).
Qed.

Lemma fieldsAt_write_assignments assigned heap a b :
  b ≠ a →
  Objects.fieldsAt (Objects.write heap (Throwing.assignments a assigned)) b
  = Objects.fieldsAt heap b.
Proof.
  intros Hne. unfold Objects.fieldsAt. rewrite write_assignments_lookup.
  destruct (heap !! b) as [[elements|fields]|]; [done| |done].
  by destruct (decide (b = a)).
Qed.

Lemma view_write_assignments_other assigned heap a b :
  b ≠ a →
  Throwing.view (Objects.write heap (Throwing.assignments a assigned)) b
  = Throwing.view heap b.
Proof.
  intros Hne. unfold Throwing.view. rewrite write_assignments_lookup.
  destruct (heap !! b) as [[elements|fields]|]; [done| |done].
  destruct (decide (b = a)); [done|]. f_equal.
  apply map_fmap_ext. intros f v _. apply see_write_assignments.
Qed.




Lemma see_app heap more v :
  (∀ b, v = Objects.reference b → b < length heap) →
  Throwing.see (heap ++ more) v = Throwing.see heap v.
Proof.
  intros Hv. destruct v as [| | |b]; [done..|]. cbn.
  by rewrite lookup_app_l by by apply Hv.
Qed.

Lemma view_app heap more a :
  a < length heap → Throwing.closed heap a →
  Throwing.view (heap ++ more) a = Throwing.view heap a.
Proof.
  intros Ha Hclosed. unfold Throwing.view. rewrite lookup_app_l by done.
  destruct (heap !! a) as [[elements|fields]|] eqn:Hcell; [done| |done].
  f_equal. apply map_fmap_ext. intros f v Hf. apply see_app. intros b ->.
  apply (Hclosed f). unfold Objects.fieldsAt. by rewrite Hcell.
Qed.

Lemma closed_app heap more a :
  a < length heap → Throwing.closed heap a → Throwing.closed (heap ++ more) a.
Proof.
  intros Ha Hclosed f b. unfold Objects.fieldsAt. rewrite lookup_app_l by done.
  intros Hf. rewrite length_app. apply (Hclosed f) in Hf. lia.
Qed.

Lemma closed_write_assignments assigned heap a b :
  b ≠ a → Throwing.closed heap b →
  Throwing.closed (Objects.write heap (Throwing.assignments a assigned)) b.
Proof.
  intros Hne Hclosed f c. rewrite fieldsAt_write_assignments by done.
  rewrite write_assignments_length. apply Hclosed.
Qed.
End ThrowingViewFacts.

Section ThrowingLockstep.
Context `{Model} {R : Type}.
Implicit Types (heap : list Objects.Cell) (dp : Throwing.Provider (R := R))
  (dps : list (Throwing.Provider (R := R))).

(** A provider whose answers do not change, handed two objects that hold
    the same values: the same assignments, the same answer. *)
Lemma invoke_lockstep dp params heap params' heap' :
  Throwing.answersByValue dp →
  Throwing.view heap params = Throwing.view heap' params' →
  ∃ assigned answer,
    Forall (λ a, ∀ b, a.2 ≠ Objects.reference b) assigned
    ∧ Throwing.invoke dp params heap
      = (Objects.write heap (Throwing.assignments params assigned), answer,
         {| Throwing.calledProvider := Throwing.providerName dp;
            Throwing.passed := params;
            Throwing.wrote := Throwing.assignments params assigned |})
    ∧ Throwing.invoke dp params' heap'
      = (Objects.write heap' (Throwing.assignments params' assigned), answer,
         {| Throwing.calledProvider := Throwing.providerName dp;
            Throwing.passed := params';
            Throwing.wrote := Throwing.assignments params' assigned |}).
Proof.
  intros [act Hact] Hview.
  destruct (Hact params heap) as [Hassigned Hmethod].
  destruct (Hact params' heap') as [_ Hmethod']. rewrite <-Hview in Hmethod'.
  eexists _, _. split; [exact Hassigned|].
  unfold Throwing.invoke. by rewrite Hmethod, Hmethod'.
Qed.


End ThrowingLockstep.

Section ThrowingQueueLockstep.
Context `{Model} {R V V' : Type}.
Variable callBack : Throwing.CallBack (R := R) V.
Variable callBack' : Throwing.CallBack (R := R) V'.
Variable related : V → list Objects.Cell → V' → list Objects.Cell → Prop.
Variable all : list (Throwing.Provider (R := R)).



Hypothesis callBack_lockstep : ∀ result dp s heap s' heap',
  dp ∈ all → related s heap s' heap' →
  ∃ s1 heap1 s1' heap1' answer made made',
    callBack result dp s heap = (s1, heap1, answer, made)
    ∧ callBack' result dp s' heap' = (s1', heap1', answer, made')
    ∧ related s1 heap1 s1' heap1'
    ∧ Throwing.calledProvider <$> made = Throwing.calledProvider <$> made'.


End ThrowingQueueLockstep.

Section ThrowingSameAgain.
Context `{Model} {R : Type}.
Implicit Types (heap : list Objects.Cell) (dp : Throwing.Provider (R := R))
  (dps : list (Throwing.Provider (R := R))).




Lemma see_field heap params field :
  Throwing.see heap (default Objects.undefined (Objects.fieldsAt heap params !! field))
  = default Throwing.seenUndefined (default ∅ (Throwing.view heap params) !! field).
Proof.
  unfold Objects.fieldsAt, Throwing.view.
  destruct (heap !! params) as [[elements|fields]|]; [done| |done].
  cbn. rewrite lookup_fmap. by destruct (fields !! field).
Qed.

(** What the object made for a call of a provider holds. *)
Lemma narrowing_request_view heap params field others filtered :
  params < length heap → Throwing.closed heap params →
  Throwing.view
    ((heap ++ [Objects.array filtered])
     ++ [Objects.object
           (foldr (λ other fields,
                     <[other := default Objects.undefined
                                  (Objects.fieldsAt (heap ++ [Objects.array filtered]) params
                                   !! other)]> fields)
                  {[field := Objects.reference (length heap)]} others)])
    (length (heap ++ [Objects.array filtered]))
  = Some (foldr (λ other seen,
                   <[other := default Throwing.seenUndefined
                                (default ∅ (Throwing.view heap params) !! other)]> seen)
                {[field := Throwing.seenArray filtered]} others).
Proof.
  intros Hparams Hclosed. unfold Throwing.view at 1.
  rewrite (list_lookup_middle _ [] _ _ eq_refl). f_equal.
  generalize
    [Objects.object
       (foldr (λ other fields,
                 <[other := default Objects.undefined
                              (Objects.fieldsAt (heap ++ [Objects.array filtered]) params
                               !! other)]> fields)
              {[field := Objects.reference (length heap)]} others)].
  intros more. induction others as [|other others IH].
  - cbn. rewrite map_fmap_singleton. cbn.
    rewrite lookup_app_l by (rewrite length_app; cbn; lia).
    by rewrite (list_lookup_middle _ [] _ _ eq_refl).
  - cbn [foldr]. rewrite fmap_insert, IH. f_equal.
    rewrite <-see_field. rewrite <-app_assoc.
    assert (Objects.fieldsAt (heap ++ [Objects.array filtered]) params
            = Objects.fieldsAt heap params) as ->.
    { unfold Objects.fieldsAt. by rewrite lookup_app_l. }
    apply see_app. intros b Hb.
    destruct (Objects.fieldsAt heap params !! other) as [v|] eqn:Hother; [|done].
    cbn in Hb. subst v. by apply (Hclosed other).
Qed.

(** One call of the callback of a narrowing method in two heaps in which
    the ids that are left and the object of the caller are alike. *)
Lemma narrowing_callBack_step field others (keep : R → string → bool)
    params params' result dp ids heap ids' heap' :
  Throwing.answersByValue dp →
  List.filter (λ id, match result with
                     | None => true
                     | Some previous => keep previous id
                     end) (Objects.elementsAt heap ids)
  = List.filter (λ id, match result with
                       | None => true
                       | Some previous => keep previous id
                       end) (Objects.elementsAt heap' ids') →
  params < length heap → params' < length heap' →
  Throwing.closed heap params → Throwing.closed heap' params' →
  Throwing.view heap params = Throwing.view heap' params' →
  ∃ s1 heap1 s1' heap1' answer made made',
    Throwing.narrowing_callBack field others keep params result dp ids heap
    = (s1, heap1, answer, made)
    ∧ Throwing.narrowing_callBack field others keep params' result dp ids' heap'
      = (s1', heap1', answer, made')
    ∧ (Objects.elementsAt heap1 s1 = Objects.elementsAt heap1' s1'
       ∧ params < length heap1 ∧ params' < length heap1'
       ∧ Throwing.closed heap1 params ∧ Throwing.closed heap1' params'
       ∧ Throwing.view heap1 params = Throwing.view heap1' params')
    ∧ Throwing.calledProvider <$> made = Throwing.calledProvider <$> made'.
Proof.
  intros Hdp Hids Hparams Hparams' Hclosed Hclosed' Hview.
  unfold Throwing.narrowing_callBack. cbn zeta. rewrite <-Hids.
  set (filtered := List.filter _ (Objects.elementsAt heap ids)).
  assert (∀ heap0 more, Objects.elementsAt ((heap0 ++ [Objects.array filtered]) ++ more)
                          (length heap0) = filtered) as Hnew.
  { intros heap0 more. unfold Objects.elementsAt.
    rewrite lookup_app_l by (rewrite length_app; cbn; lia).
    by rewrite (list_lookup_middle _ [] _ _ eq_refl). }
  destruct (0 <? length filtered)%nat.
  - pose proof (narrowing_request_view heap params field others filtered Hparams Hclosed)
      as Hrequest.
    pose proof (narrowing_request_view heap' params' field others filtered Hparams' Hclosed')
      as Hrequest'.
    rewrite <-Hview, <-Hrequest in Hrequest'.
    destruct (invoke_lockstep dp _ _ _ _ Hdp (eq_sym Hrequest'))
      as (assigned & answer & Hassigned & -> & ->).
    eexists _, _, _, _, _, _, _. split_and!; [done|done| | | | | | |done].
    + by rewrite !elementsAt_write_assignments, !Hnew.
    + rewrite !write_assignments_length, !length_app. cbn [length]. lia.
    + rewrite !write_assignments_length, !length_app. cbn [length]. lia.
    + apply closed_write_assignments; [rewrite ?length_app; cbn; lia|].
      apply closed_app; [rewrite ?length_app; cbn; lia|]. by apply closed_app.
    + apply closed_write_assignments; [rewrite ?length_app; cbn; lia|].
      apply closed_app; [rewrite ?length_app; cbn; lia|]. by apply closed_app.
    + rewrite !view_write_assignments_other by (rewrite ?length_app; cbn; lia).
      rewrite <-!app_assoc. by rewrite !view_app.
  - eexists _, _, _, _, _, _, _. split_and!; [done|done| | | | | | |done].
    + rewrite <-(app_nil_r (heap ++ _)), <-(app_nil_r (heap' ++ _)). by rewrite !Hnew.
    + rewrite length_app. lia.
    + rewrite length_app. lia.
    + by apply closed_app.
    + by apply closed_app.
    + by rewrite !view_app.
Qed.


End ThrowingSameAgain.

Section ThrowingRejecting.
Context `{Model} {R : Type}.
Implicit Types (heap : list Objects.Cell) (dp : Throwing.Provider (R := R))
  (dps before after : list (Throwing.Provider (R := R))).

Lemma rejectsSilently_returnsPromises dp :
  Throwing.rejectsSilently dp → Throwing.returnsPromises dp.
Proof.
  intros Hsilent params heap. destruct (Hsilent params heap) as [error ->]. by eexists.
Qed.

Lemma mapProviders_returns dps params : ∀ heap,
  Forall Throwing.returnsPromises dps →
  ∃ heap' responses made,
    Throwing.mapProviders dps params heap
    = (heap', Throwing.Returns (Resolved <$> responses), made).
Proof.
  induction dps as [|dp dps IH]; intros heap Hdps.
  { by exists heap, [], []. }
  apply Forall_cons in Hdps as [Hdp Hdps].
  cbn [Throwing.mapProviders]. unfold Throwing.invoke.
  destruct (Hdp params heap) as [promise Hpromise].
  destruct (Throwing.method dp params heap) as [writes answer]. cbn in Hpromise.
  subst answer.
  destruct (IH (Objects.write heap writes) Hdps) as (heap' & responses & made & ->).
  eexists heap', ({| dataSourceName := Throwing.providerName dp;
                     response := responseOf promise |} :: responses), (_ :: made).
  cbn. do 3 f_equal. unfold processResults. by destruct promise.
Qed.

Lemma mapProviders_rejecting dp after params : ∀ before heap,
  Forall Throwing.returnsPromises (before ++ after) →
  Throwing.rejectsSilently dp →
  ∃ heap' responses1 responses2 made1 made2,
    Throwing.mapProviders (before ++ after) params heap
    = (heap', Throwing.Returns (Resolved <$> responses1 ++ responses2), made1 ++ made2)
    ∧ Throwing.mapProviders (before ++ dp :: after) params heap
      = (heap',
         Throwing.Returns
           (Resolved <$> responses1
                         ++ {| dataSourceName := Throwing.providerName dp;
                               response := None |} :: responses2),
         made1
         ++ {| Throwing.calledProvider := Throwing.providerName dp;
               Throwing.passed := params; Throwing.wrote := [] |} :: made2)
    ∧ length responses1 = length before
    ∧ length made1 = length before.
Proof.
  induction before as [|dp0 before IH]; intros heap Hdps Hsilent.
  - cbn [app] in *. cbn [Throwing.mapProviders]. unfold Throwing.invoke.
    destruct (Hsilent params heap) as [error ->]. cbn.
    destruct (mapProviders_returns after params heap Hdps)
      as (heap' & responses & made & ->).
    by exists heap', [], responses, [], made.
  - cbn [app] in *. apply Forall_cons in Hdps as [Hdp0 Hdps].
    cbn [Throwing.mapProviders]. unfold Throwing.invoke.
    destruct (Hdp0 params heap) as [promise Hpromise].
    destruct (Throwing.method dp0 params heap) as [writes answer]. cbn in Hpromise.
    subst answer.
    destruct (IH (Objects.write heap writes) Hdps Hsilent)
      as (heap' & responses1 & responses2 & made1 & made2 & -> & -> & Hlength & Hmade).
    eexists heap', ({| dataSourceName := Throwing.providerName dp0;
                       response := responseOf promise |} :: responses1), responses2,
      (_ :: made1), made2.
    cbn. rewrite Hlength, Hmade.
    assert (processResults promise (Throwing.providerName dp0)
            = Resolved {| dataSourceName := Throwing.providerName dp0;
                          response := responseOf promise |}) as ->.
    { unfold processResults. by destruct promise. }
    done.
Qed.

Lemma fetchSequentially_RejectingIsTagged : Throwing.RejectingIsTagged (R := R).
Proof.
  intros U mergeFunction before dp after params heap Hdps Hsilent.
  unfold Throwing.fetchSequentially.
  destruct (mapProviders_rejecting dp after params before heap Hdps Hsilent)
    as (heap' & responses1 & responses2 & made1 & made2 & -> & -> & Hlength & Hmade).
  exists heap', responses1, responses2, made1, made2.
  by rewrite !Promise_all_resolved.
Qed.

Lemma binaryMethod_Resolves {U : Type} (isEmpty : R → bool)
    (mergeFunction : list (CompositeResponse R) → U) mergeMode dps :
  Forall Throwing.returnsPromises dps →
  Throwing.Resolves (Throwing.binaryMethod isEmpty mergeFunction mergeMode dps)
    (λ _ _, True).
Proof.
  intros Hdps params heap _. unfold Throwing.binaryMethod.
  destruct (decide (mergeMode = "fetchAll")) as [Hmode|Hmode].
  - destruct (fetchSequentially_resolves dps mergeFunction params heap Hdps)
      as (heap' & responses & made & -> & _).
    by eexists _, _, _.
  - rewrite queueProcessResults_settle by by apply binary_callBack_doesNotThrow.
    destruct (Throwing.settle _ dps None () heap) as [[responses heap'] made].
    by eexists _, _, _.
Qed.

Lemma narrowingMethod_Resolves {U : Type} (typeError : Error) field others
    (keep : R → string → bool) (mergeFunction : list (CompositeResponse R) → U)
    mergeMode dps :
  Forall Throwing.returnsPromises dps →
  Throwing.Resolves
    (Throwing.narrowingMethod typeError field others keep mergeFunction mergeMode dps)
    (Throwing.holdsArray field).
Proof.
  intros Hdps params heap (ids & elements & Hfield & Hids).
  unfold Throwing.narrowingMethod.
  destruct (decide (mergeMode = "fetchAll")) as [Hmode|Hmode].
  - destruct (fetchSequentially_resolves dps mergeFunction params heap Hdps)
      as (heap' & responses & made & -> & _).
    by eexists _, _, _.
  - rewrite Hfield. cbn. rewrite Hids.
    rewrite queueProcessResults_settle by by apply narrowing_callBack_doesNotThrow.
    destruct (Throwing.settle _ dps None ids heap) as [[responses heap'] made].
    by eexists _, _, _.
Qed.

Section Narrowing.
Variables (field : string) (others : list string) (keep : R → string → bool).

Lemma settle_narrowing_lockstep params params' : ∀ dps result ids heap ids' heap',
  Forall Throwing.answersByValue dps →
  List.filter (λ id, match result with
                     | None => true
                     | Some previous => keep previous id
                     end) (Objects.elementsAt heap ids)
  = List.filter (λ id, match result with
                       | None => true
                       | Some previous => keep previous id
                       end) (Objects.elementsAt heap' ids') →
  params < length heap → params' < length heap' →
  Throwing.closed heap params → Throwing.closed heap' params' →
  Throwing.view heap params = Throwing.view heap' params' →
  ∃ responses heap1 heap1' made made',
    Throwing.settle (Throwing.narrowing_callBack field others keep params)
      dps result ids heap = (responses, heap1, made)
    ∧ Throwing.settle (Throwing.narrowing_callBack field others keep params')
        dps result ids' heap' = (responses, heap1', made')
    ∧ Throwing.calledProvider <$> made = Throwing.calledProvider <$> made'
    ∧ Throwing.view heap1 params = Throwing.view heap1' params'.
Proof.
  induction dps as [|dp dps IH];
    intros result ids heap ids' heap' Hdps Hids Hparams Hparams' Hclosed Hclosed' Hview.
  { by exists [], heap, heap', [], []. }
  apply Forall_cons in Hdps as [Hdp Hdps]. cbn [Throwing.settle].
  destruct (narrowing_callBack_step field others keep params params' result dp
              ids heap ids' heap' Hdp Hids Hparams Hparams' Hclosed Hclosed' Hview)
    as (s1 & heap1 & s1' & heap1' & answer & made & made' & -> & ->
        & (Hids1 & Hparams1 & Hparams1' & Hclosed1 & Hclosed1' & Hview1) & Hmade).
  destruct answer as [[[newResult|error]|]|error].
  - destruct (IH (Some newResult) s1 heap1 s1' heap1' Hdps ltac:(by rewrite Hids1)
                Hparams1 Hparams1' Hclosed1 Hclosed1' Hview1)
      as (responses & heap2 & heap2' & made2 & made2' & -> & -> & Hmade2 & Hview2).
    eexists _, _, _, _, _. split_and!; [done|done| |done].
    by rewrite !fmap_app, Hmade, Hmade2.
  - destruct (IH result s1 heap1 s1' heap1' Hdps ltac:(by rewrite Hids1)
                Hparams1 Hparams1' Hclosed1 Hclosed1' Hview1)
      as (responses & heap2 & heap2' & made2 & made2' & -> & -> & Hmade2 & Hview2).
    eexists _, _, _, _, _. split_and!; [done|done| |done].
    by rewrite !fmap_app, Hmade, Hmade2.
  - by eexists _, _, _, _, _.
  - by eexists _, _, _, _, _.
Qed.

Lemma settle_narrowing_rejecting params dp after :
  Forall Throwing.answersByValue after →
  Throwing.rejectsSilently dp →
  ∀ before result ids heap,
    Forall Throwing.answersByValue before →
    params < length heap → Throwing.closed heap params →
    ∃ responses heap1 heap2 made1 made made2 made2',
      Throwing.settle (Throwing.narrowing_callBack field others keep params)
        (before ++ dp :: after) result ids heap
      = (responses, heap1, made1 ++ made ++ made2)
      ∧ Throwing.settle (Throwing.narrowing_callBack field others keep params)
          (before ++ after) result ids heap
        = (responses, heap2, made1 ++ made2')
      ∧ Throwing.calledProvider <$> made2 = Throwing.calledProvider <$> made2'
      ∧ (made = []
         ∨ ∃ request,
             made = [{| Throwing.calledProvider := Throwing.providerName dp;
                        Throwing.passed := request; Throwing.wrote := [] |}])
      ∧ Throwing.view heap1 params = Throwing.view heap2 params.
Proof.
  intros Hafter Hsilent.
  induction before as [|dp0 before IH]; intros result ids heap Hbefore Hparams Hclosed.
  - cbn [app]. cbn [Throwing.settle].
    unfold Throwing.narrowing_callBack at 1. cbn zeta.
    set (filtered := List.filter _ (Objects.elementsAt heap ids)).
    destruct (0 <? length filtered)%nat eqn:Hleft.
    + unfold Throwing.invoke.
      match goal with |- context [Throwing.method dp ?request ?heap0] =>
        destruct (Hsilent request heap0) as [error ->]
      end.
      unfold Objects.write. cbn [foldl].
      match goal with
      | |- context [Throwing.settle _ after result (length heap) ?heap0] =>
          destruct (settle_narrowing_lockstep params params after result
                      (length heap) heap0 ids heap Hafter) as
            (responses & heap1 & heap2 & made2 & made2' & -> & -> & Hmade & Hview)
      end.
      * unfold Objects.elementsAt at 1.
        rewrite lookup_app_l by (rewrite length_app; cbn; lia).
        rewrite (list_lookup_middle _ [] _ _ eq_refl). apply filter_twice.
      * rewrite !length_app. lia.
      * done.
      * apply closed_app; [rewrite ?length_app; cbn; lia|]. by apply closed_app.
      * done.
      * rewrite <-app_assoc. by rewrite view_app.
      * eexists responses, heap1, heap2, [], [_], made2, made2'.
        split_and!; [done|done|done|right; by eexists|done].
    + exists [], (heap ++ [Objects.array filtered]).
      destruct after as [|dp2 after'].
      * exists heap, [], [], [], []. cbn. split_and!; [done|done|done|by left|].
        by apply view_app.
      * exists (heap ++ [Objects.array filtered]), [], [], [], []. cbn [app Throwing.settle].
        unfold Throwing.narrowing_callBack. cbn zeta. fold filtered. rewrite Hleft.
        split_and!; [done|done|done|by left|done].
  - cbn [app]. cbn [Throwing.settle].
    apply Forall_cons in Hbefore as [Hdp0 Hbefore].
    destruct (narrowing_callBack_step field others keep params params result dp0
                ids heap ids heap Hdp0 eq_refl Hparams Hparams Hclosed Hclosed eq_refl)
      as (s1 & heap1 & s1' & heap1' & answer & made0 & made0' & Hcall & Hcall'
          & (_ & Hparams1 & _ & Hclosed1 & _ & _) & _).
    rewrite Hcall. clear Hcall'.
    destruct answer as [[[newResult|error]|]|error].
    + destruct (IH (Some newResult) s1 heap1 Hbefore Hparams1 Hclosed1)
        as (responses & heap2 & heap3 & made1 & made & made2 & made2'
            & -> & -> & Hmade & Hone & Hview).
      eexists _, heap2, heap3, (made0 ++ made1), made, made2, made2'.
      split_and!; [by rewrite <-!app_assoc|by rewrite <-!app_assoc|done|done|done].
    + destruct (IH result s1 heap1 Hbefore Hparams1 Hclosed1)
        as (responses & heap2 & heap3 & made1 & made & made2 & made2'
            & -> & -> & Hmade & Hone & Hview).
      eexists _, heap2, heap3, (made0 ++ made1), made, made2, made2'.
      split_and!; [by rewrite <-!app_assoc|by rewrite <-!app_assoc|done|done|done].
    + exists [], heap1, heap1, made0, [], [], [].
      split_and!; [by rewrite !app_nil_r|by rewrite !app_nil_r|done|by left|done].
    + exists [], heap1, heap1, made0, [], [], [].
      split_and!; [by rewrite !app_nil_r|by rewrite !app_nil_r|done|by left|done].
Qed.

Lemma narrowing_RejectingIsLeftOut : Throwing.RejectingIsLeftOut field others keep.
Proof.
  intros before dp after params ids heap Hreturn Hvalue Hsilent Hparams Hclosed.
  apply Forall_app in Hreturn as [Hreturn1 Hreturn2].
  apply Forall_app in Hvalue as [Hvalue1 Hvalue2].
  rewrite !queueProcessResults_settle.
  - destruct (settle_narrowing_rejecting params dp after Hvalue2 Hsilent before None
                ids heap Hvalue1 Hparams Hclosed)
      as (responses & heap1 & heap2 & made1 & made & made2 & made2'
          & -> & -> & Hmade & Hone & Hview).
    by exists responses, heap1, heap2, made1, made, made2, made2'.
  - apply narrowing_callBack_doesNotThrow. by apply Forall_app.
  - apply narrowing_callBack_doesNotThrow. apply Forall_app. split; [done|].
    apply Forall_cons. split; [|done]. by apply rejectsSilently_returnsPromises.
Qed.
End Narrowing.
End ThrowingRejecting.

Section ThrowingIsolation.
Context `{Model} `{!MergeUtils}.

(** C1, as the code has it: a call of a provider that returns a promise
    which rejects never makes a method fail.  When every call returns a
    promise, the promise of every method resolves: of [fetchSequentially],
    which is every method with the merge mode ['fetchAll'] and [classTree]
    and [linkTypes] with any merge mode, and of the eight other methods
    with any merge mode, as [queueProcessResults] resolves with any
    callback that does not throw.  With [fetchSequentially] a provider
    whose calls reject without a write to the object they are handed has
    a tagged result without a response, at its place among the tagged
    results of the other providers, which are those of the registry
    without it.  With [queueProcessResults] such a provider has no tagged
    result: the tagged results are those of the registry without it, and
    the other providers are asked in the same order; for the
    found-or-empty methods, which hand the object of the caller to every
    provider, the calls and the heap are the same, and for the narrowing
    methods, which make a new object for every call, the object of the
    caller holds the same values at the end, the answers of the other
    providers being a function of the values they are handed. *)
Theorem rejecting_provider_is_isolated :
  (∀ (R V : Type) (callBack : Throwing.CallBack (R := R) V) dps captured heap,
     Throwing.doesNotThrow callBack dps →
     ∃ heap' responses made,
       Throwing.queueProcessResults callBack dps captured heap
       = Some (heap', Throwing.Returns (Resolved responses), made))
  ∧ (∀ (R : Type) (dps : list (Throwing.Provider (R := R))),
       Forall Throwing.returnsPromises dps →
       (∀ isEmpty params,
          Throwing.doesNotThrow (Throwing.binary_callBack isEmpty params) dps)
       ∧ (∀ field others keep params,
            Throwing.doesNotThrow (Throwing.narrowing_callBack field others keep params) dps)
       ∧ (∀ (U : Type) (mergeFunction : list (CompositeResponse R) → U) params heap,
            ∃ heap' responses made,
              Throwing.fetchSequentially dps mergeFunction params heap
              = (heap', Throwing.Returns (Resolved (mergeFunction responses)), made)
              ∧ dataSourceName <$> responses = Throwing.providerName <$> dps
              ∧ Throwing.calledProvider <$> made = Throwing.providerName <$> dps
              ∧ Forall (λ call, Throwing.passed call = params) made))
  ∧ (∀ mergeMode dps,
       Forall Throwing.returnsPromises dps →
       Throwing.Resolves (Throwing.linkTypesOf mergeMode dps) (λ _ _, True))
  ∧ (∀ mergeMode dps,
       Forall Throwing.returnsPromises dps →
       Throwing.Resolves (Throwing.linkElements mergeMode dps) (λ _ _, True))
  ∧ (∀ mergeMode dps,
       Forall Throwing.returnsPromises dps →
       Throwing.Resolves (Throwing.filter mergeMode dps) (λ _ _, True))
  ∧ (∀ typeError mergeMode dps,
       Forall Throwing.returnsPromises dps →
       Throwing.Resolves (Throwing.propertyInfo typeError mergeMode dps)
         (Throwing.holdsArray "propertyIds"))
  ∧ (∀ typeError mergeMode dps,
       Forall Throwing.returnsPromises dps →
       Throwing.Resolves (Throwing.classInfo typeError mergeMode dps)
         (Throwing.holdsArray "classIds"))
  ∧ (∀ typeError mergeMode dps,
       Forall Throwing.returnsPromises dps →
       Throwing.Resolves (Throwing.linkTypesInfo typeError mergeMode dps)
         (Throwing.holdsArray "linkTypeIds"))
  ∧ (∀ typeError mergeMode dps,
       Forall Throwing.returnsPromises dps →
       Throwing.Resolves (Throwing.elementInfo typeError mergeMode dps)
         (Throwing.holdsArray "elementIds"))
  ∧ (∀ typeError mergeMode dps,
       Forall Throwing.returnsPromises dps →
       Throwing.Resolves (Throwing.linksInfo typeError mergeMode dps)
         (Throwing.holdsArray "elementIds"))
  ∧ (∀ R : Type, Throwing.RejectingIsTagged (R := R))
  ∧ Throwing.RejectingIsAbsent Throwing.linkTypesOf_callBack
  ∧ Throwing.RejectingIsAbsent Throwing.linkElements_callBack
  ∧ Throwing.RejectingIsAbsent Throwing.filter_callBack
  ∧ (∀ (R : Type) field others (keep : R → string → bool),
       Throwing.RejectingIsLeftOut field others keep).
Proof.
  split_and!.
  - intros R V callBack dps captured heap Hreturns.
    rewrite queueProcessResults_settle by done.
    destruct (Throwing.settle callBack dps None captured heap) as [[responses heap'] made].
    by eexists _, _, _.
  - intros R dps Hdps. split_and!.
    + intros isEmpty params. by apply binary_callBack_doesNotThrow.
    + intros field others keep params. by apply narrowing_callBack_doesNotThrow.
    + intros U mergeFunction params heap. by apply fetchSequentially_resolves.
  - intros mergeMode dps Hdps. by apply binaryMethod_Resolves.
  - intros mergeMode dps Hdps. by apply binaryMethod_Resolves.
  - intros mergeMode dps Hdps. by apply binaryMethod_Resolves.
  - intros typeError mergeMode dps Hdps. by apply narrowingMethod_Resolves.
  - intros typeError mergeMode dps Hdps. by apply narrowingMethod_Resolves.
  - intros typeError mergeMode dps Hdps. by apply narrowingMethod_Resolves.
  - intros typeError mergeMode dps Hdps. by apply narrowingMethod_Resolves.
  - intros typeError mergeMode dps Hdps. by apply narrowingMethod_Resolves.
  - intros R. apply fetchSequentially_RejectingIsTagged.
  - apply binary_RejectingIsAbsent.
  - apply binary_RejectingIsAbsent.
  - apply binary_RejectingIsAbsent.
  - intros R field others keep. apply narrowing_RejectingIsLeftOut.
Qed.
End ThrowingIsolation.

Section ThrowingRepeated.
Context `{Model} `{!MergeUtils}.

End ThrowingRepeated.

Section ThrowingProviders.
Local Existing Instance exampleModel.
Local Existing Instance exampleMerge.




Lemma rdfProvider_answersByValue found :
  Throwing.answersByValue (Throwing.rdfProvider found).
Proof. by exists (λ _, ([], Throwing.Returns (Resolved found))). Qed.


End ThrowingProviders.

Section ThrowingMoreExamples.
Local Existing Instance exampleModel.
Local Existing Instance exampleMerge.


Lemma rejecting_provider_witness :
  (∃ responses heap' made1 made made2,
     Throwing.queueProcessResults (Throwing.filter_callBack 0)
       ([Throwing.rdfProvider ∅] ++ Throwing.downProvider
        :: [Throwing.rdfProvider {["e" := "element"]}]) () Throwing.textHeap
     = Some (heap', Throwing.Returns (Resolved responses), made1 ++ made ++ made2)
     ∧ Throwing.queueProcessResults (Throwing.filter_callBack 0)
         ([Throwing.rdfProvider ∅] ++ [Throwing.rdfProvider {["e" := "element"]}])
         () Throwing.textHeap
       = Some (heap', Throwing.Returns (Resolved responses), made1 ++ made2)
     ∧ (made = []
        ∨ made = [{| Throwing.calledProvider := "down"; Throwing.passed := 0;
                     Throwing.wrote := [] |}]))
  ∧ (∃ heap' responses1 responses2 made1 made2,
       Throwing.fetchSequentially
         ([Throwing.rdfProvider ∅] ++ [Throwing.rdfProvider {["e" := "element"]}])
         mergeFilter 0 Throwing.textHeap
       = (heap', Throwing.Returns (Resolved (mergeFilter (responses1 ++ responses2))),
          made1 ++ made2)
       ∧ Throwing.fetchSequentially
           ([Throwing.rdfProvider ∅] ++ Throwing.downProvider
            :: [Throwing.rdfProvider {["e" := "element"]}])
           mergeFilter 0 Throwing.textHeap
         = (heap',
            Throwing.Returns
              (Resolved
                 (mergeFilter
                    (responses1
                     ++ {| dataSourceName := "down"; response := None |} :: responses2))),
            made1
            ++ {| Throwing.calledProvider := "down"; Throwing.passed := 0;
                  Throwing.wrote := [] |} :: made2)
       ∧ length responses1 = 1
       ∧ length made1 = 1).
Proof.
  destruct rejecting_provider_is_isolated
    as (_ & _ & _ & _ & _ & _ & _ & _ & _ & _ & Htagged & _ & _ & Hfilter & _).
  split.
  - apply (Hfilter [Throwing.rdfProvider ∅] Throwing.downProvider
             [Throwing.rdfProvider {["e" := "element"]}] 0 Throwing.textHeap).
    + repeat constructor; intros params heap; by eexists.
    + intros params heap. by eexists.
  - apply (Htagged _ _ (@mergeFilter exampleModel exampleMerge)
             [Throwing.rdfProvider ∅] Throwing.downProvider
             [Throwing.rdfProvider {["e" := "element"]}] 0 Throwing.textHeap).
    + repeat constructor; intros params heap; by eexists.
    + intros params heap. by eexists.
Defined.


(** The same object handed to [filter] a second time, after the SPARQL
    provider has set its limit, no longer holds the values of the first
    call: the provider that takes the limit as it is given now finds an
    element, and the SPARQL provider is not asked. *)
Lemma filter_same_object_again :
  let dps := [Throwing.cappedProvider {["e" := "element"]};
              Throwing.sparqlProvider {["s" := "from SPARQL"]}] in
  let heap1 :=
    Objects.write Throwing.textHeap [Objects.setField 0 "limit" (Objects.number 100)] in
  Throwing.filter "sequentialFetching" dps 0 Throwing.textHeap
  = Some (heap1, Throwing.Returns (Resolved {["s" := "from SPARQL"]}),
          [{| Throwing.calledProvider := "capped"; Throwing.passed := 0;
              Throwing.wrote := [] |};
           {| Throwing.calledProvider := "SPARQL"; Throwing.passed := 0;
              Throwing.wrote := [Objects.setField 0 "limit" (Objects.number 100)] |}])
  ∧ Throwing.filter "sequentialFetching" dps 0 heap1
    = Some (heap1, Throwing.Returns (Resolved {["e" := "element"]}),
            [{| Throwing.calledProvider := "capped"; Throwing.passed := 0;
                Throwing.wrote := [] |}])
  ∧ Throwing.view heap1 0 ≠ Throwing.view Throwing.textHeap 0.
Proof. split_and!; by vm_compute. Qed.
End ThrowingMoreExamples.
